(** * Cache_sysmodel: the eviction-policy engines, embedded and verified

    A shallow embedding of the cache engines of the repository
    (LRU, LRU-K, LFU and the ARC composite with its two sub-caches, the
    FIFO page cache and the two sharded caches) and the proofs of the
    properties stated about them.

    Conventions of the embedding.
    - Every engine guards its state with one mutex and every public operation
      runs to completion under it, so an operation is a function from the
      state before to the state after (and a result).
    - An intrusive doubly-linked list between two sentinels, together with
      the hash index into it, is the list of its nodes in link order.
      Where the code can let the index and the list drift apart (the ghost
      lists of the ARC parts) the index is kept as a separate finite set.
    - [size_t] values are integers with the wrap-around modulo [2^64]
      written out; [int] values are integers (signed overflow is undefined
      in the source and is not modelled), with the conversions to [size_t]
      that the comparisons and divisions of the source perform written out.
    - A dereference of a null pointer is the result [None], and so is every
      other operation the language leaves undefined: [front()] of an empty
      queue, a remainder by 0, an index past the end of a vector, the
      conversion to [size_t] of a [double] that no [size_t] equals.
    - A [double] is a value of the Standard Library's specification of
      binary64 arithmetic. *)

From stdpp Require Import gmap list strings.
From Stdlib Require Import ZArith Lia.
From Stdlib Require Import Floats.SpecFloat.

Local Open Scope Z_scope.

(** ** Machine integers *)

(** An [int] converted to [size_t] (the usual arithmetic conversions when an
    [int] meets a [size_t]), and [++] on a [size_t]. *)
Definition to_size_t (z : Z) : Z := z mod 2 ^ 64.

(** A [size_t] stored into an [int]: the low 32 bits, read as signed. *)
Definition to_int (z : Z) : Z := (z + 2 ^ 31) mod 2 ^ 32 - 2 ^ 31.

(** The values an [int] parameter can hold. *)
Definition int_range (z : Z) : Prop := - 2 ^ 31 <= z < 2 ^ 31.

(** [container.size()]. *)
Definition zlength {A} (l : list A) : Z := Z.of_nat (length l).

(** ** LRU.hpp: [LRUNode] and [LRUCache] *)

Module LRU.
Section LRUCache.
Context {Key : Type} `{EqDecision Key} {Value : Type}.

(** What the convenience form of [get] returns on a miss: the local
    [Value value;] it never assigned.  The source's comment calls it the
    default value; LRUK.hpp relies on it being [0] for [size_t]. *)
Variable Value_default : Value.

Record LRUNode := mkNode {
  _key : Key;
  _value : Value;
  _accessCount : Z
}.

(** [_list] holds the nodes linked between [_head] and [_tail], the node
    after [_head] (least recently used) first.  [_nodeMap] is the index of
    that list by key. *)
Record LRUCache := mkCache {
  _capacity : Z;
  _list : list LRUNode
}.

Definition has_key (key : Key) (n : LRUNode) : bool := bool_decide (_key n = key).

(** [_nodeMap.find(key)] *)
Definition nodeMap_find (c : LRUCache) (key : Key) : option LRUNode :=
  List.find (has_key key) (_list c).

(** [LRUCache(int capacity)] *)
Definition new (capacity : Z) : LRUCache :=
  {| _capacity := capacity; _list := [] |}.

(** [removeNode]: unlink the node of [key]. *)
Fixpoint removeNode (key : Key) (l : list LRUNode) : list LRUNode :=
  match l with
  | [] => []
  | n :: l' => if has_key key n then l' else n :: removeNode key l'
  end.

(** [insertNode]: link the node just before [_tail]. *)
Definition insertNode (n : LRUNode) (l : list LRUNode) : list LRUNode := l ++ [n].

Definition moveToMostRecent (n : LRUNode) (l : list LRUNode) : list LRUNode :=
  insertNode n (removeNode (_key n) l).

(** [evictLeastRecent]: drop [_head->_next] from the list and the index. *)
Definition evictLeastRecent (l : list LRUNode) : list LRUNode :=
  match l with
  | [] => []
  | _ :: l' => l'
  end.

Definition updateExistringNode (c : LRUCache) (n : LRUNode) (value : Value) : LRUCache :=
  let n' := {| _key := _key n; _value := value; _accessCount := _accessCount n |} in
  {| _capacity := _capacity c; _list := moveToMostRecent n' (_list c) |}.

Definition addNewNode (c : LRUCache) (key : Key) (value : Value) : LRUCache :=
  let l := if to_size_t (_capacity c) <=? zlength (_list c)
           then evictLeastRecent (_list c) else _list c in
  let newNode := {| _key := key; _value := value; _accessCount := 1 |} in
  {| _capacity := _capacity c; _list := insertNode newNode l |}.

Definition put (c : LRUCache) (key : Key) (value : Value) : LRUCache :=
  if _capacity c <=? 0 then c
  else match nodeMap_find c key with
       | Some n => updateExistringNode c n value
       | None => addNewNode c key value
       end.

(** [bool get(Key, Value&)]: [Some v] is [true] with [v] written to the
    out-parameter, [None] is [false] with the out-parameter untouched. *)
Definition get (c : LRUCache) (key : Key) : LRUCache * option Value :=
  match nodeMap_find c key with
  | Some n =>
      ({| _capacity := _capacity c; _list := moveToMostRecent n (_list c) |},
       Some (_value n))
  | None => (c, None)
  end.

(** [Value get(Key)] *)
Definition get_value (c : LRUCache) (key : Key) : LRUCache * Value :=
  let '(c', r) := get c key in (c', default Value_default r).

Definition remove (c : LRUCache) (key : Key) : LRUCache :=
  match nodeMap_find c key with
  | Some _ => {| _capacity := _capacity c; _list := removeNode key (_list c) |}
  | None => c
  end.

(** The keys, from least to most recently used. *)
Definition keys (c : LRUCache) : list Key := map _key (_list c).

(** The public operations and their runs. *)
Inductive op :=
| Put (key : Key) (value : Value)
| Get (key : Key)
| Remove (key : Key).

Definition step (c : LRUCache) (o : op) : LRUCache :=
  match o with
  | Put key value => put c key value
  | Get key => fst (get c key)
  | Remove key => remove c key
  end.

Definition run (c : LRUCache) (ops : list op) : LRUCache := fold_left step ops c.

End LRUCache.

Arguments LRUNode : clear implicits.
Arguments LRUCache : clear implicits.
Arguments op : clear implicits.
End LRU.

(** ** LRUK.hpp: [LRUKCache] *)

Module LRUK.
Section LRUKCache.
Context {Key : Type} `{Countable Key} {Value : Type}.

(** [Value value{}] *)
Variable Value_default : Value.
(** What [_historyList->get(key)] returns for a key the history does not
    hold (the unassigned local of [LRUCache<Key, size_t>::get(Key)]; the
    comment at the call takes it to be [0]). *)
Variable count_default : Z.

(** [main] is the base class [LRUCache<Key, Value>]. *)
Record LRUKCache := mkCache {
  main : LRU.LRUCache Key Value;
  _k : Z;
  _historyList : LRU.LRUCache Key Z;
  _historyValueMap : gmap Key Value
}.

Definition new (capacity historyCapacity k : Z) : LRUKCache :=
  {| main := LRU.new capacity; _k := k;
     _historyList := LRU.new historyCapacity; _historyValueMap := ∅ |}.

(** [size_t historyCount = _historyList->get(key); historyCount++;] *)
Definition historyCount (h : LRU.LRUCache Key Z) (key : Key) : Z :=
  to_size_t (snd (LRU.get_value count_default h key) + 1).

(** [_historyList->get(key); historyCount++; _historyList->put(key, historyCount);] *)
Definition recordAccess (h : LRU.LRUCache Key Z) (key : Key) : LRU.LRUCache Key Z :=
  LRU.put (fst (LRU.get_value count_default h key)) key (historyCount h key).

(** [historyCount >= _k], the [int] converted to [size_t]. *)
Definition reachedK (c : LRUKCache) (count : Z) : bool := to_size_t (_k c) <=? count.

(** [Value get(Key)] *)
Definition get (c : LRUKCache) (key : Key) : LRUKCache * Value :=
  let '(main1, inMainCache) := LRU.get (main c) key in
  let count := historyCount (_historyList c) key in
  let history1 := recordAccess (_historyList c) key in
  match inMainCache with
  | Some value =>
      ({| main := main1; _k := _k c; _historyList := history1;
          _historyValueMap := _historyValueMap c |}, value)
  | None =>
      match (if reachedK c count then _historyValueMap c !! key else None) with
      | Some storedValue =>
          ({| main := LRU.put main1 key storedValue; _k := _k c;
              _historyList := LRU.remove history1 key;
              _historyValueMap := delete key (_historyValueMap c) |}, storedValue)
      | None =>
          ({| main := main1; _k := _k c; _historyList := history1;
              _historyValueMap := _historyValueMap c |}, Value_default)
      end
  end.

(** [void put(Key, Value)] *)
Definition put (c : LRUKCache) (key : Key) (value : Value) : LRUKCache :=
  let '(main1, inMainCache) := LRU.get (main c) key in
  match inMainCache with
  | Some _ =>
      {| main := LRU.put main1 key value; _k := _k c;
         _historyList := _historyList c; _historyValueMap := _historyValueMap c |}
  | None =>
      let count := historyCount (_historyList c) key in
      let history1 := recordAccess (_historyList c) key in
      let staged := <[key := value]> (_historyValueMap c) in
      if reachedK c count
      then {| main := LRU.put main1 key value; _k := _k c;
              _historyList := LRU.remove history1 key;
              _historyValueMap := delete key staged |}
      else {| main := main1; _k := _k c; _historyList := history1;
              _historyValueMap := staged |}
  end.

(** [bool get(Key, Value&)], inherited from the base class: the main cache only. *)
Definition get_main (c : LRUKCache) (key : Key) : LRUKCache * option Value :=
  let '(main1, r) := LRU.get (main c) key in
  ({| main := main1; _k := _k c; _historyList := _historyList c;
      _historyValueMap := _historyValueMap c |}, r).


Inductive op :=
| Put (key : Key) (value : Value)
| Get (key : Key).

Definition op_key (o : op) : Key :=
  match o with Put key _ => key | Get key => key end.

Definition step (c : LRUKCache) (o : op) : LRUKCache :=
  match o with
  | Put key value => put c key value
  | Get key => fst (get c key)
  end.

Definition run (c : LRUKCache) (ops : list op) : LRUKCache := fold_left step ops c.

End LRUKCache.

Arguments LRUKCache _ {_ _} _.
Arguments op : clear implicits.
End LRUK.

(** ** LFUCache.hpp: [FreqList] and [LFUCache] *)

Module LFU.
Section LFUCache.
Context {Key : Type} `{Countable Key} {Value : Type}.

(** [Key()], the key a sentinel node of a [FreqList] carries. *)
Variable Key_default : Key.
(** [Value value{}] *)
Variable Value_default : Value.

Definition INT_MAX : Z := 2 ^ 31 - 1.

(** The node of a key, as [_nodeMap] indexes it. *)
Record Node := mkNode {
  freq : Z;
  value : Value
}.

(** [_freqToFreqList] maps a frequency to its [FreqList]: the keys of the
    nodes linked between its [_head] and [_tail], the node after [_head]
    (the oldest of that frequency) first.  A key in a list stands for the
    node of that key, which is exact as long as every linked node is the
    one the index holds for its key (see [LFU_sync]).  A node linked in the
    list of frequency [f] has [freq = f].  A frequency with no entry is one
    whose [operator[]] would yield a null pointer.
    [_nodeMap] is iterated in the order of [map_to_list] (the source leaves
    the order of a [std::unordered_map] open). *)
Record LFUCache := mkCache {
  _capacity : Z;
  _minFreq : Z;
  _maxAverageNum : Z;
  _curAverageNum : Z;
  _curTotalNum : Z;
  _nodeMap : gmap Key Node;
  _freqToFreqList : gmap Z (list Key)
}.

Definition set_nodeMap (s : LFUCache) (m : gmap Key Node) : LFUCache :=
  {| _capacity := _capacity s; _minFreq := _minFreq s;
     _maxAverageNum := _maxAverageNum s; _curAverageNum := _curAverageNum s;
     _curTotalNum := _curTotalNum s; _nodeMap := m;
     _freqToFreqList := _freqToFreqList s |}.

Definition set_freqToFreqList (s : LFUCache) (b : gmap Z (list Key)) : LFUCache :=
  {| _capacity := _capacity s; _minFreq := _minFreq s;
     _maxAverageNum := _maxAverageNum s; _curAverageNum := _curAverageNum s;
     _curTotalNum := _curTotalNum s; _nodeMap := _nodeMap s;
     _freqToFreqList := b |}.

Definition set_minFreq (s : LFUCache) (f : Z) : LFUCache :=
  {| _capacity := _capacity s; _minFreq := f;
     _maxAverageNum := _maxAverageNum s; _curAverageNum := _curAverageNum s;
     _curTotalNum := _curTotalNum s; _nodeMap := _nodeMap s;
     _freqToFreqList := _freqToFreqList s |}.

Definition set_stats (s : LFUCache) (total average : Z) : LFUCache :=
  {| _capacity := _capacity s; _minFreq := _minFreq s;
     _maxAverageNum := _maxAverageNum s; _curAverageNum := average;
     _curTotalNum := total; _nodeMap := _nodeMap s;
     _freqToFreqList := _freqToFreqList s |}.

(** [LFUCache(int capacity, int maxAverageNum = 10)] *)
Definition new (capacity maxAverageNum : Z) : LFUCache :=
  {| _capacity := capacity; _minFreq := INT_MAX;
     _maxAverageNum := maxAverageNum; _curAverageNum := 0; _curTotalNum := 0;
     _nodeMap := ∅; _freqToFreqList := ∅ |}.

(** [_nodeMap.size()] *)
Definition nodeMap_size (s : LFUCache) : Z := Z.of_nat (size (_nodeMap s)).

(** [FreqList::isEmpty] *)
Definition isEmpty (l : list Key) : bool :=
  match l with [] => true | _ => false end.

(** [FreqList::removeNode]: unlink the node of [key]. *)
Fixpoint removeNode (key : Key) (l : list Key) : list Key :=
  match l with
  | [] => []
  | k :: l' => if bool_decide (k = key) then l' else k :: removeNode key l'
  end.

(** [FreqList::addNode]: link the node just before [_tail]. *)
Definition addNode (key : Key) (l : list Key) : list Key := l ++ [key].

(** [removeFromFreqList(node)], for the node of [key] with frequency [f]:
    [_freqToFreqList[f]->removeNode(node)]. *)
Definition removeFromFreqList (s : LFUCache) (key : Key) (f : Z) : option LFUCache :=
  l ← _freqToFreqList s !! f;
  Some (set_freqToFreqList s (<[f := removeNode key l]> (_freqToFreqList s))).

(** [addToFreqList(node)], for the node of [key] with frequency [f]. *)
Definition addToFreqList (s : LFUCache) (key : Key) (f : Z) : LFUCache :=
  let l := default [] (_freqToFreqList s !! f) in
  set_freqToFreqList s (<[f := addNode key l]> (_freqToFreqList s)).

(** [updateMinFreq] *)
Definition updateMinFreq (s : LFUCache) : LFUCache :=
  let m := map_fold (fun f l acc => if isEmpty l then acc else Z.min acc f)
                    INT_MAX (_freqToFreqList s) in
  set_minFreq s (if m =? INT_MAX then 1 else m).

(** [_curTotalNum / _nodeMap.size()]: the [int] is converted to [size_t],
    the quotient is stored into an [int]. *)
Definition average (total : Z) (s : LFUCache) : Z :=
  if decide (_nodeMap s = ∅) then 0 else to_int (to_size_t total / nodeMap_size s).

(** The frequency of a node after one ageing pass. *)
Definition aged (maxAverageNum f : Z) : Z :=
  let f' := f - maxAverageNum ÷ 2 in
  if f' <? 1 then 1 else f'.

(** One turn of the loop of [handleOverMaxAverageNum], at the entry
    [(key, node)] of [_nodeMap]. *)
Definition ageNode (s : LFUCache) (key : Key) (node : Node) : option LFUCache :=
  s1 ← removeFromFreqList s key (freq node);
  let node' := {| freq := aged (_maxAverageNum s) (freq node); value := value node |} in
  let s2 := set_nodeMap s1 (<[key := node']> (_nodeMap s1)) in
  Some (addToFreqList s2 key (freq node')).

Fixpoint ageNodes (entries : list (Key * Node)) (s : LFUCache) : option LFUCache :=
  match entries with
  | [] => Some s
  | (key, node) :: rest => s' ← ageNode s key node; ageNodes rest s'
  end.

(** [handleOverMaxAverageNum] *)
Definition handleOverMaxAverageNum (s : LFUCache) : option LFUCache :=
  if decide (_nodeMap s = ∅) then Some s
  else
    s1 ← ageNodes (map_to_list (_nodeMap s)) s;
    let cnt := nodeMap_size s in
    let total := _curTotalNum s1 - (_maxAverageNum s1 ÷ 2) * cnt in
    Some (updateMinFreq (set_stats s1 total (total ÷ cnt))).

(** [addFreqNum] *)
Definition addFreqNum (s : LFUCache) : option LFUCache :=
  let total := _curTotalNum s + 1 in
  let s1 := set_stats s total (average total s) in
  if _maxAverageNum s1 <? _curAverageNum s1 then handleOverMaxAverageNum s1
  else Some s1.

(** [decreaseFreqNum] *)
Definition decreaseFreqNum (s : LFUCache) (num : Z) : LFUCache :=
  let total := _curTotalNum s - num in
  set_stats s total (average total s).

(** [kickOut].  The first node of the list of [_minFreq] is a resident node
    of that frequency or, when the list is empty, the sentinel [_tail]
    (frequency 1, key [Key()], linked in no list as [removeNode] sees it). *)
Definition kickOut (s : LFUCache) : option LFUCache :=
  l ← _freqToFreqList s !! _minFreq s;
  match l with
  | key :: _ =>
      let decreaseNum := _minFreq s in
      let s1 := set_nodeMap s (delete key (_nodeMap s)) in
      s2 ← removeFromFreqList s1 key decreaseNum;
      Some (decreaseFreqNum s2 decreaseNum)
  | [] =>
      let s1 := set_nodeMap s (delete Key_default (_nodeMap s)) in
      _ ← _freqToFreqList s1 !! 1;
      Some (decreaseFreqNum s1 1)
  end.

(** The test that guards [kickOut] in [putInternal]:
    [_nodeMap.size() == _capacity]. *)
Definition isFull (s : LFUCache) : bool := nodeMap_size s =? to_size_t (_capacity s).

(** [putInternal] *)
Definition putInternal (s : LFUCache) (key : Key) (v : Value) : option LFUCache :=
  s1 ← (if isFull s then kickOut s else Some s);
  let node := {| freq := 1; value := v |} in
  let s2 := set_nodeMap s1 (<[key := node]> (_nodeMap s1)) in
  let s3 := addToFreqList s2 key (freq node) in
  s4 ← addFreqNum s3;
  Some (set_minFreq s4 1).

(** The step of [getInternal] on [_minFreq], [f] being the frequency the
    node has now:
    [if(_minFreq == f - 1 && _freqToFreqList[f - 1]->isEmpty()) _minFreq++;] *)
Definition advanceMinFreq (s : LFUCache) (f : Z) : option LFUCache :=
  if _minFreq s =? f - 1
  then l ← _freqToFreqList s !! (f - 1);
       Some (if isEmpty l then set_minFreq s (_minFreq s + 1) else s)
  else Some s.

(** [getInternal(node, value)], for the node of [key]: the state after and
    the value written to the out-parameter. *)
Definition getInternal (s : LFUCache) (key : Key) (node : Node) : option (LFUCache * Value) :=
  s1 ← removeFromFreqList s key (freq node);
  let node' := {| freq := freq node + 1; value := value node |} in
  let s2 := set_nodeMap s1 (<[key := node']> (_nodeMap s1)) in
  let s3 := addToFreqList s2 key (freq node') in
  s4 ← advanceMinFreq s3 (freq node');
  s5 ← addFreqNum s4;
  Some (s5, value node).

(** [void put(Key, Value)] *)
Definition put (s : LFUCache) (key : Key) (v : Value) : option LFUCache :=
  if _capacity s =? 0 then Some s
  else match _nodeMap s !! key with
       | Some node =>
           let node' := {| freq := freq node; value := v |} in
           let s1 := set_nodeMap s (<[key := node']> (_nodeMap s)) in
           r ← getInternal s1 key node'; Some (fst r)
       | None => putInternal s key v
       end.

(** [bool get(Key, Value&)] *)
Definition get (s : LFUCache) (key : Key) : option (LFUCache * option Value) :=
  match _nodeMap s !! key with
  | Some node => r ← getInternal s key node; Some (fst r, Some (snd r))
  | None => Some (s, None)
  end.

(** [Value get(Key)] *)
Definition get_value (s : LFUCache) (key : Key) : option (LFUCache * Value) :=
  r ← get s key; Some (fst r, default Value_default (snd r)).

(** [purge] *)
Definition purge (s : LFUCache) : LFUCache :=
  set_freqToFreqList (set_nodeMap s ∅) ∅.

Inductive op :=
| Put (key : Key) (v : Value)
| Get (key : Key)
| Purge.

Definition step (s : LFUCache) (o : op) : option LFUCache :=
  match o with
  | Put key v => put s key v
  | Get key => fst <$> get s key
  | Purge => Some (purge s)
  end.

Fixpoint run (s : LFUCache) (ops : list op) : option LFUCache :=
  match ops with
  | [] => Some s
  | o :: rest => s' ← step s o; run s' rest
  end.

(** The lists that hold a node, and the least frequency among them. *)
Definition nonEmptyList (s : LFUCache) (f : Z) : Prop :=
  exists l, _freqToFreqList s !! f = Some l /\ l <> [].

Definition smallestNonEmpty (s : LFUCache) (f : Z) : Prop :=
  nonEmptyList s f /\ forall f', nonEmptyList s f' -> f <= f'.

End LFUCache.

Arguments Node : clear implicits.
Arguments LFUCache _ {_ _} _.
Arguments op : clear implicits.
End LFU.

(** ** ArcCacheNode.hpp, ArcLruPart.hpp, ArcLfuPart.hpp, ArcCache.hpp *)

Module Arc.
Section ArcCache.
Context {Key : Type} `{Countable Key} {Value : Type}.

(** [Value value{}] *)
Variable Value_default : Value.

Record ArcNode := mkNode {
  _key : Key;
  _value : Value;
  _accessCount : Z
}.

Definition has_key (key : Key) (n : ArcNode) : bool := bool_decide (_key n = key).

(** *** The ghost list of a part

    The nodes linked between [_ghostHead] and [_ghostTail] by their keys
    (nothing else of a ghost is ever read), the latest ghost first, and the
    key set of [_ghostCache].  The index entry of a key points to the
    latest ghost of that key. *)
Record Ghost := mkGhost {
  _ghostList : list Key;
  _ghostCache : gset Key
}.

Definition ghost_empty : Ghost := {| _ghostList := []; _ghostCache := ∅ |}.

(** [_ghostCache.size()] *)
Definition ghost_size (g : Ghost) : Z := Z.of_nat (size (_ghostCache g)).

(** [removeFromGhost(node)] for the latest ghost of [key]. *)
Fixpoint removeFromGhost (key : Key) (l : list Key) : list Key :=
  match l with
  | [] => []
  | k :: l' => if bool_decide (k = key) then l' else k :: removeFromGhost key l'
  end.

(** [addToGhost] *)
Definition addToGhost (key : Key) (g : Ghost) : Ghost :=
  {| _ghostList := key :: _ghostList g; _ghostCache := {[key]} ∪ _ghostCache g |}.

(** [removeOldestGhost] *)
Definition removeOldestGhost (g : Ghost) : Ghost :=
  match last (_ghostList g) with
  | None => g
  | Some oldest =>
      {| _ghostList := removelast (_ghostList g);
         _ghostCache := _ghostCache g ∖ {[oldest]} |}
  end.

(** The ghost step of an eviction:
    [if(_ghostCache.size() >= _ghostCapacity) removeOldestGhost(); addToGhost(node);] *)
Definition evictToGhost (ghostCapacity : Z) (key : Key) (g : Ghost) : Ghost :=
  addToGhost key (if ghostCapacity <=? ghost_size g then removeOldestGhost g else g).

(** [checkGhost] on the ghost list. *)
Definition ghost_check (key : Key) (g : Ghost) : Ghost * bool :=
  if decide (key ∈ _ghostCache g)
  then ({| _ghostList := removeFromGhost key (_ghostList g);
           _ghostCache := _ghostCache g ∖ {[key]} |}, true)
  else (g, false).

(** *** [ArcLruPart]

    [_mainList] holds the nodes linked between [_mainHead] and [_mainTail],
    the node after [_mainHead] (most recently used) first; [_mainCache] is
    the index of that list by key. *)
Record ArcLruPart := mkLru {
  lru_capacity : Z;
  lru_ghostCapacity : Z;
  lru_transformThreshold : Z;
  lru_mainList : list ArcNode;
  lru_ghost : Ghost
}.

(** [ArcLruPart(size_t capacity, size_t transfromThreshold)] *)
Definition lru_new (capacity transformThreshold : Z) : ArcLruPart :=
  {| lru_capacity := capacity; lru_ghostCapacity := capacity;
     lru_transformThreshold := transformThreshold;
     lru_mainList := []; lru_ghost := ghost_empty |}.

Definition lru_set_capacity (p : ArcLruPart) (capacity : Z) : ArcLruPart :=
  {| lru_capacity := capacity; lru_ghostCapacity := lru_ghostCapacity p;
     lru_transformThreshold := lru_transformThreshold p;
     lru_mainList := lru_mainList p; lru_ghost := lru_ghost p |}.

Definition lru_set_mainList (p : ArcLruPart) (l : list ArcNode) : ArcLruPart :=
  {| lru_capacity := lru_capacity p; lru_ghostCapacity := lru_ghostCapacity p;
     lru_transformThreshold := lru_transformThreshold p;
     lru_mainList := l; lru_ghost := lru_ghost p |}.

Definition lru_set_ghost (p : ArcLruPart) (g : Ghost) : ArcLruPart :=
  {| lru_capacity := lru_capacity p; lru_ghostCapacity := lru_ghostCapacity p;
     lru_transformThreshold := lru_transformThreshold p;
     lru_mainList := lru_mainList p; lru_ghost := g |}.

(** [_mainCache.find(key)] *)
Definition lru_find (p : ArcLruPart) (key : Key) : option ArcNode :=
  List.find (has_key key) (lru_mainList p).

(** [removeFromMain] *)
Fixpoint removeFromMain (key : Key) (l : list ArcNode) : list ArcNode :=
  match l with
  | [] => []
  | n :: l' => if has_key key n then l' else n :: removeFromMain key l'
  end.

(** [moveToFront]: [removeFromMain] then [addToFront]. *)
Definition moveToFront (n : ArcNode) (l : list ArcNode) : list ArcNode :=
  n :: removeFromMain (_key n) l.

(** [ArcLruPart::evictLeastRecent] *)
Definition lru_evictLeastRecent (p : ArcLruPart) : ArcLruPart :=
  match last (lru_mainList p) with
  | None => p
  | Some leastRecent =>
      lru_set_ghost (lru_set_mainList p (removelast (lru_mainList p)))
        (evictToGhost (lru_ghostCapacity p) (_key leastRecent) (lru_ghost p))
  end.

Definition lru_updateExistingNode (p : ArcLruPart) (n : ArcNode) (value : Value) : ArcLruPart :=
  let n' := {| _key := _key n; _value := value; _accessCount := _accessCount n |} in
  lru_set_mainList p (moveToFront n' (lru_mainList p)).

Definition lru_addNewNode (p : ArcLruPart) (key : Key) (value : Value) : ArcLruPart :=
  let p1 := if lru_capacity p <=? zlength (lru_mainList p)
            then lru_evictLeastRecent p else p in
  let newNode := {| _key := key; _value := value; _accessCount := 1 |} in
  lru_set_mainList p1 (newNode :: lru_mainList p1).

(** [bool ArcLruPart::put(Key, Value)] *)
Definition lru_put (p : ArcLruPart) (key : Key) (value : Value) : ArcLruPart * bool :=
  if lru_capacity p =? 0 then (p, false)
  else match lru_find p key with
       | Some n => (lru_updateExistingNode p n value, true)
       | None => (lru_addNewNode p key value, true)
       end.

(** [bool ArcLruPart::get(Key, Value&, bool& shouldTransform)]: on a hit the
    value and [shouldTransform] as [updateNodeAccess] computes it. *)
Definition lru_get (p : ArcLruPart) (key : Key) : ArcLruPart * option (Value * bool) :=
  match lru_find p key with
  | Some n =>
      let n' := {| _key := _key n; _value := _value n;
                   _accessCount := to_size_t (_accessCount n + 1) |} in
      (lru_set_mainList p (moveToFront n' (lru_mainList p)),
       Some (_value n', lru_transformThreshold p <=? _accessCount n'))
  | None => (p, None)
  end.

(** [ArcLruPart::checkGhost] *)
Definition lru_checkGhost (p : ArcLruPart) (key : Key) : ArcLruPart * bool :=
  let '(g, hit) := ghost_check key (lru_ghost p) in (lru_set_ghost p g, hit).

(** [ArcLruPart::increaseCapacity] *)
Definition lru_increaseCapacity (p : ArcLruPart) : ArcLruPart :=
  lru_set_capacity p (to_size_t (lru_capacity p + 1)).

(** [ArcLruPart::decreaseCapacity] *)
Definition lru_decreaseCapacity (p : ArcLruPart) : ArcLruPart * bool :=
  if lru_capacity p <=? 0 then (lru_set_capacity p 0, false)
  else
    let p1 := if zlength (lru_mainList p) =? lru_capacity p
              then lru_evictLeastRecent p else p in
    (lru_set_capacity p1 (lru_capacity p1 - 1), true).

(** *** [ArcLfuPart]

    [lfu_mainCache] maps a key to its node.  [lfu_freqMap] is the ordered
    map from a frequency to the [std::list] of the nodes of that frequency,
    by their keys, [front()] first. *)
Record ArcLfuPart := mkLfu {
  lfu_capacity : Z;
  lfu_ghostCapacity : Z;
  lfu_transformThreshold : Z;
  lfu_minFreq : Z;
  lfu_mainCache : gmap Key ArcNode;
  lfu_freqMap : gmap Z (list Key);
  lfu_ghost : Ghost
}.

(** [ArcLfuPart(size_t capacity, size_t transformThreshold)] *)
Definition lfu_new (capacity transformThreshold : Z) : ArcLfuPart :=
  {| lfu_capacity := capacity; lfu_ghostCapacity := capacity;
     lfu_transformThreshold := transformThreshold; lfu_minFreq := 0;
     lfu_mainCache := ∅; lfu_freqMap := ∅; lfu_ghost := ghost_empty |}.

Definition lfu_set_capacity (p : ArcLfuPart) (capacity : Z) : ArcLfuPart :=
  {| lfu_capacity := capacity; lfu_ghostCapacity := lfu_ghostCapacity p;
     lfu_transformThreshold := lfu_transformThreshold p; lfu_minFreq := lfu_minFreq p;
     lfu_mainCache := lfu_mainCache p; lfu_freqMap := lfu_freqMap p;
     lfu_ghost := lfu_ghost p |}.

Definition lfu_set_ghost (p : ArcLfuPart) (g : Ghost) : ArcLfuPart :=
  {| lfu_capacity := lfu_capacity p; lfu_ghostCapacity := lfu_ghostCapacity p;
     lfu_transformThreshold := lfu_transformThreshold p; lfu_minFreq := lfu_minFreq p;
     lfu_mainCache := lfu_mainCache p; lfu_freqMap := lfu_freqMap p;
     lfu_ghost := g |}.

(** The resident side of the part: [_minFreq], [_mainCache], [_freqMap]. *)
Definition lfu_set_main (p : ArcLfuPart) (minFreq : Z) (m : gmap Key ArcNode)
    (fm : gmap Z (list Key)) : ArcLfuPart :=
  {| lfu_capacity := lfu_capacity p; lfu_ghostCapacity := lfu_ghostCapacity p;
     lfu_transformThreshold := lfu_transformThreshold p; lfu_minFreq := minFreq;
     lfu_mainCache := m; lfu_freqMap := fm; lfu_ghost := lfu_ghost p |}.

(** [_mainCache.size()] *)
Definition lfu_size (p : ArcLfuPart) : Z := Z.of_nat (size (lfu_mainCache p)).

(** [_freqMap.begin()->first] *)
Definition freqMap_begin (fm : gmap Z (list Key)) : option Z :=
  map_fold (fun f _ acc => Some (from_option (Z.min f) f acc)) None fm.

(** [updateNodeFrequency], for the node [n] of [key]. *)
Definition lfu_updateNodeFrequency (p : ArcLfuPart) (key : Key) (n : ArcNode) : ArcLfuPart :=
  let oldFreq := _accessCount n in
  let n' := {| _key := _key n; _value := _value n;
               _accessCount := to_size_t (_accessCount n + 1) |} in
  let newFreq := _accessCount n' in
  let oldList := List.filter (fun k => negb (bool_decide (k = key)))
                   (default [] (lfu_freqMap p !! oldFreq)) in
  let emptied := bool_decide (oldList = []) in
  let fm1 := if emptied then delete oldFreq (lfu_freqMap p)
             else <[oldFreq := oldList]> (lfu_freqMap p) in
  let minFreq := if emptied && (oldFreq =? lfu_minFreq p) then newFreq
                 else lfu_minFreq p in
  let fm2 := <[newFreq := default [] (fm1 !! newFreq) ++ [key]]> fm1 in
  lfu_set_main p minFreq (<[key := n']> (lfu_mainCache p)) fm2.

(** [ArcLfuPart::evictLeastFrequent] *)
Definition lfu_evictLeastFrequent (p : ArcLfuPart) : ArcLfuPart :=
  if decide (lfu_freqMap p = ∅) then p
  else
    let minFreqList := default [] (lfu_freqMap p !! lfu_minFreq p) in
    match minFreqList with
    | [] =>
        lfu_set_main p (lfu_minFreq p) (lfu_mainCache p)
          (<[lfu_minFreq p := []]> (lfu_freqMap p))
    | leastNode :: rest =>
        let fm := if bool_decide (rest = []) then delete (lfu_minFreq p) (lfu_freqMap p)
                  else <[lfu_minFreq p := rest]> (lfu_freqMap p) in
        let minFreq := if bool_decide (rest = [])
                       then default (lfu_minFreq p) (freqMap_begin fm)
                       else lfu_minFreq p in
        let g := evictToGhost (lfu_ghostCapacity p) leastNode (lfu_ghost p) in
        lfu_set_ghost (lfu_set_main p minFreq (delete leastNode (lfu_mainCache p)) fm) g
    end.

Definition lfu_updateExistingNode (p : ArcLfuPart) (key : Key) (n : ArcNode)
    (value : Value) : ArcLfuPart :=
  let n' := {| _key := _key n; _value := value; _accessCount := _accessCount n |} in
  lfu_updateNodeFrequency p key n'.

Definition lfu_addNewNode (p : ArcLfuPart) (key : Key) (value : Value) : ArcLfuPart :=
  let p1 := if lfu_capacity p <=? lfu_size p then lfu_evictLeastFrequent p else p in
  let newNode := {| _key := key; _value := value; _accessCount := 1 |} in
  lfu_set_main p1 1 (<[key := newNode]> (lfu_mainCache p1))
    (<[1 := key :: default [] (lfu_freqMap p1 !! 1)]> (lfu_freqMap p1)).

(** [bool ArcLfuPart::put(Key, Value)] *)
Definition lfu_put (p : ArcLfuPart) (key : Key) (value : Value) : ArcLfuPart * bool :=
  if lfu_capacity p =? 0 then (p, false)
  else match lfu_mainCache p !! key with
       | Some n => (lfu_updateExistingNode p key n value, true)
       | None => (lfu_addNewNode p key value, true)
       end.

(** [bool ArcLfuPart::get(Key, Value&)] *)
Definition lfu_get (p : ArcLfuPart) (key : Key) : ArcLfuPart * option Value :=
  match lfu_mainCache p !! key with
  | Some n => (lfu_updateNodeFrequency p key n, Some (_value n))
  | None => (p, None)
  end.

(** [ArcLfuPart::contain] *)
Definition lfu_contain (p : ArcLfuPart) (key : Key) : bool :=
  bool_decide (is_Some (lfu_mainCache p !! key)).

(** [ArcLfuPart::checkGhost] *)
Definition lfu_checkGhost (p : ArcLfuPart) (key : Key) : ArcLfuPart * bool :=
  let '(g, hit) := ghost_check key (lfu_ghost p) in (lfu_set_ghost p g, hit).

(** [ArcLfuPart::increaseCapacity] *)
Definition lfu_increaseCapacity (p : ArcLfuPart) : ArcLfuPart :=
  lfu_set_capacity p (to_size_t (lfu_capacity p + 1)).

(** [ArcLfuPart::decreaseCapacity] *)
Definition lfu_decreaseCapacity (p : ArcLfuPart) : ArcLfuPart * bool :=
  if lfu_capacity p <=? 0 then (lfu_set_capacity p 0, false)
  else
    let p1 := if lfu_size p =? lfu_capacity p then lfu_evictLeastFrequent p else p in
    (lfu_set_capacity p1 (lfu_capacity p1 - 1), true).

(** *** [ArcCache] *)
Record ArcCache := mkArc {
  _capacity : Z;
  _transformThreshold : Z;
  _lruPart : ArcLruPart;
  _lfuPart : ArcLfuPart
}.

(** [ArcCache(size_t capacity = 10, size_t transformThreshold = 2)] *)
Definition new (capacity transformThreshold : Z) : ArcCache :=
  {| _capacity := capacity; _transformThreshold := transformThreshold;
     _lruPart := lru_new capacity transformThreshold;
     _lfuPart := lfu_new capacity transformThreshold |}.

Definition set_parts (c : ArcCache) (lru : ArcLruPart) (lfu : ArcLfuPart) : ArcCache :=
  {| _capacity := _capacity c; _transformThreshold := _transformThreshold c;
     _lruPart := lru; _lfuPart := lfu |}.

(** [checkGhostCaches] *)
Definition checkGhostCaches (c : ArcCache) (key : Key) : ArcCache * bool :=
  let '(lru1, inLruGhost) := lru_checkGhost (_lruPart c) key in
  if inLruGhost then
    let '(lfu1, decreased) := lfu_decreaseCapacity (_lfuPart c) in
    (set_parts c (if decreased then lru_increaseCapacity lru1 else lru1) lfu1, true)
  else
    let '(lfu1, inLfuGhost) := lfu_checkGhost (_lfuPart c) key in
    if inLfuGhost then
      let '(lru2, decreased) := lru_decreaseCapacity lru1 in
      (set_parts c lru2 (if decreased then lfu_increaseCapacity lfu1 else lfu1), true)
    else (set_parts c lru1 lfu1, false).

(** [void ArcCache::put(Key, Value)] *)
Definition put (c : ArcCache) (key : Key) (value : Value) : ArcCache :=
  let c1 := fst (checkGhostCaches c key) in
  let lru1 := fst (lru_put (_lruPart c1) key value) in
  let lfu1 := if lfu_contain (_lfuPart c1) key
              then fst (lfu_put (_lfuPart c1) key value) else _lfuPart c1 in
  set_parts c1 lru1 lfu1.

(** [bool ArcCache::get(Key, Value&)] *)
Definition get (c : ArcCache) (key : Key) : ArcCache * option Value :=
  let c1 := fst (checkGhostCaches c key) in
  let '(lru1, r) := lru_get (_lruPart c1) key in
  match r with
  | Some (value, shouldTransform) =>
      let lfu1 := if shouldTransform then fst (lfu_put (_lfuPart c1) key value)
                  else _lfuPart c1 in
      (set_parts c1 lru1 lfu1, Some value)
  | None =>
      let '(lfu1, r') := lfu_get (_lfuPart c1) key in
      (set_parts c1 lru1 lfu1, r')
  end.

(** [Value ArcCache::get(Key)] *)
Definition get_value (c : ArcCache) (key : Key) : ArcCache * Value :=
  let '(c', r) := get c key in (c', default Value_default r).

Inductive op :=
| Put (key : Key) (value : Value)
| Get (key : Key).

Definition step (c : ArcCache) (o : op) : ArcCache :=
  match o with
  | Put key value => put c key value
  | Get key => fst (get c key)
  end.

Definition run (c : ArcCache) (ops : list op) : ArcCache := fold_left step ops c.

End ArcCache.

Arguments ArcNode : clear implicits.
Arguments Ghost _ {_ _}.
Arguments ArcLruPart _ {_ _} _.
Arguments ArcLfuPart _ {_ _} _.
Arguments ArcCache _ {_ _} _.
Arguments op : clear implicits.
End Arc.

(** ** FIFOCache.hpp: [FIFOCache] *)

Module FIFO.

(** [pageQueue] is the [std::queue], [front()] first; [pageSet] is the
    [std::unordered_set] beside it. *)
Record FIFOCache := mkCache {
  capacity : Z;
  pageQueue : list Z;
  pageSet : gset Z
}.

(** [FIFOCache(int cap)] *)
Definition new (cap : Z) : FIFOCache :=
  {| capacity := cap; pageQueue := []; pageSet := ∅ |}.

(** The replacement step of [accessPage]:
    [int oldestPage = pageQueue.front(); pageQueue.pop(); pageSet.erase(oldestPage);]
    [front()] of an empty queue is the result [None]. *)
Definition evictOldest (c : FIFOCache) : option FIFOCache :=
  match pageQueue c with
  | [] => None
  | oldestPage :: rest =>
      Some {| capacity := capacity c; pageQueue := rest;
              pageSet := pageSet c ∖ {[oldestPage]} |}
  end.

(** [bool accessPage(int pageNum)]: the state after, and [true] for a page
    fault.  [pageQueue.size() == capacity] compares a [size_t] with an
    [int]. *)
Definition accessPage (c : FIFOCache) (pageNum : Z) : option (FIFOCache * bool) :=
  if decide (pageNum ∈ pageSet c) then Some (c, false)
  else
    c1 ← (if zlength (pageQueue c) =? to_size_t (capacity c)
          then evictOldest c else Some c);
    Some ({| capacity := capacity c1; pageQueue := pageQueue c1 ++ [pageNum];
             pageSet := {[pageNum]} ∪ pageSet c1 |}, true).

(** [displayCache]: the pages it prints, in the order it prints them. *)
Definition displayCache (c : FIFOCache) : list Z := pageQueue c.

(** [int getCurrentSize()]: the [size_t] is returned as an [int]. *)
Definition getCurrentSize (c : FIFOCache) : Z := to_int (zlength (pageQueue c)).

Definition getCapacity (c : FIFOCache) : Z := capacity c.

(** A run of page requests: the state after and the pages that faulted,
    in the order of their requests. *)
Fixpoint run (c : FIFOCache) (pages : list Z) : option (FIFOCache * list Z) :=
  match pages with
  | [] => Some (c, [])
  | pageNum :: rest =>
      '(c1, fault) ← accessPage c pageNum;
      '(c2, faults) ← run c1 rest;
      Some (c2, if fault : bool then pageNum :: faults else faults)
  end.

End FIFO.

(** ** Double-precision arithmetic

    The sharded caches compute their slice size in [double].  The values
    are those of the Standard Library's specification of binary64
    ([prec = 53], [emax = 1024], round to nearest, ties to even). *)

Module Double.

Definition prec : Z := 53.
Definition emax : Z := 1024.

(** An integer converted to [double]. *)
Definition of_Z (z : Z) : spec_float := binary_normalize prec emax z 0 false.

(** [x / y] *)
Definition div (x y : spec_float) : spec_float := SFdiv prec emax x y.

(** [std::ceil(x)], as the integer it is; an infinity or a NaN has none. *)
Definition ceil (x : spec_float) : option Z :=
  match x with
  | S754_zero _ => Some 0
  | S754_finite s m e =>
      let z := cond_Zopp s (Z.pos m) in
      Some (if 0 <=? e then z * 2 ^ e else - ((- z) / 2 ^ (- e)))
  | S754_infinity _ | S754_nan => None
  end.

(** A [double] of integer value converted to [size_t]: defined when the
    value is one a [size_t] has. *)
Definition to_size_t (z : Z) : option Z :=
  if (0 <=? z) && (z <? 2 ^ 64) then Some z else None.

(** [size_t sliceSize = std::ceil(capacity / static_cast<double>(_sliceNum));]
    for a [size_t] capacity and an [int] number of slices. *)
Definition sliceSize (capacity sliceNum : Z) : option Z :=
  ceil (div (of_Z capacity) (of_Z sliceNum)) ≫= to_size_t.

End Double.

(** ** HashLRU.hpp: [HashLRUCache] *)

Module HashLRU.
Section HashLRUCache.
Context {Key : Type} `{EqDecision Key} {Value : Type}.

(** [std::hash<Key>] *)
Variable Hash : Key -> Z.
(** [std::thread::hardware_concurrency()], an [unsigned int]. *)
Variable hardware_concurrency : Z.
(** The value whose bytes [memset] has all set to 0. *)
Variable Value_zero : Value.

Record HashLRUCache := mkCache {
  _capacity : Z;
  _sliceNum : Z;
  _LRUSliceCaches : list (LRU.LRUCache Key Value)
}.

Definition set_slices (c : HashLRUCache) (slices : list (LRU.LRUCache Key Value))
    : HashLRUCache :=
  {| _capacity := _capacity c; _sliceNum := _sliceNum c; _LRUSliceCaches := slices |}.

(** [sliceNum > 0 ? sliceNum : std::thread::hardware_concurrency()],
    stored into the [int] member. *)
Definition sliceNum_or_default (sliceNum : Z) : Z :=
  if 0 <? sliceNum then sliceNum else to_int hardware_concurrency.

(** [HashLRUCache(size_t capacity, int sliceNum)]: every slice is an
    [LRUCache(int)] built from the [size_t] slice size. *)
Definition new (capacity sliceNum : Z) : option HashLRUCache :=
  let n := sliceNum_or_default sliceNum in
  sliceSize ← Double.sliceSize capacity n;
  Some {| _capacity := capacity; _sliceNum := n;
          _LRUSliceCaches := replicate (Z.to_nat n) (LRU.new (to_int sliceSize)) |}.

(** [Hash(key) % _sliceNum]: the [int] is converted to [size_t]; a
    remainder by 0 is the result [None]. *)
Definition sliceIndex (c : HashLRUCache) (key : Key) : option nat :=
  let n := to_size_t (_sliceNum c) in
  if n =? 0 then None else Some (Z.to_nat (to_size_t (Hash key) mod n)).

(** [void put(Key, Value)]; a slice index past the end of the vector is
    the result [None]. *)
Definition put (c : HashLRUCache) (key : Key) (value : Value) : option HashLRUCache :=
  i ← sliceIndex c key;
  slice ← _LRUSliceCaches c !! i;
  Some (set_slices c (<[i := LRU.put slice key value]> (_LRUSliceCaches c))).

(** [bool get(Key, Value&)] *)
Definition get (c : HashLRUCache) (key : Key) : option (HashLRUCache * option Value) :=
  i ← sliceIndex c key;
  slice ← _LRUSliceCaches c !! i;
  let '(slice', r) := LRU.get slice key in
  Some (set_slices c (<[i := slice']> (_LRUSliceCaches c)), r).

(** [Value get(Key)] *)
Definition get_value (c : HashLRUCache) (key : Key) : option (HashLRUCache * Value) :=
  '(c', r) ← get c key; Some (c', default Value_zero r).

Inductive op :=
| Put (key : Key) (value : Value)
| Get (key : Key).

Definition op_key (o : op) : Key :=
  match o with Put key _ => key | Get key => key end.

Definition step (c : HashLRUCache) (o : op) : option HashLRUCache :=
  match o with
  | Put key value => put c key value
  | Get key => fst <$> get c key
  end.

Fixpoint run (c : HashLRUCache) (ops : list op) : option HashLRUCache :=
  match ops with
  | [] => Some c
  | o :: rest => c' ← step c o; run c' rest
  end.

(** The operation as the slice sees it. *)
Definition slice_op (o : op) : LRU.op Key Value :=
  match o with Put key value => LRU.Put key value | Get key => LRU.Get key end.

End HashLRUCache.

Arguments HashLRUCache : clear implicits.
Arguments op : clear implicits.
End HashLRU.

(** ** HashLFUCache.hpp: [HashLFUCache] *)

Module HashLFU.
Section HashLFUCache.
Context {Key : Type} `{Countable Key} {Value : Type}.

(** [std::hash<Key>] *)
Variable Hash : Key -> Z.
(** [std::thread::hardware_concurrency()], an [unsigned int]. *)
Variable hardware_concurrency : Z.
(** [Key()] *)
Variable Key_default : Key.
(** [Value value{}] *)
Variable Value_default : Value.

Record HashLFUCache := mkCache {
  _capacity : Z;
  _sliceNum : Z;
  _LFUSliceCaches : list (LFU.LFUCache Key Value)
}.

Definition set_slices (c : HashLFUCache) (slices : list (LFU.LFUCache Key Value))
    : HashLFUCache :=
  {| _capacity := _capacity c; _sliceNum := _sliceNum c; _LFUSliceCaches := slices |}.

Definition sliceNum_or_default (sliceNum : Z) : Z :=
  if 0 <? sliceNum then sliceNum else to_int hardware_concurrency.

(** [HashLFUCache(size_t capacity, int sliceNum, int maxAverageNum = 10)] *)
Definition new (capacity sliceNum maxAverageNum : Z) : option HashLFUCache :=
  let n := sliceNum_or_default sliceNum in
  sliceSize ← Double.sliceSize capacity n;
  Some {| _capacity := capacity; _sliceNum := n;
          _LFUSliceCaches :=
            replicate (Z.to_nat n) (LFU.new (to_int sliceSize) maxAverageNum) |}.

(** [Hash(key) % _sliceNum] *)
Definition sliceIndex (c : HashLFUCache) (key : Key) : option nat :=
  let n := to_size_t (_sliceNum c) in
  if n =? 0 then None else Some (Z.to_nat (to_size_t (Hash key) mod n)).

(** [void put(Key, Value)] *)
Definition put (c : HashLFUCache) (key : Key) (value : Value) : option HashLFUCache :=
  i ← sliceIndex c key;
  slice ← _LFUSliceCaches c !! i;
  slice' ← LFU.put Key_default slice key value;
  Some (set_slices c (<[i := slice']> (_LFUSliceCaches c))).

(** [bool get(Key, Value&)] *)
Definition get (c : HashLFUCache) (key : Key) : option (HashLFUCache * option Value) :=
  i ← sliceIndex c key;
  slice ← _LFUSliceCaches c !! i;
  '(slice', r) ← LFU.get slice key;
  Some (set_slices c (<[i := slice']> (_LFUSliceCaches c)), r).

(** [Value get(Key)] *)
Definition get_value (c : HashLFUCache) (key : Key) : option (HashLFUCache * Value) :=
  '(c', r) ← get c key; Some (c', default Value_default r).

(** [void purge()] *)
Definition purge (c : HashLFUCache) : HashLFUCache :=
  set_slices c (LFU.purge <$> _LFUSliceCaches c).

Inductive op :=
| Put (key : Key) (value : Value)
| Get (key : Key)
| Purge.

Definition step (c : HashLFUCache) (o : op) : option HashLFUCache :=
  match o with
  | Put key value => put c key value
  | Get key => fst <$> get c key
  | Purge => Some (purge c)
  end.

Fixpoint run (c : HashLFUCache) (ops : list op) : option HashLFUCache :=
  match ops with
  | [] => Some c
  | o :: rest => c' ← step c o; run c' rest
  end.

(** The operation as slice [i] sees it, if it does. *)
Definition slice_op (c : HashLFUCache) (i : nat) (o : op) : option (LFU.op Key Value) :=
  match o with
  | Put key value =>
      if bool_decide (sliceIndex c key = Some i) then Some (LFU.Put key value) else None
  | Get key => if bool_decide (sliceIndex c key = Some i) then Some (LFU.Get key) else None
  | Purge => Some LFU.Purge
  end.

End HashLFUCache.

Arguments HashLFUCache _ {_ _} _.
Arguments op : clear implicits.
End HashLFU.

(** * Invariants and predicates *)

Section LRU_invariants.
Context {Key : Type} `{EqDecision Key} {Value : Type}.
Implicit Types (c : LRU.LRUCache Key Value) (key : Key).

(** The index is an index: no two linked nodes carry the same key. *)
Definition LRU_wf c : Prop := NoDup (LRU.keys c).

Definition LRU_holds c key : Prop := is_Some (LRU.nodeMap_find c key).

End LRU_invariants.

Section LRUK_invariants.
Context {Key : Type} `{Countable Key} {Value : Type}.



End LRUK_invariants.

Section ARC_invariants.
Context {Key : Type} `{Countable Key} {Value : Type}.
Implicit Types (c : Arc.ArcCache Key Value).

(** Both capacities are non-negative and add up to [total]; the ghost
    capacities are [ghost]. *)
Definition ARC_caps (total ghost : Z) c : Prop :=
  0 <= Arc.lru_capacity (Arc._lruPart c)
  /\ 0 <= Arc.lfu_capacity (Arc._lfuPart c)
  /\ Arc.lru_capacity (Arc._lruPart c) + Arc.lfu_capacity (Arc._lfuPart c) = total
  /\ Arc.lru_ghostCapacity (Arc._lruPart c) = ghost
  /\ Arc.lfu_ghostCapacity (Arc._lfuPart c) = ghost.

Definition ARC_ghostCaps (ghost : Z) c : Prop :=
  Arc.lru_ghostCapacity (Arc._lruPart c) = ghost
  /\ Arc.lfu_ghostCapacity (Arc._lfuPart c) = ghost.

End ARC_invariants.

Section LFU_invariants.
Context {Key : Type} `{Countable Key} {Value : Type}.
Implicit Types (s : LFU.LFUCache Key Value) (key : Key) (n : LFU.Node Value).

(** The configuration: capacity and ageing threshold. *)
Definition LFU_same_config s s' : Prop :=
  LFU._capacity s' = LFU._capacity s /\ LFU._maxAverageNum s' = LFU._maxAverageNum s.

(** No list is ever dropped (outside [purge]). *)
Definition LFU_lists_grow s s' : Prop :=
  forall f, is_Some (LFU._freqToFreqList s !! f) -> is_Some (LFU._freqToFreqList s' !! f).

(** Every resident node has a list for its frequency. *)
Definition LFU_nodes_listed s : Prop :=
  forall k n, LFU._nodeMap s !! k = Some n -> is_Some (LFU._freqToFreqList s !! LFU.freq n).

(** No null pointer is met: the lists the operations index exist. *)
Definition LFU_listed s : Prop :=
  LFU_nodes_listed s
  /\ (LFU._nodeMap s <> ∅ -> is_Some (LFU._freqToFreqList s !! LFU._minFreq s))
  /\ (LFU._nodeMap s <> ∅ -> is_Some (LFU._freqToFreqList s !! 1)).

Definition LFU_agedNode (maxAverageNum : Z) n : LFU.Node Value :=
  LFU.mkNode (LFU.aged maxAverageNum (LFU.freq n)) (LFU.value n).

(** Every resident node is linked in the list of its frequency, every
    linked key is resident with the frequency of its list, and no list
    links a key twice. *)
Definition LFU_sync s : Prop :=
  (forall k n, LFU._nodeMap s !! k = Some n ->
     exists l, LFU._freqToFreqList s !! LFU.freq n = Some l /\ k ∈ l)
  /\ (forall f l k, LFU._freqToFreqList s !! f = Some l -> k ∈ l ->
       exists n, LFU._nodeMap s !! k = Some n /\ LFU.freq n = f)
  /\ (forall f l, LFU._freqToFreqList s !! f = Some l -> NoDup l).

(** A node after the ageing pass, as the specification words it. *)
Definition LFU_clampedNode (maxAverageNum : Z) n : LFU.Node Value :=
  LFU.mkNode (Z.max 1 (LFU.freq n - maxAverageNum ÷ 2)) (LFU.value n).

(** Every frequency lies between 1 and [bound]. *)
Definition LFU_freqs_within (bound : Z) s : Prop :=
  forall k n, LFU._nodeMap s !! k = Some n -> 1 <= LFU.freq n <= bound.

(** The invariant of the engine: index and lists agree, [_minFreq] is the
    least frequency with a non-empty list whenever a node is resident, and
    the frequencies lie between 1 and [bound]. *)
Definition LFU_inv (bound : Z) s : Prop :=
  LFU_sync s
  /\ (LFU._nodeMap s <> ∅ -> LFU.smallestNonEmpty s (LFU._minFreq s))
  /\ LFU_freqs_within bound s.

(** [put(key, _)] on [s] takes the eviction decision: the capacity is not
    0, the key is not resident, the cache is full. *)
Definition LFU_reaches_kickOut s key : Prop :=
  LFU._capacity s <> 0 /\ LFU._nodeMap s !! key = None /\ LFU.isFull s = true.

End LFU_invariants.

(** ** Further invariants *)

(** The set is the set of the queued pages, no page is queued twice and
    the queue is within the capacity. *)
Definition FIFO_inv (c : FIFO.FIFOCache) : Prop :=
  NoDup (FIFO.pageQueue c)
  /\ FIFO.pageSet c = list_to_set (FIFO.pageQueue c)
  /\ zlength (FIFO.pageQueue c) <= FIFO.capacity c.

(** The last [n] elements of a list. *)
Definition lastn {A} (n : nat) (l : list A) : list A := drop (length l - n) l.

(** The cache has a positive number of slices, as many as its vector holds. *)
Definition HashLRU_wf {Key Value} (c : HashLRU.HashLRUCache Key Value) : Prop :=
  0 < HashLRU._sliceNum c
  /\ int_range (HashLRU._sliceNum c)
  /\ length (HashLRU._LRUSliceCaches c) = Z.to_nat (HashLRU._sliceNum c).

(** The operations of a run that are routed to slice [i], as the slice
    sees them. *)
Definition HashLRU_routed {Key Value} (Hash : Key -> Z)
    (c : HashLRU.HashLRUCache Key Value) (i : nat)
    (ops : list (HashLRU.op Key Value)) : list (LRU.op Key Value) :=
  HashLRU.slice_op <$>
    filter (fun o => HashLRU.sliceIndex Hash c (HashLRU.op_key o) = Some i) ops.

(** The cache has a positive number of slices, as many as its vector
    holds, and no slice can meet a null pointer. *)
Definition HashLFU_wf {Key} `{Countable Key} {Value}
    (c : HashLFU.HashLFUCache Key Value) : Prop :=
  0 < HashLFU._sliceNum c
  /\ int_range (HashLFU._sliceNum c)
  /\ length (HashLFU._LFUSliceCaches c) = Z.to_nat (HashLFU._sliceNum c)
  /\ forall slice, slice ∈ HashLFU._LFUSliceCaches c ->
       LFU_listed slice /\ int_range (LFU._capacity slice).

(** The operations of a run that reach slice [i], as the slice sees them. *)
Definition HashLFU_routed {Key} `{Countable Key} {Value} (Hash : Key -> Z)
    (c : HashLFU.HashLFUCache Key Value) (i : nat)
    (ops : list (HashLFU.op Key Value)) : list (LFU.op Key Value) :=
  omap (HashLFU.slice_op Hash c i) ops.

(** The value of the latest [put] of [key] in a run that no [remove] of
    [key] has followed. *)
Definition LRU_last_put {Key} `{EqDecision Key} {Value} (key : Key)
    (ops : list (LRU.op Key Value)) : option Value :=
  fold_left (fun acc o =>
    match o with
    | LRU.Put k v => if decide (k = key) then Some v else acc
    | LRU.Get _ => acc
    | LRU.Remove k => if decide (k = key) then None else acc
    end) ops None.

(** The engine's invariant on the runs from a fresh cache: the index is an
    index, the list is within the capacity, and every resident value is the
    one last put for its key. *)
Definition LRU_inv {Key} `{EqDecision Key} {Value} (capacity : Z)
    (ops : list (LRU.op Key Value)) (c : LRU.LRUCache Key Value) : Prop :=
  LRU_wf c
  /\ LRU._capacity c = capacity
  /\ zlength (LRU._list c) <= Z.max 0 capacity
  /\ forall x n, LRU.nodeMap_find c x = Some n ->
       LRU_last_put x ops = Some (LRU._value n).

(** The value of the latest [put] of [key] in a run. *)
Definition LRUK_last_put {Key} `{EqDecision Key} {Value} (key : Key)
    (ops : list (LRUK.op Key Value)) : option Value :=
  fold_left (fun acc o =>
    match o with
    | LRUK.Put k v => if decide (k = key) then Some v else acc
    | LRUK.Get _ => acc
    end) ops None.

(** The invariant of the LRU-K engine on the runs from a fresh cache: the
    main cache is in good order and empty if its capacity is not positive;
    a resident key is not staged; resident and staged values are the ones
    last put for their keys. *)
Definition LRUK_inv {Key} `{Countable Key} {Value}
    (ops : list (LRUK.op Key Value)) (c : LRUK.LRUKCache Key Value) : Prop :=
  LRU_wf (LRUK.main c)
  /\ (LRU._capacity (LRUK.main c) <= 0 -> LRU._list (LRUK.main c) = [])
  /\ (forall x n, LRU.nodeMap_find (LRUK.main c) x = Some n ->
        LRUK._historyValueMap c !! x = None
        /\ LRUK_last_put x ops = Some (LRU._value n))
  /\ (forall x v, LRUK._historyValueMap c !! x = Some v ->
        LRUK_last_put x ops = Some v).

(** The value of the latest [put] of [key] in a run that no [purge] has
    followed. *)
Definition LFU_last_put {Key} `{EqDecision Key} {Value} (key : Key)
    (ops : list (LFU.op Key Value)) : option Value :=
  fold_left (fun acc o =>
    match o with
    | LFU.Put k v => if decide (k = key) then Some v else acc
    | LFU.Get _ => acc
    | LFU.Purge => None
    end) ops None.

(** The values the cache holds, by key. *)
Definition LFU_values {Key} `{Countable Key} {Value}
    (s : LFU.LFUCache Key Value) : gmap Key Value :=
  LFU.value <$> LFU._nodeMap s.

(** Every value the cache holds is the one last put for its key, and a
    cache of capacity 0 holds none. *)
Definition LFU_fresh_values {Key} `{Countable Key} {Value}
    (ops : list (LFU.op Key Value)) (s : LFU.LFUCache Key Value) : Prop :=
  (LFU._capacity s = 0 -> LFU._nodeMap s = ∅)
  /\ forall k v, LFU_values s !! k = Some v -> LFU_last_put k ops = Some v.

(** The value of the latest [put] of [key] in a run. *)
Definition ARC_last_put {Key} `{EqDecision Key} {Value} (key : Key)
    (ops : list (Arc.op Key Value)) : option Value :=
  fold_left (fun acc o =>
    match o with
    | Arc.Put k v => if decide (k = key) then Some v else acc
    | Arc.Get _ => acc
    end) ops None.

(** T1 in good order: no key has two nodes in the list, and the list is
    within the capacity. *)
Definition ARC_lru_wf {Key} `{Countable Key} {Value}
    (p : Arc.ArcLruPart Key Value) : Prop :=
  NoDup (Arc._key <$> Arc.lru_mainList p)
  /\ zlength (Arc.lru_mainList p) <= Arc.lru_capacity p.

(** T2's index and frequency lists in step: every resident node is listed
    under its access count; every listed key is resident with the count of
    its list; no list holds a key twice or is empty; and [_minFreq] names
    a list whenever a node is resident. *)
Definition ARC_lfu_sync {Key} `{Countable Key} {Value}
    (q : Arc.ArcLfuPart Key Value) : Prop :=
  (forall k n, Arc.lfu_mainCache q !! k = Some n ->
     exists l, Arc.lfu_freqMap q !! Arc._accessCount n = Some l /\ k ∈ l)
  /\ (forall f l k, Arc.lfu_freqMap q !! f = Some l -> k ∈ l ->
       exists n, Arc.lfu_mainCache q !! k = Some n /\ Arc._accessCount n = f)
  /\ (forall f l, Arc.lfu_freqMap q !! f = Some l -> NoDup l /\ l <> [])
  /\ (Arc.lfu_mainCache q <> ∅ -> is_Some (Arc.lfu_freqMap q !! Arc.lfu_minFreq q)).

(** T2 in good order: in step and within the capacity. *)
Definition ARC_lfu_wf {Key} `{Countable Key} {Value}
    (q : Arc.ArcLfuPart Key Value) : Prop :=
  ARC_lfu_sync q /\ Arc.lfu_size q <= Arc.lfu_capacity q.

(** Every resident value, in T1 and in T2, satisfies [P] with its key. *)
Definition ARC_holds {Key} `{Countable Key} {Value} (P : Key -> Value -> Prop)
    (c : Arc.ArcCache Key Value) : Prop :=
  (forall n, n ∈ Arc.lru_mainList (Arc._lruPart c) -> P (Arc._key n) (Arc._value n))
  /\ (forall k n, Arc.lfu_mainCache (Arc._lfuPart c) !! k = Some n -> P k (Arc._value n)).

(** The invariant of the composite on the runs from a fresh cache. *)
Definition ARC_inv {Key} `{Countable Key} {Value} (total ghost : Z)
    (ops : list (Arc.op Key Value)) (c : Arc.ArcCache Key Value) : Prop :=
  ARC_caps total ghost c
  /\ ARC_lru_wf (Arc._lruPart c)
  /\ ARC_lfu_wf (Arc._lfuPart c)
  /\ ARC_holds (fun k v => ARC_last_put k ops = Some v) c.

Create HintDb lfu discriminated.

(** Closes the conjuncts that hold by reflexivity or by assumption. *)
Ltac lfu_trivial := repeat split; eauto with lfu; done.

(** * Properties *)

(** ** Machine integers *)

Lemma to_size_t_small z : 0 <= z < 2 ^ 64 -> to_size_t z = z.
Proof. intros Hz. unfold to_size_t. apply Z.mod_small. exact Hz. Qed.



Lemma to_size_t_int_nonzero z : int_range z -> z <> 0 -> to_size_t z <> 0.
Proof.
  unfold int_range, to_size_t. intros Hz Hne Hmod.
  apply Z.mod_divide in Hmod; [|lia].
  destruct Hmod as [q Hq]. lia.
Qed.

(** ** The LRU engine *)

Section LRU_properties.
Context {Key : Type} `{EqDecision Key} {Value : Type}.
Implicit Types (c : LRU.LRUCache Key Value) (l : list (LRU.LRUNode Key Value)).
Implicit Types (n : LRU.LRUNode Key Value) (key : Key).

Lemma LRU_find_Some l key n :
  List.find (LRU.has_key key) l = Some n -> LRU._key n = key /\ n ∈ l.
Proof.
  intros Hf. apply find_some in Hf as [Hin Hk].
  split; [by apply bool_decide_eq_true in Hk | by apply list_elem_of_In].
Qed.

Lemma LRU_has_key_true key n : LRU.has_key key n = true <-> LRU._key n = key.
Proof. unfold LRU.has_key. apply bool_decide_eq_true. Qed.

Lemma LRU_has_key_false key n : LRU.has_key key n = false <-> LRU._key n <> key.
Proof. unfold LRU.has_key. apply bool_decide_eq_false. Qed.

Lemma LRU_find_None l key :
  List.find (LRU.has_key key) l = None <-> key ∉ map LRU._key l.
Proof.
  induction l as [|n l IH]; simpl.
  - split; [intros _; apply not_elem_of_nil | done].
  - destruct (LRU.has_key key n) eqn:Hk.
    + apply LRU_has_key_true in Hk.
      split; [done | intros Hn; exfalso; apply Hn; rewrite Hk; left].
    + apply LRU_has_key_false in Hk. rewrite IH, not_elem_of_cons.
      split; [intros Hn; split; [congruence | done] | by intros [_ Hn]].
Qed.

Lemma LRU_find_app_None l key n :
  List.find (LRU.has_key key) l = None ->
  List.find (LRU.has_key key) (l ++ [n]) = List.find (LRU.has_key key) [n].
Proof.
  induction l as [|m l IH]; simpl; [done|].
  destruct (LRU.has_key key m); [done | exact IH].
Qed.

(** Unlinking the node of a key drops exactly the nodes of that key. *)
Lemma LRU_removeNode_filter l key :
  NoDup (map LRU._key l) ->
  LRU.removeNode key l = List.filter (fun n => negb (LRU.has_key key n)) l.
Proof.
  induction l as [|n l IH]; simpl; [done|].
  intros Hnd. apply NoDup_cons in Hnd as [Hn Hnd].
  destruct (LRU.has_key key n) eqn:Hk; simpl.
  - apply LRU_has_key_true in Hk.
    symmetry. apply forallb_filter_id, forallb_forall.
    intros m Hm. apply negb_true_iff, LRU_has_key_false. intros Hm'.
    apply Hn. rewrite Hk, <- Hm'.
    apply list_elem_of_In, in_map, Hm.
  - by rewrite IH.
Qed.

Lemma LRU_removeNode_absent l key :
  List.find (LRU.has_key key) l = None -> LRU.removeNode key l = l.
Proof.
  induction l as [|n l IH]; simpl; [done|].
  destruct (LRU.has_key key n); [done|]. intros Hf. by rewrite IH.
Qed.

Lemma LRU_keys_removeNode_sub l key :
  sublist (map LRU._key (LRU.removeNode key l)) (map LRU._key l).
Proof.
  induction l as [|n l IH]; simpl; [done|].
  destruct (LRU.has_key key n).
  - by apply sublist_cons.
  - by apply sublist_skip.
Qed.

Lemma LRU_removeNode_NoDup l key :
  NoDup (map LRU._key l) -> NoDup (map LRU._key (LRU.removeNode key l)).
Proof. intros Hnd. exact (sublist_NoDup _ _ Hnd (LRU_keys_removeNode_sub l key)). Qed.

Lemma LRU_removeNode_gone l key :
  NoDup (map LRU._key l) -> List.find (LRU.has_key key) (LRU.removeNode key l) = None.
Proof.
  intros Hnd. rewrite LRU_removeNode_filter by done.
  apply LRU_find_None. intros Hin.
  apply list_elem_of_In, in_map_iff in Hin as (n & Hk & Hin).
  apply filter_In in Hin as [_ Hneg].
  apply negb_true_iff, LRU_has_key_false in Hneg. done.
Qed.

Lemma LRU_removeNode_find_ne l key key' :
  key' <> key ->
  List.find (LRU.has_key key') (LRU.removeNode key l) = List.find (LRU.has_key key') l.
Proof.
  intros Hne. induction l as [|n l IH]; simpl; [done|].
  destruct (LRU.has_key key n) eqn:Hk; simpl.
  - apply LRU_has_key_true in Hk.
    destruct (LRU.has_key key' n) eqn:Hk'; [|done].
    apply LRU_has_key_true in Hk'. congruence.
  - destruct (LRU.has_key key' n); [done | exact IH].
Qed.

Lemma LRU_moveToMostRecent_NoDup l n :
  NoDup (map LRU._key l) -> NoDup (map LRU._key (LRU.moveToMostRecent n l)).
Proof.
  intros Hnd. unfold LRU.moveToMostRecent, LRU.insertNode.
  rewrite map_app. apply NoDup_app. split; [by apply LRU_removeNode_NoDup|].
  split; [|apply NoDup_singleton].
  intros k Hk Hk'. apply list_elem_of_singleton in Hk'. subst k.
  pose proof (LRU_removeNode_gone l (LRU._key n) Hnd) as Hg.
  by apply LRU_find_None in Hg.
Qed.

Lemma LRU_evict_NoDup l :
  NoDup (map LRU._key l) -> NoDup (map LRU._key (LRU.evictLeastRecent l)).
Proof. destruct l as [|n l]; simpl; [done|]. intros Hnd. by apply NoDup_cons in Hnd as [_ ?]. Qed.

Lemma LRU_evict_find_None l key :
  NoDup (map LRU._key l) ->
  List.find (LRU.has_key key) l = None ->
  List.find (LRU.has_key key) (LRU.evictLeastRecent l) = None.
Proof.
  destruct l as [|n l]; simpl; [done|].
  destruct (LRU.has_key key n); [done | auto].
Qed.

Lemma LRU_put_wf c key value : LRU_wf c -> LRU_wf (LRU.put c key value).
Proof.
  unfold LRU_wf, LRU.keys, LRU.put. intros Hwf.
  destruct (LRU._capacity c <=? 0); [done|].
  unfold LRU.nodeMap_find. destruct (List.find _ _) as [n|] eqn:Hf; simpl.
  - by apply LRU_moveToMostRecent_NoDup.
  - unfold LRU.insertNode. rewrite map_app. apply NoDup_app.
    assert (NoDup (map LRU._key (LRU.evictLeastRecent (LRU._list c)))) as He
      by by apply LRU_evict_NoDup.
    pose proof (LRU_evict_find_None _ key Hwf Hf) as Hn.
    apply LRU_find_None in Hn. apply LRU_find_None in Hf.
    destruct (_ <=? _); simpl; (split; [done|]);
      (split; [|apply NoDup_singleton]);
      intros k Hk Hk'; apply list_elem_of_singleton in Hk'; by subst k.
Qed.

Lemma LRU_get_wf c key : LRU_wf c -> LRU_wf (LRU.get c key).1.
Proof.
  unfold LRU_wf, LRU.keys, LRU.get, LRU.nodeMap_find. intros Hwf.
  destruct (List.find _ _) as [n|]; simpl; [|done].
  by apply LRU_moveToMostRecent_NoDup.
Qed.

Lemma LRU_remove_wf c key : LRU_wf c -> LRU_wf (LRU.remove c key).
Proof.
  unfold LRU_wf, LRU.keys, LRU.remove, LRU.nodeMap_find. intros Hwf.
  destruct (List.find _ _) as [n|]; simpl; [|done].
  by apply LRU_removeNode_NoDup.
Qed.

Lemma LRU_step_wf c o : LRU_wf c -> LRU_wf (LRU.step c o).
Proof.
  destruct o; simpl; auto using LRU_put_wf, LRU_get_wf, LRU_remove_wf.
Qed.

Lemma LRU_run_wf c ops : LRU_wf c -> LRU_wf (LRU.run c ops).
Proof.
  revert c. induction ops as [|o ops IH]; intros c Hwf; simpl; [done|].
  apply IH. by apply LRU_step_wf.
Qed.

Lemma LRU_new_wf capacity : LRU_wf (LRU.new (Key:=Key) (Value:=Value) capacity).
Proof. apply NoDup_nil_2. Qed.

Lemma LRU_reachable_wf capacity (ops : list (LRU.op Key Value)) :
  LRU_wf (LRU.run (LRU.new capacity) ops).
Proof. apply LRU_run_wf, LRU_new_wf. Qed.

(** What [get] does on a hit: the node is spliced to the fresh end as it
    is (its access counter included), its value is written out. *)
Lemma LRU_get_hit c key n :
  LRU_wf c -> LRU.nodeMap_find c key = Some n ->
  LRU.get c key =
    ({| LRU._capacity := LRU._capacity c;
        LRU._list := List.filter (fun m => negb (LRU.has_key key m)) (LRU._list c) ++ [n] |},
     Some (LRU._value n)).
Proof.
  intros Hwf Hf. unfold LRU.get. rewrite Hf.
  unfold LRU.moveToMostRecent, LRU.insertNode.
  apply LRU_find_Some in Hf as [Hk _]. rewrite Hk.
  by rewrite LRU_removeNode_filter.
Qed.

Lemma LRU_get_miss c key :
  LRU.nodeMap_find c key = None -> LRU.get c key = (c, None).
Proof. intros Hf. unfold LRU.get. by rewrite Hf. Qed.

(** [put] then [get] on a cache of positive capacity. *)
Lemma LRU_put_get c key value :
  LRU_wf c -> 0 < LRU._capacity c ->
  (LRU.get (LRU.put c key value) key).2 = Some value.
Proof.
  intros Hwf Hcap. unfold LRU.put.
  destruct (Z.leb_spec (LRU._capacity c) 0) as [?|_]; [lia|].
  assert (forall l, List.find (LRU.has_key key) l = None ->
            (LRU.get {| LRU._capacity := LRU._capacity c;
                        LRU._list := l ++ [LRU.mkNode key value 1] |} key).2
            = Some value) as Hnew.
  { intros l Hl. unfold LRU.get, LRU.nodeMap_find. simpl.
    rewrite LRU_find_app_None by done. simpl.
    unfold LRU.has_key. simpl. by rewrite bool_decide_eq_true_2. }
  destruct (LRU.nodeMap_find c key) as [n|] eqn:Hf.
  - unfold LRU.updateExistringNode, LRU.get, LRU.nodeMap_find. simpl.
    unfold LRU.moveToMostRecent, LRU.insertNode. simpl.
    apply LRU_find_Some in Hf as [Hk _].
    rewrite LRU_find_app_None by (rewrite Hk; by apply LRU_removeNode_gone).
    simpl. unfold LRU.has_key. simpl. by rewrite bool_decide_eq_true_2.
  - unfold LRU.addNewNode, LRU.insertNode.
    destruct (_ <=? _); apply Hnew; [by apply LRU_evict_find_None | done].
Qed.


(** C10: [remove(k)] from a state reached by any run of public operations:
    a following [get(k)] returns false; every other key is found as before,
    with the same node; the list is the list before without the node of
    [k], so the other nodes keep their relative recency order; the capacity
    is kept; and if [k] was absent the whole state is unchanged. *)
Theorem C10_lru_remove_frame (capacity : Z) (ops : list (LRU.op Key Value)) key :
  let c := LRU.run (LRU.new capacity) ops in
  (LRU.get (LRU.remove c key) key).2 = None
  /\ (forall key', key' <> key ->
        LRU.nodeMap_find (LRU.remove c key) key' = LRU.nodeMap_find c key')
  /\ LRU._list (LRU.remove c key)
     = List.filter (fun n => negb (LRU.has_key key n)) (LRU._list c)
  /\ LRU._capacity (LRU.remove c key) = LRU._capacity c
  /\ (LRU.nodeMap_find c key = None -> LRU.remove c key = c).
Proof.
  intros c. pose proof (LRU_reachable_wf capacity ops) as Hwf. fold c in Hwf.
  unfold LRU_wf, LRU.keys in Hwf.
  unfold LRU.remove. destruct (LRU.nodeMap_find c key) as [n|] eqn:Hf.
  - split; [|split; [|split; [|split]]].
    + rewrite LRU_get_miss; [done|]. by apply LRU_removeNode_gone.
    + intros key' Hne. by apply LRU_removeNode_find_ne.
    + simpl. by apply LRU_removeNode_filter.
    + done.
    + done.
  - split; [|split; [|split; [|split]]].
    + by rewrite LRU_get_miss.
    + done.
    + rewrite <- (LRU_removeNode_absent _ key Hf) at 1.
      by apply LRU_removeNode_filter.
    + done.
    + done.
Qed.

End LRU_properties.

(** Which keys a cache holds after an operation. *)
Section LRU_membership.
Context {Key : Type} `{EqDecision Key} {Value : Type}.
Implicit Types (c : LRU.LRUCache Key Value) (l : list (LRU.LRUNode Key Value)).
Implicit Types (n : LRU.LRUNode Key Value) (key : Key).

Lemma LRU_holds_keys c key : LRU_holds c key <-> key ∈ LRU.keys c.
Proof.
  unfold LRU_holds, LRU.nodeMap_find, LRU.keys.
  destruct (List.find _ _) as [n|] eqn:Hf.
  - split; [intros _ | by eauto].
    apply LRU_find_Some in Hf as [<- Hin].
    apply list_elem_of_In, in_map. by apply list_elem_of_In.
  - apply LRU_find_None in Hf. split; [by intros [? ?] | done].
Qed.





(** Which node a cache holds for a key after an operation. *)

Lemma LRU_find_app l l' key :
  List.find (LRU.has_key key) (l ++ l')
  = match List.find (LRU.has_key key) l with
    | Some n => Some n
    | None => List.find (LRU.has_key key) l'
    end.
Proof.
  induction l as [|m l IH]; simpl; [done|].
  by destruct (LRU.has_key key m).
Qed.

Lemma LRU_evict_find l x n :
  NoDup (map LRU._key l) ->
  List.find (LRU.has_key x) (LRU.evictLeastRecent l) = Some n ->
  List.find (LRU.has_key x) l = Some n.
Proof.
  destruct l as [|m l]; simpl; [done|].
  intros [Hm _]%NoDup_cons Hf.
  destruct (LRU.has_key x m) eqn:Hk; [|done].
  exfalso. apply Hm. apply LRU_has_key_true in Hk. rewrite Hk.
  apply LRU_find_Some in Hf as [<- Hin].
  apply list_elem_of_In, in_map. by apply list_elem_of_In.
Qed.

Lemma LRU_get_find c key x n :
  LRU_wf c -> LRU.nodeMap_find (LRU.get c key).1 x = Some n ->
  LRU.nodeMap_find c x = Some n.
Proof.
  unfold LRU_wf, LRU.keys, LRU.get, LRU.nodeMap_find. intros Hwf.
  destruct (List.find (LRU.has_key key) (LRU._list c)) as [m|] eqn:Hm; simpl; [|done].
  unfold LRU.moveToMostRecent, LRU.insertNode. rewrite LRU_find_app.
  pose proof Hm as [Hkm _]%LRU_find_Some. rewrite Hkm.
  destruct (decide (x = key)) as [->|Hne].
  - rewrite LRU_removeNode_gone by done. simpl.
    rewrite (proj2 (LRU_has_key_true key m) Hkm). by intros [= <-].
  - rewrite LRU_removeNode_find_ne by done.
    destruct (List.find (LRU.has_key x) (LRU._list c)) as [n'|]; [done|].
    simpl. rewrite (proj2 (LRU_has_key_false x m)); [done | congruence].
Qed.

Lemma LRU_put_find c key value x n :
  LRU_wf c -> LRU.nodeMap_find (LRU.put c key value) x = Some n ->
  LRU.nodeMap_find c x = Some n \/ (x = key /\ LRU._value n = value).
Proof.
  unfold LRU_wf, LRU.keys, LRU.put, LRU.nodeMap_find. intros Hwf.
  destruct (_ <=? 0); [by left|].
  destruct (List.find (LRU.has_key key) (LRU._list c)) as [m|] eqn:Hm; simpl.
  - unfold LRU.moveToMostRecent, LRU.insertNode. simpl. rewrite LRU_find_app.
    pose proof Hm as [Hkm _]%LRU_find_Some.
    destruct (decide (x = key)) as [->|Hne].
    + rewrite Hkm, LRU_removeNode_gone by done. simpl.
      unfold LRU.has_key at 1. simpl. rewrite bool_decide_eq_true_2 by done.
      intros [= <-]. by right.
    + rewrite Hkm, LRU_removeNode_find_ne by done.
      destruct (List.find (LRU.has_key x) (LRU._list c)) as [n'|]; [by left|].
      simpl. unfold LRU.has_key at 1. simpl.
      rewrite bool_decide_eq_false_2 by congruence. done.
  - unfold LRU.insertNode. rewrite LRU_find_app.
    set (l := if _ <=? _ then _ else _).
    assert (forall n', List.find (LRU.has_key x) l = Some n' ->
                       List.find (LRU.has_key x) (LRU._list c) = Some n') as Hl.
    { unfold l. destruct (_ <=? _); [|done]. intros n'. by apply LRU_evict_find. }
    destruct (List.find (LRU.has_key x) l) as [n'|].
    + intros [= <-]. left. by apply Hl.
    + simpl. unfold LRU.has_key at 1. simpl. case_bool_decide as Hk; [|done].
      intros [= <-]. by right.
Qed.

Lemma LRU_remove_find c key x n :
  LRU_wf c -> LRU.nodeMap_find (LRU.remove c key) x = Some n ->
  LRU.nodeMap_find c x = Some n.
Proof.
  unfold LRU_wf, LRU.keys, LRU.remove, LRU.nodeMap_find. intros Hwf.
  destruct (List.find (LRU.has_key key) (LRU._list c)) as [m|] eqn:Hm; simpl; [|done].
  destruct (decide (x = key)) as [->|Hne].
  - by rewrite LRU_removeNode_gone.
  - by rewrite LRU_removeNode_find_ne.
Qed.

End LRU_membership.

(** ** The LRU-K admission filter *)

Section LRUK_properties.
Context {Key : Type} `{Countable Key} {Value : Type}.
Variable Value_default : Value.
Variable count_default : Z.
Implicit Types (c : LRUK.LRUKCache Key Value) (key x : Key).

Local Abbreviation get := (LRUK.get Value_default count_default).
Local Abbreviation put := (LRUK.put count_default).
Local Abbreviation step := (LRUK.step Value_default count_default).
Local Abbreviation run := (LRUK.run Value_default count_default).
Local Abbreviation historyCount := (LRUK.historyCount count_default).
Local Abbreviation recordAccess := (LRUK.recordAccess count_default).





Lemma LRUK_run_snoc c ops o : run c (ops ++ [o]) = step (run c ops) o.
Proof. unfold LRUK.run. by rewrite fold_left_app. Qed.


(** *** The count the history tracks is a count of accesses *)










Lemma LRU_get_capacity (c : LRU.LRUCache Key Value) key :
  LRU._capacity (LRU.get c key).1 = LRU._capacity c.
Proof. unfold LRU.get. by destruct (LRU.nodeMap_find c key). Qed.

(** What the history holds for a key after an access was recorded. *)
Lemma LRUK_recordAccess_count (h : LRU.LRUCache Key Z) key :
  LRU_wf h -> 0 < LRU._capacity h ->
  (LRU.get_value count_default (recordAccess h key) key).2 = historyCount h key.
Proof.
  intros Hwf Hcap. unfold LRUK.recordAccess.
  set (h1 := (LRU.get_value count_default h key).1).
  assert (h1 = (LRU.get h key).1) as Hh1.
  { unfold h1, LRU.get_value. by destruct (LRU.get h key). }
  assert ((LRU.get (LRU.put h1 key (historyCount h key)) key).2
          = Some (historyCount h key)) as Hg.
  { apply LRU_put_get; rewrite Hh1; [by apply LRU_get_wf|].
    unfold LRU.get. by destruct (LRU.nodeMap_find h key). }
  unfold LRU.get_value. destruct (LRU.get (LRU.put h1 _ _) key) as [h2 r].
  simpl in *. by rewrite Hg.
Qed.

(** C8 (as the code has it): [get(k)] on a key resident in the main cache
    returns its value, touches it in the main cache and leaves the staging
    map alone, but it does record the access in the history: the history
    after is the history before with [k]'s count read, incremented and put
    back, so that a history of positive capacity then holds the
    incremented count for [k]. *)
Theorem C8_lruk_get_resident_records_access c key n :
  LRU.nodeMap_find (LRUK.main c) key = Some n ->
  (get c key).2 = LRU._value n
  /\ LRUK.main (get c key).1 = (LRU.get (LRUK.main c) key).1
  /\ LRUK._historyValueMap (get c key).1 = LRUK._historyValueMap c
  /\ LRUK._historyList (get c key).1 = recordAccess (LRUK._historyList c) key
  /\ (LRU_wf (LRUK._historyList c) -> 0 < LRU._capacity (LRUK._historyList c) ->
      (LRU.get_value count_default (LRUK._historyList (get c key).1) key).2
      = historyCount (LRUK._historyList c) key).
Proof.
  intros Hf.
  assert (get c key =
    ({| LRUK.main := (LRU.get (LRUK.main c) key).1; LRUK._k := LRUK._k c;
        LRUK._historyList := recordAccess (LRUK._historyList c) key;
        LRUK._historyValueMap := LRUK._historyValueMap c |}, LRU._value n)) as ->.
  { unfold LRUK.get, LRU.get. by rewrite Hf. }
  simpl. repeat (split; [done|]). apply LRUK_recordAccess_count.
Qed.



End LRUK_properties.

(** *** Concrete LRU and LRU-K runs *)

(** Scenario 1 of the specification: capacity 2,
    [put(1,"a"); put(2,"b"); get(1); put(3,"c")] evicts key 2. *)
Example LRU_scenario_1 :
  let c := LRU.run (LRU.new 2)
             [LRU.Put 1 "a"; LRU.Put 2 "b"; LRU.Get 1; LRU.Put 3 "c"]%string in
  (LRU.get c 1).2 = Some "a"%string
  /\ (LRU.get c 2).2 = None
  /\ (LRU.get c 3).2 = Some "c"%string.
Proof. by vm_compute. Qed.

(** Capacity 1: after [put(a); put(b)], [get(a)] misses and [get(b)] hits. *)
Example LRU_capacity_1 :
  let c := LRU.run (LRU.new 1) [LRU.Put 1 "a"; LRU.Put 2 "b"]%string in
  (LRU.get c 1).2 = None /\ (LRU.get c 2).2 = Some "b"%string.
Proof. by vm_compute. Qed.

(** Scenario 4 of the specification: main capacity 2, history capacity 4,
    K = 3.  Key 1 is promoted on its third [put]; keys 2 and 3 stay in the
    history and the staging map. *)
Example LRUK_scenario_4 :
  let c := LRUK.run ""%string 0 (LRUK.new 2 4 3)
             [LRUK.Put 1 "a"; LRUK.Put 2 "b"; LRUK.Put 3 "c";
              LRUK.Put 1 "a"; LRUK.Put 1 "a"]%string in
  LRU.keys (LRUK.main c) = [1]
  /\ LRU.keys (LRUK._historyList c) = [2; 3]
  /\ (LRUK.get ""%string 0 c 1).2 = "a"%string
  /\ (LRUK.get ""%string 0 c 2).2 = ""%string.
Proof. by vm_compute. Qed.

(** C3: capacity 2, [put(1,"a")] then [get(1)]: a hit that returns "a" and
    leaves the node at the fresh end, with the access counter still 1 (the
    value the constructor gave it): [get] never counts the access. *)
Example C3_lru_get_keeps_access_count :
  let c := LRU.put (LRU.new 2) 1 "a"%string in
  LRU._list c = [LRU.mkNode 1 "a"%string 1]
  /\ LRU.get c 1 =
     ({| LRU._capacity := 2; LRU._list := [LRU.mkNode 1 "a"%string 1] |},
      Some "a"%string).
Proof. vm_compute. done. Qed.


(** C8 at a concrete state: K = 2, key 1 resident after two [put]s. *)
Lemma C8_lruk_get_resident_witness :
  let c := LRUK.put 0 (LRUK.put 0 (LRUK.new 2 4 2) 1 "a"%string) 1 "a"%string in
  (LRUK.get ""%string 0 c 1).2 = "a"%string
  /\ LRUK.main (LRUK.get ""%string 0 c 1).1 = (LRU.get (LRUK.main c) 1).1
  /\ LRUK._historyValueMap (LRUK.get ""%string 0 c 1).1 = LRUK._historyValueMap c
  /\ LRUK._historyList (LRUK.get ""%string 0 c 1).1
     = LRUK.recordAccess 0 (LRUK._historyList c) 1
  /\ (LRU_wf (LRUK._historyList c) -> 0 < LRU._capacity (LRUK._historyList c) ->
      (LRU.get_value 0 (LRUK._historyList (LRUK.get ""%string 0 c 1).1) 1).2
      = LRUK.historyCount 0 (LRUK._historyList c) 1).
Proof.
  apply (C8_lruk_get_resident_records_access ""%string 0 _ 1 (LRU.mkNode 1 "a"%string 1)).
  vm_compute. done.
Defined.

(** C8 as stated fails there: key 1 is resident and the history, which holds
    nothing for it before the [get], holds the count 1 for it after. *)
Lemma C8_lruk_get_changes_history :
  let c := LRUK.put 0 (LRUK.put 0 (LRUK.new 2 4 2) 1 "a"%string) 1 "a"%string in
  LRU.nodeMap_find (LRUK.main c) 1 = Some (LRU.mkNode 1 "a"%string 1)
  /\ LRU.nodeMap_find (LRUK._historyList c) 1 = None
  /\ LRU.nodeMap_find (LRUK._historyList (LRUK.get ""%string 0 c 1).1) 1
     = Some (LRU.mkNode 1 1 1)
  /\ LRUK._historyList (LRUK.get ""%string 0 c 1).1 <> LRUK._historyList c.
Proof. vm_compute. repeat (split; [done|]). intros Heq. discriminate Heq. Qed.

(** ** The ARC composite *)

Section ARC_properties.
Context {Key : Type} `{Countable Key} {Value : Type}.
Implicit Types (c : Arc.ArcCache Key Value) (key : Key) (value : Value).
Implicit Types (p : Arc.ArcLruPart Key Value) (q : Arc.ArcLfuPart Key Value).
Implicit Types (g : Arc.Ghost Key).

(** *** Capacities and ghost capacities through the operations of a part *)

Lemma lru_evict_caps p :
  Arc.lru_capacity (Arc.lru_evictLeastRecent p) = Arc.lru_capacity p
  /\ Arc.lru_ghostCapacity (Arc.lru_evictLeastRecent p) = Arc.lru_ghostCapacity p.
Proof. unfold Arc.lru_evictLeastRecent. by destruct (last _). Qed.

Lemma lru_put_caps p key value :
  Arc.lru_capacity (Arc.lru_put p key value).1 = Arc.lru_capacity p
  /\ Arc.lru_ghostCapacity (Arc.lru_put p key value).1 = Arc.lru_ghostCapacity p.
Proof.
  unfold Arc.lru_put. destruct (_ =? 0); [done|].
  destruct (Arc.lru_find p key); simpl; [done|].
  destruct (_ <=? _); [apply lru_evict_caps | done].
Qed.

Lemma lru_get_caps p key :
  Arc.lru_capacity (Arc.lru_get p key).1 = Arc.lru_capacity p
  /\ Arc.lru_ghostCapacity (Arc.lru_get p key).1 = Arc.lru_ghostCapacity p.
Proof. unfold Arc.lru_get. by destruct (Arc.lru_find p key). Qed.

Lemma lru_checkGhost_caps p key :
  Arc.lru_capacity (Arc.lru_checkGhost p key).1 = Arc.lru_capacity p
  /\ Arc.lru_ghostCapacity (Arc.lru_checkGhost p key).1 = Arc.lru_ghostCapacity p.
Proof. unfold Arc.lru_checkGhost. by destruct (Arc.ghost_check _ _). Qed.

Lemma lfu_evict_caps q :
  Arc.lfu_capacity (Arc.lfu_evictLeastFrequent q) = Arc.lfu_capacity q
  /\ Arc.lfu_ghostCapacity (Arc.lfu_evictLeastFrequent q) = Arc.lfu_ghostCapacity q.
Proof.
  unfold Arc.lfu_evictLeastFrequent. destruct (decide _); [done|].
  by destruct (default [] _).
Qed.

Lemma lfu_put_caps q key value :
  Arc.lfu_capacity (Arc.lfu_put q key value).1 = Arc.lfu_capacity q
  /\ Arc.lfu_ghostCapacity (Arc.lfu_put q key value).1 = Arc.lfu_ghostCapacity q.
Proof.
  unfold Arc.lfu_put. destruct (_ =? 0); [done|].
  destruct (Arc.lfu_mainCache q !! key); simpl; [done|].
  destruct (_ <=? _); [apply lfu_evict_caps | done].
Qed.

Lemma lfu_get_caps q key :
  Arc.lfu_capacity (Arc.lfu_get q key).1 = Arc.lfu_capacity q
  /\ Arc.lfu_ghostCapacity (Arc.lfu_get q key).1 = Arc.lfu_ghostCapacity q.
Proof. unfold Arc.lfu_get. by destruct (Arc.lfu_mainCache q !! key). Qed.

Lemma lfu_checkGhost_caps q key :
  Arc.lfu_capacity (Arc.lfu_checkGhost q key).1 = Arc.lfu_capacity q
  /\ Arc.lfu_ghostCapacity (Arc.lfu_checkGhost q key).1 = Arc.lfu_ghostCapacity q.
Proof. unfold Arc.lfu_checkGhost. by destruct (Arc.ghost_check _ _). Qed.

(** [decreaseCapacity]: refused at 0, one less otherwise. *)
Lemma lru_decreaseCapacity_spec p :
  0 <= Arc.lru_capacity p ->
  Arc.lru_ghostCapacity (Arc.lru_decreaseCapacity p).1 = Arc.lru_ghostCapacity p
  /\ ((Arc.lru_capacity p = 0 /\ (Arc.lru_decreaseCapacity p).2 = false
       /\ Arc.lru_capacity (Arc.lru_decreaseCapacity p).1 = 0)
      \/ (0 < Arc.lru_capacity p /\ (Arc.lru_decreaseCapacity p).2 = true
          /\ Arc.lru_capacity (Arc.lru_decreaseCapacity p).1 = Arc.lru_capacity p - 1)).
Proof.
  intros Hc. unfold Arc.lru_decreaseCapacity.
  destruct (Z.leb_spec (Arc.lru_capacity p) 0); simpl.
  - split; [done|]. left. split; [lia|done].
  - destruct (lru_evict_caps p) as [Hcap Hg].
    destruct (_ =? _); simpl; (split; [done|]); right; rewrite ?Hcap; done.
Qed.

Lemma lfu_decreaseCapacity_spec q :
  0 <= Arc.lfu_capacity q ->
  Arc.lfu_ghostCapacity (Arc.lfu_decreaseCapacity q).1 = Arc.lfu_ghostCapacity q
  /\ ((Arc.lfu_capacity q = 0 /\ (Arc.lfu_decreaseCapacity q).2 = false
       /\ Arc.lfu_capacity (Arc.lfu_decreaseCapacity q).1 = 0)
      \/ (0 < Arc.lfu_capacity q /\ (Arc.lfu_decreaseCapacity q).2 = true
          /\ Arc.lfu_capacity (Arc.lfu_decreaseCapacity q).1 = Arc.lfu_capacity q - 1)).
Proof.
  intros Hc. unfold Arc.lfu_decreaseCapacity.
  destruct (Z.leb_spec (Arc.lfu_capacity q) 0); simpl.
  - split; [done|]. left. split; [lia|done].
  - destruct (lfu_evict_caps q) as [Hcap Hg].
    destruct (_ =? _); simpl; (split; [done|]); right; rewrite ?Hcap; done.
Qed.

(** *** The capacity invariant *)

Lemma ARC_checkGhostCaches_caps total ghost c key :
  total < 2 ^ 64 -> ARC_caps total ghost c ->
  ARC_caps total ghost (Arc.checkGhostCaches c key).1.
Proof.
  intros Htot (Hc1 & Hc2 & Hsum & Hg1 & Hg2). unfold Arc.checkGhostCaches.
  pose proof (lru_checkGhost_caps (Arc._lruPart c) key) as [Hl1 Hl2].
  destruct (Arc.lru_checkGhost (Arc._lruPart c) key) as [lru1 hit1]. simpl in *.
  destruct hit1.
  - pose proof (lfu_decreaseCapacity_spec (Arc._lfuPart c) Hc2) as [Hd1 Hd2].
    destruct (Arc.lfu_decreaseCapacity (Arc._lfuPart c)) as [lfu1 dec]. simpl in *.
    destruct Hd2 as [(Hz & -> & Hcap)|(Hpos & -> & Hcap)]; unfold ARC_caps; simpl.
    + rewrite Hl1, Hl2, Hcap, Hd1. repeat split; [done | lia | lia | done | done].
    + rewrite Hl1, Hl2, Hcap, Hd1.
      rewrite to_size_t_small by lia. repeat split; [lia | lia | lia | done | done].
  - pose proof (lfu_checkGhost_caps (Arc._lfuPart c) key) as [Hf1 Hf2].
    destruct (Arc.lfu_checkGhost (Arc._lfuPart c) key) as [lfu1 hit2]. simpl in *.
    destruct hit2.
    + assert (0 <= Arc.lru_capacity lru1) as Hc1' by lia.
      pose proof (lru_decreaseCapacity_spec lru1 Hc1') as [Hd1 Hd2].
      destruct (Arc.lru_decreaseCapacity lru1) as [lru2 dec]. simpl in *.
      destruct Hd2 as [(Hz & -> & Hcap)|(Hpos & -> & Hcap)]; unfold ARC_caps; simpl.
      * rewrite Hf1, Hf2, Hcap, Hd1. repeat split; [lia | lia | lia | congruence | done].
      * rewrite Hf1, Hf2, Hcap, Hd1.
        rewrite to_size_t_small by lia.
        repeat split; [lia | lia | lia | congruence | done].
    + unfold ARC_caps. simpl. rewrite Hl1, Hl2, Hf1, Hf2. done.
Qed.

Lemma ARC_put_caps total ghost c key value :
  total < 2 ^ 64 -> ARC_caps total ghost c -> ARC_caps total ghost (Arc.put c key value).
Proof.
  intros Htot Hc. unfold Arc.put.
  pose proof (ARC_checkGhostCaches_caps total ghost c key Htot Hc) as Hc1.
  destruct (Arc.checkGhostCaches c key) as [c1 hit]. simpl in *.
  destruct Hc1 as (H1 & H2 & Hsum & Hg1 & Hg2). unfold ARC_caps. simpl.
  destruct (lru_put_caps (Arc._lruPart c1) key value) as [-> ->].
  destruct (Arc.lfu_contain _ _); [|done].
  by destruct (lfu_put_caps (Arc._lfuPart c1) key value) as [-> ->].
Qed.

Lemma ARC_get_caps total ghost c key :
  total < 2 ^ 64 -> ARC_caps total ghost c -> ARC_caps total ghost (Arc.get c key).1.
Proof.
  intros Htot Hc. unfold Arc.get.
  pose proof (ARC_checkGhostCaches_caps total ghost c key Htot Hc) as Hc1.
  destruct (Arc.checkGhostCaches c key) as [c1 hit]. simpl in *.
  destruct Hc1 as (H1 & H2 & Hsum & Hg1 & Hg2).
  pose proof (lru_get_caps (Arc._lruPart c1) key) as [Hl1 Hl2].
  destruct (Arc.lru_get (Arc._lruPart c1) key) as [lru1 [[v st]|]]; simpl in *.
  - unfold ARC_caps. simpl. rewrite Hl1, Hl2. destruct st; [|done].
    by destruct (lfu_put_caps (Arc._lfuPart c1) key v) as [-> ->].
  - pose proof (lfu_get_caps (Arc._lfuPart c1) key) as [Hf1 Hf2].
    destruct (Arc.lfu_get (Arc._lfuPart c1) key) as [lfu1 r]. simpl in *.
    unfold ARC_caps. simpl. by rewrite Hl1, Hl2, Hf1, Hf2.
Qed.

Lemma ARC_run_caps total ghost c (ops : list (Arc.op Key Value)) :
  total < 2 ^ 64 -> ARC_caps total ghost c -> ARC_caps total ghost (Arc.run c ops).
Proof.
  intros Htot. revert c. induction ops as [|[key value|key] ops IH]; intros c Hc; simpl;
    [done | apply IH; by apply ARC_put_caps | apply IH; by apply ARC_get_caps].
Qed.

Lemma ARC_new_caps capacity transformThreshold :
  0 <= capacity ->
  ARC_caps (2 * capacity) capacity
    (Arc.new (Key:=Key) (Value:=Value) capacity transformThreshold).
Proof. intros Hc. unfold ARC_caps. simpl. lia. Qed.

(** *** The ghost capacities never move *)

Lemma lru_decreaseCapacity_ghostCapacity p :
  Arc.lru_ghostCapacity (Arc.lru_decreaseCapacity p).1 = Arc.lru_ghostCapacity p.
Proof.
  unfold Arc.lru_decreaseCapacity. destruct (_ <=? 0); simpl; [done|].
  destruct (_ =? _); simpl; [apply lru_evict_caps | done].
Qed.

Lemma lfu_decreaseCapacity_ghostCapacity q :
  Arc.lfu_ghostCapacity (Arc.lfu_decreaseCapacity q).1 = Arc.lfu_ghostCapacity q.
Proof.
  unfold Arc.lfu_decreaseCapacity. destruct (_ <=? 0); simpl; [done|].
  destruct (_ =? _); simpl; [apply lfu_evict_caps | done].
Qed.

Lemma ARC_checkGhostCaches_ghostCaps ghost c key :
  ARC_ghostCaps ghost c -> ARC_ghostCaps ghost (Arc.checkGhostCaches c key).1.
Proof.
  intros [Hg1 Hg2]. unfold Arc.checkGhostCaches.
  pose proof (lru_checkGhost_caps (Arc._lruPart c) key) as [_ Hl].
  destruct (Arc.lru_checkGhost (Arc._lruPart c) key) as [lru1 hit1]. simpl in *.
  destruct hit1.
  - pose proof (lfu_decreaseCapacity_ghostCapacity (Arc._lfuPart c)) as Hd.
    destruct (Arc.lfu_decreaseCapacity (Arc._lfuPart c)) as [lfu1 dec]. simpl in *.
    split; simpl; [destruct dec; simpl; congruence | congruence].
  - pose proof (lfu_checkGhost_caps (Arc._lfuPart c) key) as [_ Hf].
    destruct (Arc.lfu_checkGhost (Arc._lfuPart c) key) as [lfu1 hit2]. simpl in *.
    destruct hit2.
    + pose proof (lru_decreaseCapacity_ghostCapacity lru1) as Hd.
      destruct (Arc.lru_decreaseCapacity lru1) as [lru2 dec]. simpl in *.
      split; simpl; [congruence | destruct dec; simpl; congruence].
    + split; simpl; congruence.
Qed.

Lemma ARC_step_ghostCaps ghost c (o : Arc.op Key Value) :
  ARC_ghostCaps ghost c -> ARC_ghostCaps ghost (Arc.step c o).
Proof.
  intros Hc. pose proof (ARC_checkGhostCaches_ghostCaps ghost c) as Hchk.
  destruct o as [key value|key]; simpl.
  - unfold Arc.put. specialize (Hchk key Hc).
    destruct (Arc.checkGhostCaches c key) as [c1 hit]. simpl in *.
    destruct Hchk as [Hg1 Hg2]. split; simpl.
    + by destruct (lru_put_caps (Arc._lruPart c1) key value) as [_ ->].
    + destruct (Arc.lfu_contain _ _); [|done].
      by destruct (lfu_put_caps (Arc._lfuPart c1) key value) as [_ ->].
  - unfold Arc.get. specialize (Hchk key Hc).
    destruct (Arc.checkGhostCaches c key) as [c1 hit]. simpl in *.
    destruct Hchk as [Hg1 Hg2].
    pose proof (lru_get_caps (Arc._lruPart c1) key) as [_ Hl].
    destruct (Arc.lru_get (Arc._lruPart c1) key) as [lru1 [[v st]|]]; simpl in *.
    + split; simpl; [congruence|]. destruct st; [|done].
      by destruct (lfu_put_caps (Arc._lfuPart c1) key v) as [_ ->].
    + pose proof (lfu_get_caps (Arc._lfuPart c1) key) as [_ Hf].
      destruct (Arc.lfu_get (Arc._lfuPart c1) key) as [lfu1 r]. simpl in *.
      split; simpl; congruence.
Qed.

Lemma ARC_run_ghostCaps ghost c (ops : list (Arc.op Key Value)) :
  ARC_ghostCaps ghost c -> ARC_ghostCaps ghost (Arc.run c ops).
Proof.
  revert c. induction ops as [|o ops IH]; intros c Hc; simpl; [done|].
  by apply IH, ARC_step_ghostCaps.
Qed.

(** *** A refused decrease transfers nothing *)

Lemma ARC_refused_decrease c key :
  let c' := (Arc.checkGhostCaches c key).1 in
  (key ∈ Arc._ghostCache (Arc.lru_ghost (Arc._lruPart c)) ->
   Arc.lfu_capacity (Arc._lfuPart c) = 0 ->
   Arc.lru_capacity (Arc._lruPart c') = Arc.lru_capacity (Arc._lruPart c)
   /\ Arc.lfu_capacity (Arc._lfuPart c') = 0)
  /\ (key ∉ Arc._ghostCache (Arc.lru_ghost (Arc._lruPart c)) ->
      key ∈ Arc._ghostCache (Arc.lfu_ghost (Arc._lfuPart c)) ->
      Arc.lru_capacity (Arc._lruPart c) = 0 ->
      Arc.lfu_capacity (Arc._lfuPart c') = Arc.lfu_capacity (Arc._lfuPart c)
      /\ Arc.lru_capacity (Arc._lruPart c') = 0).
Proof.
  simpl. unfold Arc.checkGhostCaches, Arc.lru_checkGhost, Arc.lfu_checkGhost, Arc.ghost_check.
  split.
  - intros Hin Hz. rewrite decide_True by done. simpl.
    unfold Arc.lfu_decreaseCapacity. rewrite Hz. simpl. done.
  - intros Hout Hin Hz. rewrite decide_False by done. simpl.
    rewrite decide_True by done. simpl.
    unfold Arc.lru_decreaseCapacity. simpl. rewrite Hz. simpl. done.
Qed.

(** C1: in every state the ARC engine built with capacity [C] reaches by
    public [put]s and [get]s, the capacities of T1 and T2 add up to [2C];
    and a ghost hit whose sibling refuses the decrease (its capacity is 0)
    changes neither capacity.  [C] is a [size_t] and [2C] one too. *)
Theorem C1_arc_capacity_conservation (capacity transformThreshold : Z)
    (ops : list (Arc.op Key Value)) :
  0 <= capacity -> 2 * capacity < 2 ^ 64 ->
  let c := Arc.run (Arc.new capacity transformThreshold) ops in
  Arc.lru_capacity (Arc._lruPart c) + Arc.lfu_capacity (Arc._lfuPart c) = 2 * capacity
  /\ forall key,
       let c' := (Arc.checkGhostCaches c key).1 in
       (key ∈ Arc._ghostCache (Arc.lru_ghost (Arc._lruPart c)) ->
        Arc.lfu_capacity (Arc._lfuPart c) = 0 ->
        Arc.lru_capacity (Arc._lruPart c') = Arc.lru_capacity (Arc._lruPart c)
        /\ Arc.lfu_capacity (Arc._lfuPart c') = 0)
       /\ (key ∉ Arc._ghostCache (Arc.lru_ghost (Arc._lruPart c)) ->
           key ∈ Arc._ghostCache (Arc.lfu_ghost (Arc._lfuPart c)) ->
           Arc.lru_capacity (Arc._lruPart c) = 0 ->
           Arc.lfu_capacity (Arc._lfuPart c') = Arc.lfu_capacity (Arc._lfuPart c)
           /\ Arc.lru_capacity (Arc._lruPart c') = 0).
Proof.
  intros Hpos Hfit c. split.
  - pose proof (ARC_run_caps (2 * capacity) capacity _ ops Hfit
                  (ARC_new_caps capacity transformThreshold Hpos)) as Hc.
    by destruct Hc as (_ & _ & Hsum & _).
  - intros key. apply ARC_refused_decrease.
Qed.

(** C4 (as the code has it): the ghost capacity of each sub-cache is set
    once, to the capacity the sub-cache is built with, and keeps that
    value in every reachable state, whatever the rebalances do to the
    resident capacity; the two are equal at construction. *)
Theorem C4_arc_ghost_capacity_fixed (capacity transformThreshold : Z)
    (ops : list (Arc.op Key Value)) :
  let c0 := Arc.new capacity transformThreshold in
  let c := Arc.run c0 ops in
  Arc.lru_ghostCapacity (Arc._lruPart c) = capacity
  /\ Arc.lfu_ghostCapacity (Arc._lfuPart c) = capacity
  /\ Arc.lru_ghostCapacity (Arc._lruPart c0) = Arc.lru_capacity (Arc._lruPart c0)
  /\ Arc.lfu_ghostCapacity (Arc._lfuPart c0) = Arc.lfu_capacity (Arc._lfuPart c0).
Proof.
  intros c0 c.
  assert (ARC_ghostCaps capacity c) as [Hg1 Hg2] by by apply ARC_run_ghostCaps.
  done.
Qed.

(** *** [put] then [get] *)

Lemma ARC_ghost_check_miss g key :
  key ∉ Arc._ghostCache g -> Arc.ghost_check key g = (g, false).
Proof. intros Hout. unfold Arc.ghost_check. by rewrite decide_False. Qed.

(** No ghost of the key in either list: the rebalance does nothing. *)
Lemma ARC_checkGhostCaches_miss c key :
  key ∉ Arc._ghostCache (Arc.lru_ghost (Arc._lruPart c)) ->
  key ∉ Arc._ghostCache (Arc.lfu_ghost (Arc._lfuPart c)) ->
  Arc.checkGhostCaches c key = (c, false).
Proof.
  intros H1 H2. unfold Arc.checkGhostCaches, Arc.lru_checkGhost, Arc.lfu_checkGhost.
  rewrite !ARC_ghost_check_miss by done.
  by destruct c as [? ? [] []].
Qed.



(** *** Capacity 0 *)




End ARC_properties.

(** *** Concrete ARC runs *)

(** C1 at scenario 5 of the specification: [C = 2], threshold 2, keys 1 to
    4 inserted, then [get(1)], a hit in B1. *)
Lemma C1_arc_capacity_witness :
  let c := Arc.run (Arc.new 2 2)
             [Arc.Put 1 "a"; Arc.Put 2 "b"; Arc.Put 3 "c"; Arc.Put 4 "d"; Arc.Get 1]%string in
  Arc.lru_capacity (Arc._lruPart c) + Arc.lfu_capacity (Arc._lfuPart c) = 2 * 2
  /\ forall key : Z,
       let c' := (Arc.checkGhostCaches c key).1 in
       (key ∈ Arc._ghostCache (Arc.lru_ghost (Arc._lruPart c)) ->
        Arc.lfu_capacity (Arc._lfuPart c) = 0 ->
        Arc.lru_capacity (Arc._lruPart c') = Arc.lru_capacity (Arc._lruPart c)
        /\ Arc.lfu_capacity (Arc._lfuPart c') = 0)
       /\ (key ∉ Arc._ghostCache (Arc.lru_ghost (Arc._lruPart c)) ->
           key ∈ Arc._ghostCache (Arc.lfu_ghost (Arc._lfuPart c)) ->
           Arc.lru_capacity (Arc._lruPart c) = 0 ->
           Arc.lfu_capacity (Arc._lfuPart c') = Arc.lfu_capacity (Arc._lfuPart c)
           /\ Arc.lru_capacity (Arc._lruPart c') = 0).
Proof. apply (C1_arc_capacity_conservation 2 2); lia. Defined.

(** That run moves one unit of capacity from T2 to T1. *)
Example ARC_scenario_5 :
  let c := Arc.run (Arc.new 2 2)
             [Arc.Put 1 "a"; Arc.Put 2 "b"; Arc.Put 3 "c"; Arc.Put 4 "d"; Arc.Get 1]%string in
  Arc.lru_capacity (Arc._lruPart c) = 3 /\ Arc.lfu_capacity (Arc._lfuPart c) = 1.
Proof. vm_compute. done. Qed.

(** C4 as stated fails: [C = 2]; keys 1, 2, 3 are put (1 leaves T1 for B1),
    then [put(1)] hits B1 and moves one unit of capacity from T2 to T1.
    T1 then has capacity 3 and T2 capacity 1, both with ghost capacity 2. *)
Lemma C4_arc_ghost_capacity_differs :
  let c := Arc.run (Arc.new 2 2)
             [Arc.Put 1 "a"; Arc.Put 2 "b"; Arc.Put 3 "c"; Arc.Put 1 "a"]%string in
  Arc.lru_capacity (Arc._lruPart c) = 3
  /\ Arc.lru_ghostCapacity (Arc._lruPart c) = 2
  /\ Arc.lfu_capacity (Arc._lfuPart c) = 1
  /\ Arc.lfu_ghostCapacity (Arc._lfuPart c) = 2.
Proof. vm_compute. done. Qed.

(** ** The LFU engine *)

Section LFU_properties.
Context {Key : Type} `{Countable Key} {Value : Type}.
Variable Key_default : Key.
Implicit Types (s t : LFU.LFUCache Key Value) (key k : Key) (node n : LFU.Node Value).
Implicit Types (l : list Key) (f : Z) (v : Value).

Local Abbreviation kickOut := (LFU.kickOut Key_default).
Local Abbreviation putInternal := (LFU.putInternal Key_default).
Local Abbreviation put := (LFU.put Key_default).
Local Abbreviation step := (LFU.step Key_default).
Local Abbreviation run := (LFU.run Key_default).

(** *** The lists of a [FreqList] *)

Lemma LFU_removeNode_sublist key l : sublist (LFU.removeNode key l) l.
Proof.
  induction l as [|k l IH]; simpl; [done|].
  case_bool_decide; [by apply sublist_cons | by apply sublist_skip].
Qed.

Lemma LFU_removeNode_NoDup key l : NoDup l -> NoDup (LFU.removeNode key l).
Proof. intros Hnd. exact (sublist_NoDup _ _ Hnd (LFU_removeNode_sublist key l)). Qed.

Lemma LFU_removeNode_elem key l k :
  NoDup l -> k ∈ LFU.removeNode key l <-> k ∈ l /\ k <> key.
Proof.
  induction l as [|k' l IH]; simpl; intros Hnd.
  - split; [by intros ?%elem_of_nil | by intros [?%elem_of_nil _]].
  - apply NoDup_cons in Hnd as [Hk' Hnd]. case_bool_decide as Heq.
    + subst k'. split.
      * intros Hin. split; [by right|]. by intros ->.
      * intros [[->|Hin]%elem_of_cons Hne]; done.
    + rewrite !elem_of_cons, IH by done. split.
      * intros [->|[Hin Hne]]; [split; [by left | done] | split; [by right | done]].
      * intros [[->|Hin] Hne]; [by left | by right].
Qed.

Lemma LFU_removeNode_head key l : LFU.removeNode key (key :: l) = l.
Proof. simpl. by rewrite bool_decide_eq_true_2. Qed.

(** *** What each helper keeps *)

Lemma LFU_same_config_refl s : LFU_same_config s s.
Proof. done. Qed.

Lemma LFU_same_config_trans s1 s2 s3 :
  LFU_same_config s1 s2 -> LFU_same_config s2 s3 -> LFU_same_config s1 s3.
Proof. intros [? ?] [? ?]. split; congruence. Qed.

Lemma LFU_lists_grow_refl s : LFU_lists_grow s s.
Proof. by intros f. Qed.

Lemma LFU_lists_grow_trans s1 s2 s3 :
  LFU_lists_grow s1 s2 -> LFU_lists_grow s2 s3 -> LFU_lists_grow s1 s3.
Proof. intros H12 H23 f Hf. by apply H23, H12. Qed.

#[local] Hint Resolve LFU_same_config_refl LFU_lists_grow_refl : lfu.

Lemma LFU_insert_grows (b : gmap Z (list Key)) f l f' :
  is_Some (b !! f') -> is_Some (<[f := l]> b !! f').
Proof.
  intros Hf. destruct (decide (f = f')) as [->|Hne].
  - rewrite lookup_insert_eq. by eexists.
  - by rewrite lookup_insert_ne.
Qed.

Lemma LFU_removeFromFreqList_Some s key f l :
  LFU._freqToFreqList s !! f = Some l ->
  LFU.removeFromFreqList s key f
  = Some (LFU.set_freqToFreqList s (<[f := LFU.removeNode key l]> (LFU._freqToFreqList s))).
Proof. intros Hl. unfold LFU.removeFromFreqList. by rewrite Hl. Qed.

(** Re-linking the node of [key] under a new frequency. *)
Lemma LFU_relink_listed s key f f' v l :
  LFU_nodes_listed s ->
  LFU._freqToFreqList s !! f = Some l ->
  let s1 := LFU.set_freqToFreqList s (<[f := LFU.removeNode key l]> (LFU._freqToFreqList s)) in
  let s2 := LFU.set_nodeMap s1 (<[key := LFU.mkNode f' v]> (LFU._nodeMap s1)) in
  let s3 := LFU.addToFreqList s2 key f' in
  LFU_nodes_listed s3 /\ LFU_lists_grow s s3 /\ LFU_same_config s s3
  /\ is_Some (LFU._freqToFreqList s3 !! f')
  /\ LFU._nodeMap s3 = <[key := LFU.mkNode f' v]> (LFU._nodeMap s)
  /\ LFU._minFreq s3 = LFU._minFreq s
  /\ LFU._curTotalNum s3 = LFU._curTotalNum s.
Proof.
  intros Hs Hl s1 s2 s3.
  assert (LFU_lists_grow s s3) as Hgrow.
  { intros g Hg. unfold s3, LFU.addToFreqList. simpl. by do 2 apply LFU_insert_grows. }
  split; [|split; [done|split; [done|split; [|done]]]].
  - intros k n. unfold s3, LFU.addToFreqList. simpl.
    destruct (decide (key = k)) as [->|Hne].
    + rewrite lookup_insert_eq. intros [= <-]. simpl.
      rewrite lookup_insert_eq. by eexists.
    + rewrite lookup_insert_ne by done. intros Hn.
      apply LFU_insert_grows, LFU_insert_grows. by eapply Hs.
  - unfold s3, LFU.addToFreqList. simpl. rewrite lookup_insert_eq. by eexists.
Qed.

(** *** [updateMinFreq] *)

Lemma LFU_isEmpty_true l : LFU.isEmpty l = true <-> l = [].
Proof. by destruct l. Qed.

Lemma LFU_isEmpty_false l : LFU.isEmpty l = false <-> l <> [].
Proof. by destruct l. Qed.

(** The scan of [updateMinFreq]: the least frequency with a non-empty list
    among those below [INT_MAX], or [INT_MAX]. *)
Lemma LFU_scan_spec (b : gmap Z (list Key)) :
  let m := map_fold (fun f l acc => if LFU.isEmpty l then acc else Z.min acc f)
             LFU.INT_MAX b in
  m <= LFU.INT_MAX
  /\ (forall f l, b !! f = Some l -> l <> [] -> m <= f)
  /\ (m = LFU.INT_MAX \/ exists l, b !! m = Some l /\ l <> []).
Proof.
  simpl. apply (map_fold_weak_ind (fun m b =>
    m <= LFU.INT_MAX
    /\ (forall f l, b !! f = Some l -> l <> [] -> m <= f)
    /\ (m = LFU.INT_MAX \/ exists l, b !! m = Some l /\ l <> []))).
  - split; [done|]. split; [|by left]. intros f l Hl. by rewrite lookup_empty in Hl.
  - intros i x m r Hi (Hle & Hmin & Hat).
    destruct (LFU.isEmpty x) eqn:Hx.
    + apply LFU_isEmpty_true in Hx. subst x. split; [done|]. split.
      * intros f l Hl Hne. destruct (decide (i = f)) as [->|Hif].
        -- rewrite lookup_insert_eq in Hl. by injection Hl as <-.
        -- rewrite lookup_insert_ne in Hl by done. by eapply Hmin.
      * destruct Hat as [?|(l & Hl & Hne)]; [by left|]. right. exists l.
        split; [|done]. rewrite lookup_insert_ne; [done|]. intros ->. congruence.
    + apply LFU_isEmpty_false in Hx. split; [lia|]. split.
      * intros f l Hl Hne. destruct (decide (i = f)) as [->|Hif]; [lia|].
        rewrite lookup_insert_ne in Hl by done.
        specialize (Hmin f l Hl Hne). lia.
      * destruct (Z.min_spec r i) as [[Hlt ->]|[Hge ->]].
        -- destruct Hat as [?|(l & Hl & Hne)]; [by left|]. right. exists l.
           split; [|done]. rewrite lookup_insert_ne; [done|]. intros ->. congruence.
        -- right. exists x. by rewrite lookup_insert_eq.
Qed.

Lemma LFU_updateMinFreq_exists s :
  is_Some (LFU._freqToFreqList s !! 1) ->
  is_Some (LFU._freqToFreqList s !! LFU._minFreq (LFU.updateMinFreq s)).
Proof.
  intros H1. unfold LFU.updateMinFreq. simpl.
  pose proof (LFU_scan_spec (LFU._freqToFreqList s)) as Hscan. simpl in Hscan.
  set (m := map_fold _ LFU.INT_MAX (LFU._freqToFreqList s)) in *.
  destruct Hscan as (_ & _ & Hat).
  destruct (Z.eqb_spec m LFU.INT_MAX) as [Heq|Hne]; [done|].
  destruct Hat as [?|(l & Hl & _)]; [done|]. by eexists.
Qed.

(** [updateMinFreq] finds the least frequency that has a non-empty list,
    the frequencies being [int]s below [INT_MAX]. *)
Lemma LFU_updateMinFreq_smallest s f0 :
  LFU.nonEmptyList s f0 ->
  (forall f, LFU.nonEmptyList s f -> f < LFU.INT_MAX) ->
  LFU.smallestNonEmpty (LFU.updateMinFreq s) (LFU._minFreq (LFU.updateMinFreq s)).
Proof.
  intros (l0 & Hl0 & Hne0) Hbound. unfold LFU.updateMinFreq, LFU.smallestNonEmpty,
    LFU.nonEmptyList. simpl.
  pose proof (LFU_scan_spec (LFU._freqToFreqList s)) as Hscan. simpl in Hscan.
  set (m := map_fold _ LFU.INT_MAX (LFU._freqToFreqList s)) in *.
  destruct Hscan as (_ & Hmin & Hat).
  pose proof (Hmin f0 l0 Hl0 Hne0) as Hle.
  assert (f0 < LFU.INT_MAX) as Hlt by (apply Hbound; by exists l0).
  destruct (Z.eqb_spec m LFU.INT_MAX) as [Heq|Hne]; [lia|].
  destruct Hat as [?|Hat]; [done|]. split; [done|].
  intros f' (l' & Hl' & Hne'). by eapply Hmin.
Qed.

Lemma LFU_updateMinFreq_none s :
  (forall f, ~ LFU.nonEmptyList s f) -> LFU._minFreq (LFU.updateMinFreq s) = 1.
Proof.
  intros Hnone. unfold LFU.updateMinFreq. simpl.
  pose proof (LFU_scan_spec (LFU._freqToFreqList s)) as Hscan. simpl in Hscan.
  set (m := map_fold _ LFU.INT_MAX (LFU._freqToFreqList s)) in *.
  destruct Hscan as (_ & _ & Hat).
  destruct (Z.eqb_spec m LFU.INT_MAX) as [Heq|Hne]; [done|].
  destruct Hat as [?|(l & Hl & Hnil)]; [done|].
  exfalso. eapply Hnone. by exists l.
Qed.

(** *** The ageing loop meets no null pointer *)

Lemma LFU_ageNode_Some s key node l :
  LFU._freqToFreqList s !! LFU.freq node = Some l ->
  LFU.ageNode s key node =
    Some (LFU.addToFreqList
            (LFU.set_nodeMap
               (LFU.set_freqToFreqList s
                  (<[LFU.freq node := LFU.removeNode key l]> (LFU._freqToFreqList s)))
               (<[key := LFU_agedNode (LFU._maxAverageNum s) node]> (LFU._nodeMap s)))
            key (LFU.aged (LFU._maxAverageNum s) (LFU.freq node))).
Proof. intros Hl. unfold LFU.ageNode. by rewrite (LFU_removeFromFreqList_Some _ _ _ l). Qed.

Lemma LFU_ageNode_inv s key node s' :
  LFU.ageNode s key node = Some s' ->
  LFU._nodeMap s' = <[key := LFU_agedNode (LFU._maxAverageNum s) node]> (LFU._nodeMap s)
  /\ LFU_same_config s s'.
Proof.
  destruct (LFU._freqToFreqList s !! LFU.freq node) as [l|] eqn:Hl.
  - rewrite (LFU_ageNode_Some _ _ _ l Hl). by intros [= <-].
  - unfold LFU.ageNode, LFU.removeFromFreqList. by rewrite Hl.
Qed.

Lemma LFU_ageNode_listed s key node :
  LFU_nodes_listed s -> is_Some (LFU._freqToFreqList s !! LFU.freq node) ->
  exists s', LFU.ageNode s key node = Some s'
    /\ LFU_nodes_listed s' /\ LFU_lists_grow s s' /\ LFU_same_config s s'
    /\ LFU._minFreq s' = LFU._minFreq s /\ LFU._curTotalNum s' = LFU._curTotalNum s.
Proof.
  intros Hs [l Hl]. rewrite (LFU_ageNode_Some _ _ _ l Hl). eexists. split; [done|].
  destruct (LFU_relink_listed s key (LFU.freq node)
              (LFU.aged (LFU._maxAverageNum s) (LFU.freq node)) (LFU.value node) l Hs Hl)
    as (? & ? & ? & _ & _ & ? & ?).
  done.
Qed.

Lemma LFU_ageNodes_listed (entries : list (Key * LFU.Node Value)) s :
  LFU_nodes_listed s ->
  (forall k n, (k, n) ∈ entries -> is_Some (LFU._freqToFreqList s !! LFU.freq n)) ->
  exists s', LFU.ageNodes entries s = Some s'
    /\ LFU_nodes_listed s' /\ LFU_lists_grow s s' /\ LFU_same_config s s'
    /\ LFU._minFreq s' = LFU._minFreq s /\ LFU._curTotalNum s' = LFU._curTotalNum s.
Proof.
  revert s. induction entries as [|[key node] rest IH]; intros s Hs Hent; simpl.
  - exists s. lfu_trivial.
  - destruct (LFU_ageNode_listed s key node Hs) as (s1 & -> & Hs1 & Hg1 & Hc1 & Hm1 & Ht1).
    { apply (Hent key node). by left. }
    simpl. destruct (IH s1 Hs1) as (s' & -> & Hs' & Hg & Hc & Hm & Ht).
    { intros k n Hin. apply Hg1, (Hent k n). by right. }
    exists s'. split; [done|]. split; [done|].
    split; [by eapply LFU_lists_grow_trans|].
    split; [by eapply LFU_same_config_trans|]. split; congruence.
Qed.

(** The loop changes frequencies only: every key keeps its value. *)
Lemma LFU_ageNodes_values (entries : list (Key * LFU.Node Value)) s s' :
  LFU.ageNodes entries s = Some s' ->
  (forall k n, (k, n) ∈ entries -> LFU.value <$> LFU._nodeMap s !! k = Some (LFU.value n)) ->
  forall k, LFU.value <$> LFU._nodeMap s' !! k = LFU.value <$> LFU._nodeMap s !! k.
Proof.
  revert s. induction entries as [|[key node] rest IH]; intros s; simpl.
  - by intros [= <-].
  - destruct (LFU.ageNode s key node) as [s1|] eqn:Hage; simpl; [|done].
    intros Hrest Hent k.
    apply LFU_ageNode_inv in Hage as [Hmap _].
    assert (forall k', LFU.value <$> LFU._nodeMap s1 !! k'
                       = LFU.value <$> LFU._nodeMap s !! k') as Hstep.
    { intros k'. rewrite Hmap. destruct (decide (key = k')) as [<-|Hne].
      - rewrite lookup_insert_eq. simpl. symmetry. apply Hent. by left.
      - by rewrite lookup_insert_ne. }
    rewrite <- Hstep. apply (IH s1 Hrest).
    intros k' n Hin. rewrite Hstep. apply Hent. by right.
Qed.

(** *** [handleOverMaxAverageNum] and [addFreqNum] meet no null pointer *)

Lemma LFU_handleOver_listed s :
  LFU_nodes_listed s -> is_Some (LFU._freqToFreqList s !! 1) ->
  exists s', LFU.handleOverMaxAverageNum s = Some s'
    /\ LFU_nodes_listed s' /\ LFU_lists_grow s s' /\ LFU_same_config s s'
    /\ (forall k, LFU.value <$> LFU._nodeMap s' !! k = LFU.value <$> LFU._nodeMap s !! k)
    /\ (is_Some (LFU._freqToFreqList s !! LFU._minFreq s) ->
        is_Some (LFU._freqToFreqList s' !! LFU._minFreq s')).
Proof.
  intros Hs H1. unfold LFU.handleOverMaxAverageNum.
  destruct (decide (LFU._nodeMap s = ∅)) as [Hemp|Hne].
  - exists s. lfu_trivial.
  - destruct (LFU_ageNodes_listed (map_to_list (LFU._nodeMap s)) s Hs)
      as (s1 & Hrun & Hs1 & Hg & Hc & _ & _).
    { intros k n Hin%elem_of_map_to_list. by eapply Hs. }
    rewrite Hrun. simpl. eexists. split; [done|].
    split; [exact Hs1|]. split; [exact Hg|]. split; [exact Hc|]. split.
    + apply (LFU_ageNodes_values _ _ _ Hrun).
      intros k n Hin%elem_of_map_to_list. by rewrite Hin.
    + intros _. apply (LFU_updateMinFreq_exists (LFU.set_stats s1 _ _)). simpl.
      by apply Hg.
Qed.

Lemma LFU_addFreqNum_listed s :
  LFU_nodes_listed s -> is_Some (LFU._freqToFreqList s !! 1) ->
  exists s', LFU.addFreqNum s = Some s'
    /\ LFU_nodes_listed s' /\ LFU_lists_grow s s' /\ LFU_same_config s s'
    /\ (forall k, LFU.value <$> LFU._nodeMap s' !! k = LFU.value <$> LFU._nodeMap s !! k)
    /\ (is_Some (LFU._freqToFreqList s !! LFU._minFreq s) ->
        is_Some (LFU._freqToFreqList s' !! LFU._minFreq s')).
Proof.
  intros Hs H1. unfold LFU.addFreqNum.
  set (s1 := LFU.set_stats s _ _).
  destruct (_ <? _).
  - apply (LFU_handleOver_listed s1); done.
  - exists s1. split; [done|]. split; [exact Hs|]. split; [by intros f|].
    split; [done|]. split; done.
Qed.

(** *** The public operations meet no null pointer *)

Lemma LFU_kickOut_listed s :
  LFU_nodes_listed s ->
  is_Some (LFU._freqToFreqList s !! LFU._minFreq s) ->
  is_Some (LFU._freqToFreqList s !! 1) ->
  exists s', kickOut s = Some s'
    /\ LFU_nodes_listed s' /\ LFU_lists_grow s s' /\ LFU_same_config s s'
    /\ (forall k n, LFU._nodeMap s' !! k = Some n -> LFU._nodeMap s !! k = Some n).
Proof.
  intros Hs [l Hl] [l1 Hl1]. unfold LFU.kickOut. rewrite Hl. simpl.
  destruct l as [|key l'].
  - simpl. rewrite Hl1. simpl. eexists. split; [done|].
    split; [|split; [by intros f|split; [done|]]].
    + intros k n Hn. simpl in *. apply lookup_delete_Some in Hn as [_ Hn]. by eapply Hs.
    + intros k n Hn. simpl in *. by apply lookup_delete_Some in Hn as [_ Hn].
  - rewrite (LFU_removeFromFreqList_Some _ _ _ (key :: l')) by done. simpl.
    eexists. split; [done|].
    split; [|split; [|split; [done|]]].
    + intros k n Hn. simpl in *. apply lookup_delete_Some in Hn as [_ Hn].
      apply LFU_insert_grows. by eapply Hs.
    + intros f Hf. simpl. by apply LFU_insert_grows.
    + intros k n Hn. simpl in *. by apply lookup_delete_Some in Hn as [_ Hn].
Qed.

Lemma LFU_nonempty_lookup s k n : LFU._nodeMap s !! k = Some n -> LFU._nodeMap s <> ∅.
Proof. intros Hn Hemp. rewrite Hemp in Hn. by rewrite lookup_empty in Hn. Qed.

Lemma LFU_putInternal_listed s key v :
  LFU_listed s -> (LFU.isFull s = true -> LFU._nodeMap s <> ∅) ->
  exists s', putInternal s key v = Some s'
    /\ LFU_listed s' /\ LFU_same_config s s'
    /\ LFU.value <$> LFU._nodeMap s' !! key = Some v.
Proof.
  intros (Hs & Hmin & Hone) Hfull. unfold LFU.putInternal.
  assert (exists s1, (if LFU.isFull s then kickOut s else Some s) = Some s1
            /\ LFU_nodes_listed s1 /\ LFU_lists_grow s s1 /\ LFU_same_config s s1)
    as (s1 & -> & Hs1 & Hg1 & Hc1).
  { destruct (LFU.isFull s).
    - destruct (LFU_kickOut_listed s Hs) as (s1 & ? & ? & ? & ? & _); eauto.
    - exists s. lfu_trivial. }
  simpl.
  set (s3 := LFU.addToFreqList _ key 1).
  assert (LFU_nodes_listed s3) as Hs3.
  { intros k n. unfold s3, LFU.addToFreqList. simpl.
    destruct (decide (key = k)) as [->|Hne].
    - rewrite lookup_insert_eq. intros [= <-]. simpl. rewrite lookup_insert_eq. by eexists.
    - rewrite lookup_insert_ne by done. intros Hn. apply LFU_insert_grows. by eapply Hs1. }
  assert (is_Some (LFU._freqToFreqList s3 !! 1)) as H3.
  { unfold s3, LFU.addToFreqList. simpl. rewrite lookup_insert_eq. by eexists. }
  destruct (LFU_addFreqNum_listed s3 Hs3 H3) as (s4 & -> & Hs4 & Hg4 & Hc4 & Hv4 & _).
  simpl. eexists. split; [done|]. split; [|split].
  - split; [exact Hs4|]. split; intros _; simpl; by apply Hg4.
  - eapply LFU_same_config_trans; [exact Hc1|]. exact Hc4.
  - simpl. rewrite Hv4. unfold s3, LFU.addToFreqList. simpl. by rewrite lookup_insert_eq.
Qed.

Lemma LFU_getInternal_listed s key node :
  LFU_listed s -> LFU._nodeMap s !! key = Some node ->
  exists s', LFU.getInternal s key node = Some (s', LFU.value node)
    /\ LFU_listed s' /\ LFU_same_config s s'
    /\ LFU.value <$> LFU._nodeMap s' !! key = Some (LFU.value node).
Proof.
  intros (Hs & Hmin & Hone) Hnode.
  pose proof (LFU_nonempty_lookup _ _ _ Hnode) as Hne.
  destruct (Hs key node Hnode) as [l Hl].
  unfold LFU.getInternal. rewrite (LFU_removeFromFreqList_Some _ _ _ l Hl). simpl.
  destruct (LFU_relink_listed s key (LFU.freq node) (LFU.freq node + 1) (LFU.value node)
              l Hs Hl) as (Hs3 & Hg3 & Hc3 & Hnew & Hmap3 & Hmin3 & _).
  set (s3 := LFU.addToFreqList _ key (LFU.freq node + 1)) in *. clearbody s3.
  assert (exists s4, LFU.advanceMinFreq s3 (LFU.freq node + 1) = Some s4
    /\ LFU._nodeMap s4 = LFU._nodeMap s3
    /\ LFU._freqToFreqList s4 = LFU._freqToFreqList s3
    /\ LFU_same_config s3 s4
    /\ is_Some (LFU._freqToFreqList s4 !! LFU._minFreq s4))
    as (s4 & -> & Hmap4 & Hlist4 & Hc4 & Hmin4).
  { unfold LFU.advanceMinFreq.
    assert (LFU.freq node + 1 - 1 = LFU.freq node) as -> by lia.
    destruct (Z.eqb_spec (LFU._minFreq s3) (LFU.freq node)) as [Heq|Hneq].
    - destruct (Hg3 (LFU.freq node)) as [l0 Hl0]; [by eexists|].
      rewrite Hl0. simpl. destruct (LFU.isEmpty l0).
      + eexists. split; [done|]. simpl. rewrite Heq.
        split; [done|]. split; [done|]. split; [done|]. done.
      + exists s3. rewrite Heq.
        split; [done|]. split; [done|]. split; [done|]. split; [done|]. by eexists.
    - exists s3.
      split; [done|]. split; [done|]. split; [done|]. split; [done|].
      rewrite Hmin3. by apply Hg3, Hmin. }
  simpl.
  assert (LFU_nodes_listed s4) as Hs4.
  { intros k n. rewrite Hmap4, Hlist4. apply Hs3. }
  assert (is_Some (LFU._freqToFreqList s4 !! 1)) as H41.
  { rewrite Hlist4. by apply Hg3, Hone. }
  destruct (LFU_addFreqNum_listed s4 Hs4 H41) as (s5 & -> & Hs5 & Hg5 & Hc5 & Hv5 & Hmin5).
  simpl. exists s5. split; [done|]. split; [|split].
  - split; [exact Hs5|]. split; intros _; [by apply Hmin5 | by apply Hg5].
  - eapply LFU_same_config_trans; [exact Hc3|].
    eapply LFU_same_config_trans; [exact Hc4|]. exact Hc5.
  - rewrite Hv5, Hmap4, Hmap3. by rewrite lookup_insert_eq.
Qed.

(** A cache is full only if it holds a node: the capacity is an [int]
    other than 0. *)
Lemma LFU_isFull_nonempty s :
  int_range (LFU._capacity s) -> LFU._capacity s <> 0 ->
  LFU.isFull s = true -> LFU._nodeMap s <> ∅.
Proof.
  intros Hint Hcap Hfull Hemp. unfold LFU.isFull, LFU.nodeMap_size in Hfull.
  rewrite Hemp, map_size_empty in Hfull. apply Z.eqb_eq in Hfull.
  by apply (to_size_t_int_nonzero _ Hint Hcap).
Qed.

Lemma LFU_put_listed s key v :
  LFU_listed s -> int_range (LFU._capacity s) ->
  exists s', put s key v = Some s' /\ LFU_listed s' /\ LFU_same_config s s'
    /\ (LFU._capacity s <> 0 -> LFU.value <$> LFU._nodeMap s' !! key = Some v).
Proof.
  intros Hs Hint. unfold LFU.put.
  destruct (Z.eqb_spec (LFU._capacity s) 0) as [Hz|Hnz].
  - exists s. split; [done|]. split; [done|]. split; [done|]. by intros ?.
  - destruct (LFU._nodeMap s !! key) as [node|] eqn:Hnode.
    + set (node' := LFU.mkNode (LFU.freq node) v).
      set (s1 := LFU.set_nodeMap s _).
      assert (LFU_listed s1) as Hs1.
      { destruct Hs as (Hs & Hmin & Hone). split; [|split].
        - intros k n. unfold s1. simpl. destruct (decide (key = k)) as [->|Hne].
          + rewrite lookup_insert_eq. intros [= <-]. simpl. by eapply Hs.
          + rewrite lookup_insert_ne by done. apply Hs.
        - intros _. apply Hmin. by eapply LFU_nonempty_lookup.
        - intros _. apply Hone. by eapply LFU_nonempty_lookup. }
      destruct (LFU_getInternal_listed s1 key node' Hs1) as (s' & -> & Hs' & Hc' & Hv').
      { unfold s1. simpl. by rewrite lookup_insert_eq. }
      simpl. exists s'. split; [done|]. split; [done|]. split; [exact Hc'|done].
    + destruct (LFU_putInternal_listed s key v Hs) as (s' & -> & Hs' & Hc' & Hv').
      { by apply LFU_isFull_nonempty. }
      exists s'. split; [done|]. split; [done|]. split; [done|]. done.
Qed.

Lemma LFU_get_listed s key :
  LFU_listed s ->
  exists s' r, LFU.get s key = Some (s', r) /\ LFU_listed s' /\ LFU_same_config s s'
    /\ r = LFU.value <$> LFU._nodeMap s !! key.
Proof.
  intros Hs. unfold LFU.get. destruct (LFU._nodeMap s !! key) as [node|] eqn:Hnode.
  - destruct (LFU_getInternal_listed s key node Hs Hnode) as (s' & -> & Hs' & Hc' & _).
    simpl. exists s', (Some (LFU.value node)).
    split; [done|]. split; [done|]. split; [done|]. done.
  - exists s, None. split; [done|]. split; [done|]. split; [done|]. done.
Qed.

Lemma LFU_purge_listed s : LFU_listed (LFU.purge s).
Proof.
  split; [|split].
  - intros k n. simpl. by rewrite lookup_empty.
  - intros Hne. by destruct Hne.
  - intros Hne. by destruct Hne.
Qed.

Lemma LFU_new_listed capacity maxAverageNum :
  LFU_listed (LFU.new (Key:=Key) (Value:=Value) capacity maxAverageNum).
Proof.
  split; [|split].
  - intros k n. simpl. by rewrite lookup_empty.
  - intros Hne. by destruct Hne.
  - intros Hne. by destruct Hne.
Qed.

Lemma LFU_step_listed s o :
  LFU_listed s -> int_range (LFU._capacity s) ->
  exists s', step s o = Some s' /\ LFU_listed s' /\ LFU_same_config s s'.
Proof.
  intros Hs Hint. destruct o as [key v|key|]; simpl.
  - destruct (LFU_put_listed s key v Hs Hint) as (s' & ? & ? & ? & _). by exists s'.
  - destruct (LFU_get_listed s key Hs) as (s' & r & -> & ? & ? & _). by exists s'.
  - exists (LFU.purge s). split; [done|]. split; [apply LFU_purge_listed | done].
Qed.

(** Every run of public operations from a cache built with an [int]
    capacity runs to its end. *)
Lemma LFU_run_listed s ops :
  LFU_listed s -> int_range (LFU._capacity s) ->
  exists s', run s ops = Some s' /\ LFU_listed s' /\ LFU_same_config s s'.
Proof.
  revert s. induction ops as [|o ops IH]; intros s Hs Hint; simpl.
  - exists s. split; [done|]. split; [done|]. done.
  - destruct (LFU_step_listed s o Hs Hint) as (s1 & -> & Hs1 & Hc1). simpl.
    destruct (IH s1 Hs1) as (s' & -> & Hs' & Hc').
    { destruct Hc1 as [-> _]. done. }
    exists s'. split; [done|]. split; [done|]. by eapply LFU_same_config_trans.
Qed.

(** [put] then [get] on a cache whose capacity is not 0. *)
Lemma LFU_put_get s key v :
  LFU_listed s -> int_range (LFU._capacity s) -> LFU._capacity s <> 0 ->
  exists s' s'', put s key v = Some s' /\ LFU.get s' key = Some (s'', Some v).
Proof.
  intros Hs Hint Hcap.
  destruct (LFU_put_listed s key v Hs Hint) as (s' & Hput & Hs' & _ & Hv).
  destruct (LFU_get_listed s' key Hs') as (s'' & r & Hget & _ & _ & ->).
  exists s', s''. split; [done|]. rewrite Hget. by rewrite (Hv Hcap).
Qed.


(** *** The index and the lists agree *)

(** The lists after a node was unlinked from the list of [f] and linked at
    the fresh end of the list of [f']. *)
Lemma LFU_relink_lookup (b : gmap Z (list Key)) f l f' key g :
  b !! f = Some l ->
  <[f' := LFU.addNode key (default [] (<[f := LFU.removeNode key l]> b !! f'))]>
    (<[f := LFU.removeNode key l]> b) !! g
  = if decide (g = f')
    then Some ((if decide (f' = f) then LFU.removeNode key l else default [] (b !! f'))
               ++ [key])
    else if decide (g = f) then Some (LFU.removeNode key l) else b !! g.
Proof.
  intros Hl. destruct (decide (g = f')) as [->|Hgf'].
  - rewrite lookup_insert_eq. unfold LFU.addNode. destruct (decide (f' = f)) as [->|Hne].
    + by rewrite lookup_insert_eq.
    + by rewrite lookup_insert_ne.
  - rewrite lookup_insert_ne by done. destruct (decide (g = f)) as [->|Hgf].
    + by rewrite lookup_insert_eq.
    + by rewrite lookup_insert_ne.
Qed.

Lemma LFU_relink_sync s key node f' v l :
  LFU_sync s ->
  LFU._nodeMap s !! key = Some node ->
  LFU._freqToFreqList s !! LFU.freq node = Some l ->
  LFU_sync
    (LFU.addToFreqList
       (LFU.set_nodeMap
          (LFU.set_freqToFreqList s
             (<[LFU.freq node := LFU.removeNode key l]> (LFU._freqToFreqList s)))
          (<[key := LFU.mkNode f' v]> (LFU._nodeMap s)))
       key f').
Proof.
  intros (S1 & S2 & S3) Hnode Hl.
  set (f := LFU.freq node) in *.
  assert (NoDup l) as Hndl by by eapply S3.
  assert (forall k, k ∈ (if decide (f' = f) then LFU.removeNode key l
                         else default [] (LFU._freqToFreqList s !! f')) ->
            k <> key /\ exists n, LFU._nodeMap s !! k = Some n /\ LFU.freq n = f') as Hl'.
  { intros k Hk. destruct (decide (f' = f)) as [->|Hne].
    - apply LFU_removeNode_elem in Hk as [Hk Hkey]; [|done]. split; [done|]. by eapply S2.
    - destruct (LFU._freqToFreqList s !! f') as [l''|] eqn:Hl''; simpl in Hk;
        [|by apply elem_of_nil in Hk].
      destruct (S2 f' l'' k Hl'' Hk) as (n & Hn & Hf). split; [|by eauto].
      intros ->. rewrite Hnode in Hn. injection Hn as <-. done. }
  unfold LFU_sync, LFU.addToFreqList. simpl.
  split; [|split].
  - intros k n. destruct (decide (key = k)) as [<-|Hne].
    + rewrite lookup_insert_eq. intros [= <-]. simpl.
      rewrite (LFU_relink_lookup _ f l) by done. rewrite decide_True by done.
      eexists. split; [done|]. apply elem_of_app. right. by apply list_elem_of_singleton.
    + rewrite lookup_insert_ne by done. intros Hn.
      destruct (S1 k n Hn) as (lk & Hlk & Hk).
      rewrite (LFU_relink_lookup _ f l) by done.
      destruct (decide (LFU.freq n = f')) as [Hf'|Hf'].
      * eexists. split; [done|]. apply elem_of_app. left.
        destruct (decide (f' = f)) as [Hff|Hff].
        -- apply LFU_removeNode_elem; [done|]. split; [|done].
           rewrite Hf', Hff, Hl in Hlk. by injection Hlk as ->.
        -- rewrite <- Hf', Hlk. done.
      * destruct (decide (LFU.freq n = f)) as [Hf|Hf].
        -- eexists. split; [done|]. apply LFU_removeNode_elem; [done|]. split; [|done].
           rewrite Hf, Hl in Hlk. by injection Hlk as ->.
        -- by exists lk.
  - intros g lg k. rewrite (LFU_relink_lookup _ f l) by done.
    destruct (decide (g = f')) as [->|Hgf'].
    + intros [= <-] [Hk|Hk%list_elem_of_singleton]%elem_of_app.
      * destruct (Hl' k Hk) as (Hne & n & Hn & Hf). exists n.
        by rewrite lookup_insert_ne.
      * subst k. rewrite lookup_insert_eq. by eexists.
    + destruct (decide (g = f)) as [->|Hgf].
      * intros [= <-] Hk. apply LFU_removeNode_elem in Hk as [Hk Hne]; [|done].
        rewrite lookup_insert_ne by done. by eapply S2.
      * intros Hlg Hk. destruct (S2 g lg k Hlg Hk) as (n & Hn & Hf). exists n.
        split; [|done]. rewrite lookup_insert_ne; [done|].
        intros ->. rewrite Hnode in Hn. injection Hn as <-. done.
  - intros g lg. rewrite (LFU_relink_lookup _ f l) by done.
    destruct (decide (g = f')) as [->|Hgf'].
    + intros [= <-]. apply NoDup_app. split; [|split; [|apply NoDup_singleton]].
      * destruct (decide (f' = f)); [by apply LFU_removeNode_NoDup|].
        destruct (LFU._freqToFreqList s !! f') as [l''|] eqn:Hl''; simpl;
          [by eapply S3 | apply NoDup_nil_2].
      * intros k Hk ->%list_elem_of_singleton. by destruct (Hl' key Hk).
    + destruct (decide (g = f)) as [->|Hgf].
      * intros [= <-]. by apply LFU_removeNode_NoDup.
      * apply S3.
Qed.

(** *** The ageing pass *)

Lemma LFU_aged_max maxAverageNum f :
  LFU.aged maxAverageNum f = Z.max 1 (f - maxAverageNum ÷ 2).
Proof. unfold LFU.aged. destruct (Z.ltb_spec (f - maxAverageNum ÷ 2) 1); lia. Qed.

Lemma LFU_ageNode_sync s key node :
  LFU_sync s -> LFU._nodeMap s !! key = Some node ->
  exists s', LFU.ageNode s key node = Some s' /\ LFU_sync s'
    /\ LFU._nodeMap s' = <[key := LFU_agedNode (LFU._maxAverageNum s) node]> (LFU._nodeMap s)
    /\ LFU_same_config s s' /\ LFU._curTotalNum s' = LFU._curTotalNum s.
Proof.
  intros Hs Hnode. destruct Hs as (S1 & S2 & S3).
  destruct (S1 key node Hnode) as (l & Hl & _).
  rewrite (LFU_ageNode_Some _ _ _ l Hl). eexists. split; [done|].
  split; [by apply LFU_relink_sync|]. done.
Qed.

(** The loop over the entries of the index: the nodes it has passed carry
    the aged frequency and are linked in its list. *)
Lemma LFU_ageNodes_sync (entries : list (Key * LFU.Node Value)) s :
  LFU_sync s -> NoDup entries.*1 ->
  (forall k n, (k, n) ∈ entries -> LFU._nodeMap s !! k = Some n) ->
  exists s', LFU.ageNodes entries s = Some s' /\ LFU_sync s'
    /\ (forall k n, (k, n) ∈ entries ->
          LFU._nodeMap s' !! k = Some (LFU_agedNode (LFU._maxAverageNum s) n))
    /\ (forall k, k ∉ entries.*1 -> LFU._nodeMap s' !! k = LFU._nodeMap s !! k)
    /\ LFU_same_config s s' /\ LFU._curTotalNum s' = LFU._curTotalNum s.
Proof.
  revert s. induction entries as [|[key node] rest IH]; intros s Hs Hnd Hent; simpl.
  - exists s. split; [done|]. split; [done|]. split; [|done].
    intros k n Hin. by apply elem_of_nil in Hin.
  - simpl in Hnd. apply NoDup_cons in Hnd as [Hkey Hnd].
    destruct (LFU_ageNode_sync s key node Hs) as (s1 & -> & Hs1 & Hmap1 & Hc1 & Ht1).
    { apply Hent. by left. }
    simpl. destruct (IH s1 Hs1 Hnd) as (s' & -> & Hs' & Hin' & Hout' & Hc' & Ht').
    { intros k n Hin. rewrite Hmap1, lookup_insert_ne; [apply Hent; by right|].
      intros ->. apply Hkey. apply list_elem_of_fmap. by exists (k, n). }
    destruct Hc1 as [Hcap1 Hmax1].
    exists s'. split; [done|]. split; [done|]. split; [|split; [|split]].
    + intros k n [[= -> ->]|Hin]%elem_of_cons.
      * rewrite Hout' by done. rewrite Hmap1. by rewrite lookup_insert_eq.
      * rewrite (Hin' k n Hin). by rewrite Hmax1.
    + intros k Hk. apply not_elem_of_cons in Hk as [Hne Hk].
      rewrite Hout' by done. rewrite Hmap1. by rewrite lookup_insert_ne.
    + eapply LFU_same_config_trans; [|exact Hc']. done.
    + congruence.
Qed.

(** [handleOverMaxAverageNum] on a cache that holds a node. *)
Lemma LFU_handleOver_sync s :
  LFU_sync s -> LFU._nodeMap s <> ∅ ->
  (forall k n, LFU._nodeMap s !! k = Some n ->
     LFU.aged (LFU._maxAverageNum s) (LFU.freq n) < LFU.INT_MAX) ->
  exists s', LFU.handleOverMaxAverageNum s = Some s' /\ LFU_sync s'
    /\ (forall k, LFU._nodeMap s' !! k
                  = LFU_agedNode (LFU._maxAverageNum s) <$> LFU._nodeMap s !! k)
    /\ LFU.smallestNonEmpty s' (LFU._minFreq s')
    /\ LFU_same_config s s'.
Proof.
  intros Hs Hne Hbound. unfold LFU.handleOverMaxAverageNum.
  rewrite decide_False by done.
  destruct (LFU_ageNodes_sync (map_to_list (LFU._nodeMap s)) s Hs)
    as (s1 & -> & Hs1 & Hin1 & Hout1 & Hc1 & _).
  { apply NoDup_fst_map_to_list. }
  { intros k n. by rewrite elem_of_map_to_list. }
  simpl. eexists. split; [done|].
  assert (forall k, LFU._nodeMap s1 !! k
                    = LFU_agedNode (LFU._maxAverageNum s) <$> LFU._nodeMap s !! k) as Hmap.
  { intros k. destruct (LFU._nodeMap s !! k) as [n|] eqn:Hn; simpl.
    - apply Hin1. by apply elem_of_map_to_list.
    - rewrite Hout1; [done|]. intros ((k' & n') & -> & Hin)%list_elem_of_fmap.
      apply elem_of_map_to_list in Hin. simpl in Hn. congruence. }
  split; [exact Hs1|]. split; [exact Hmap|]. split; [|exact Hc1].
  destruct Hs1 as (S1 & S2 & S3).
  apply map_choose in Hne as (k0 & n0 & Hn0).
  destruct (S1 k0 (LFU_agedNode (LFU._maxAverageNum s) n0)) as (l0 & Hl0 & Hk0).
  { by rewrite Hmap, Hn0. }
  apply (LFU_updateMinFreq_smallest (LFU.set_stats s1 _ _)
           (LFU.freq (LFU_agedNode (LFU._maxAverageNum s) n0))).
  - exists l0. split; [done|]. intros ->. by apply elem_of_nil in Hk0.
  - intros f (l & Hl & Hnil). simpl in Hl.
    destruct l as [|k l']; [done|].
    destruct (S2 f (k :: l') k Hl) as (n & Hn & <-); [by left|].
    rewrite Hmap in Hn. destruct (LFU._nodeMap s !! k) as [n1|] eqn:Hn1; [|done].
    injection Hn as <-. simpl. by eapply Hbound.
Qed.

(** C6: when the access that [addFreqNum] counts makes the running
    average, as [addFreqNum] computes it, exceed [maxAverage], the ageing
    pass runs and leaves every resident entry with the frequency
    [max(1, old - maxAverage/2)] and its value, linked in the list of that
    frequency, the lists holding nothing else, and [_minFreq] the least
    frequency whose list is non-empty; and [updateMinFreq] yields 1 when no
    list is non-empty.  The cache is one whose index and lists agree and
    that holds the accessed entry; the frequencies are [int]s below
    [INT_MAX]. *)
Theorem C6_lfu_ageing_pass s :
  LFU_sync s -> LFU._nodeMap s <> ∅ ->
  (forall k n, LFU._nodeMap s !! k = Some n ->
     Z.max 1 (LFU.freq n - LFU._maxAverageNum s ÷ 2) < LFU.INT_MAX) ->
  LFU._maxAverageNum s < LFU.average (LFU._curTotalNum s + 1) s ->
  exists s', LFU.addFreqNum s = Some s'
    /\ (forall k, LFU._nodeMap s' !! k
                  = LFU_clampedNode (LFU._maxAverageNum s) <$> LFU._nodeMap s !! k)
    /\ LFU_sync s'
    /\ LFU.smallestNonEmpty s' (LFU._minFreq s')
    /\ (forall t : LFU.LFUCache Key Value,
          (forall f, ~ LFU.nonEmptyList t f) -> LFU._minFreq (LFU.updateMinFreq t) = 1).
Proof.
  intros Hs Hne Hbound Hover. unfold LFU.addFreqNum.
  set (s1 := LFU.set_stats s _ _).
  assert ((LFU._maxAverageNum s1 <? LFU._curAverageNum s1) = true) as ->.
  { apply Z.ltb_lt. exact Hover. }
  destruct (LFU_handleOver_sync s1) as (s' & -> & Hs' & Hmap & Hmin & _).
  - exact Hs.
  - exact Hne.
  - intros k n Hn. rewrite LFU_aged_max. by apply (Hbound k n).
  - exists s'. split; [done|]. split; [|split; [done|split; [done|]]].
    + intros k. rewrite Hmap. simpl. destruct (LFU._nodeMap s !! k) as [n|]; [|done].
      simpl. unfold LFU_agedNode, LFU_clampedNode. by rewrite LFU_aged_max.
    + intros t. apply LFU_updateMinFreq_none.
Qed.

(** *** [_minFreq] before an eviction *)

Lemma LFU_inv_mono bound bound' s : bound <= bound' -> LFU_inv bound s -> LFU_inv bound' s.
Proof.
  intros Hle (Hs & Hmin & Hb). split; [done|]. split; [done|].
  intros k n Hn. specialize (Hb k n Hn). lia.
Qed.

Lemma LFU_aged_within maxAverageNum bound f :
  -1 <= maxAverageNum -> 1 <= f <= bound -> 1 <= LFU.aged maxAverageNum f <= bound.
Proof.
  intros Hm Hf. rewrite LFU_aged_max.
  assert (0 <= maxAverageNum ÷ 2).
  { destruct (decide (maxAverageNum = -1)) as [->|Hne]; [by vm_compute|].
    apply Z.quot_pos; lia. }
  lia.
Qed.

Lemma LFU_aged_one maxAverageNum : -1 <= maxAverageNum -> LFU.aged maxAverageNum 1 = 1.
Proof. intros Hm. pose proof (LFU_aged_within maxAverageNum 1 1 Hm). lia. Qed.

(** [addFreqNum] keeps the invariant (but for [_minFreq], which it keeps
    right if it was right), and a node of frequency 1 stays one. *)
Lemma LFU_addFreqNum_inv bound s :
  LFU_sync s -> LFU._nodeMap s <> ∅ -> LFU_freqs_within bound s ->
  -1 <= LFU._maxAverageNum s -> bound < LFU.INT_MAX ->
  exists s', LFU.addFreqNum s = Some s' /\ LFU_sync s' /\ LFU_freqs_within bound s'
    /\ LFU_same_config s s' /\ LFU._nodeMap s' <> ∅
    /\ (LFU.smallestNonEmpty s (LFU._minFreq s) ->
        LFU.smallestNonEmpty s' (LFU._minFreq s'))
    /\ (forall k n, LFU._nodeMap s !! k = Some n -> LFU.freq n = 1 ->
          exists n', LFU._nodeMap s' !! k = Some n' /\ LFU.freq n' = 1).
Proof.
  intros Hs Hne Hb Hm Hbound. unfold LFU.addFreqNum.
  set (s1 := LFU.set_stats s _ _).
  destruct (_ <? _).
  - destruct (LFU_handleOver_sync s1) as (s' & -> & Hs' & Hmap & Hmin & Hc); [done|done| |].
    { intros k n Hn. pose proof (LFU_aged_within _ bound (LFU.freq n) Hm (Hb k n Hn)).
      simpl. lia. }
    exists s'. split; [done|]. split; [done|]. split; [|split; [done|split; [|split]]].
    + intros k n. rewrite Hmap. simpl.
      destruct (LFU._nodeMap s !! k) as [n0|] eqn:Hn0; [|done].
      intros [= <-]. simpl. by apply LFU_aged_within, (Hb k n0).
    + apply map_choose in Hne as (k0 & n0 & Hn0). intros Hemp.
      specialize (Hmap k0). rewrite Hemp, lookup_empty in Hmap. simpl in Hmap.
      by rewrite Hn0 in Hmap.
    + done.
    + intros k n Hn Hf. rewrite Hmap. simpl. rewrite Hn. simpl. eexists. split; [done|].
      simpl. rewrite Hf. by apply LFU_aged_one.
  - exists s1. split; [done|]. split; [exact Hs|]. split; [exact Hb|].
    split; [done|]. split; [exact Hne|]. split; [done|]. intros k n Hn Hf. by exists n.
Qed.

Lemma LFU_sync_ext s s' :
  LFU._nodeMap s' = LFU._nodeMap s -> LFU._freqToFreqList s' = LFU._freqToFreqList s ->
  LFU_sync s -> LFU_sync s'.
Proof. unfold LFU_sync. by intros -> ->. Qed.

(** The step of [getInternal] on [_minFreq] after the node of [key] moved
    from the list of [f] to the list of [f + 1]. *)
Lemma LFU_advanceMinFreq_smallest s s3 f key l (fresh : list Key) :
  LFU.smallestNonEmpty s (LFU._minFreq s) ->
  LFU._freqToFreqList s !! f = Some l -> key ∈ l ->
  (forall g, LFU._freqToFreqList s3 !! g
     = if decide (g = f + 1) then Some (fresh ++ [key])
       else if decide (g = f) then Some (LFU.removeNode key l)
       else LFU._freqToFreqList s !! g) ->
  LFU._minFreq s3 = LFU._minFreq s ->
  exists s4, LFU.advanceMinFreq s3 (f + 1) = Some s4
    /\ LFU._nodeMap s4 = LFU._nodeMap s3
    /\ LFU._freqToFreqList s4 = LFU._freqToFreqList s3
    /\ LFU_same_config s3 s4
    /\ LFU.smallestNonEmpty s4 (LFU._minFreq s4).
Proof.
  intros [(lm & Hlm & Hlmne) Hleast] Hl Hkey Hlists Hmin3.
  assert (LFU._minFreq s <= f) as Hle.
  { apply Hleast. exists l. split; [done|]. intros ->. by apply elem_of_nil in Hkey. }
  assert (LFU.nonEmptyList s3 (f + 1)) as Hnew.
  { exists (fresh ++ [key]). rewrite Hlists, decide_True by done. split; [done|].
    by destruct fresh. }
  assert (forall g, LFU.nonEmptyList s3 g -> g <> f + 1 -> g <> f -> LFU._minFreq s <= g)
    as Hother.
  { intros g (lg & Hlg & Hne) H1 H2. rewrite Hlists in Hlg.
    rewrite decide_False in Hlg by done. rewrite decide_False in Hlg by done.
    apply Hleast. by exists lg. }
  unfold LFU.advanceMinFreq.
  assert (f + 1 - 1 = f) as -> by lia. rewrite Hmin3.
  destruct (Z.eqb_spec (LFU._minFreq s) f) as [Heq|Hneq].
  - rewrite Hlists. rewrite decide_False by lia. rewrite decide_True by done. simpl.
    destruct (LFU.isEmpty (LFU.removeNode key l)) eqn:Hemp.
    + apply LFU_isEmpty_true in Hemp. eexists. split; [done|].
      split; [done|]. split; [done|]. split; [done|]. simpl. rewrite Heq.
      split; [exact Hnew|]. intros g Hg.
      destruct (decide (g = f + 1)) as [->|H1]; [lia|].
      destruct (decide (g = f)) as [->|H2].
      * exfalso. destruct Hg as (lg & Hlg & Hne). simpl in Hlg. rewrite Hlists in Hlg.
        rewrite decide_False in Hlg by lia. rewrite decide_True in Hlg by done.
        injection Hlg as <-. done.
      * pose proof (Hother g Hg H1 H2). lia.
    + apply LFU_isEmpty_false in Hemp. exists s3. split; [done|].
      split; [done|]. split; [done|]. split; [done|]. rewrite Hmin3, Heq. split.
      * exists (LFU.removeNode key l). rewrite Hlists.
        rewrite decide_False by lia. by rewrite decide_True.
      * intros g Hg. destruct (decide (g = f + 1)) as [->|H1]; [lia|].
        destruct (decide (g = f)) as [->|H2]; [lia|].
        pose proof (Hother g Hg H1 H2). lia.
  - exists s3. split; [done|]. split; [done|]. split; [done|]. split; [done|].
    rewrite Hmin3. split.
    + exists lm. rewrite Hlists. rewrite decide_False by lia.
      by rewrite decide_False by lia.
    + intros g Hg. destruct (decide (g = f + 1)) as [->|H1]; [lia|].
      destruct (decide (g = f)) as [->|H2]; [lia|].
      by apply Hother.
Qed.

Lemma LFU_getInternal_inv bound s key node :
  LFU_inv bound s -> LFU._nodeMap s !! key = Some node ->
  -1 <= LFU._maxAverageNum s -> bound + 1 < LFU.INT_MAX ->
  exists s', LFU.getInternal s key node = Some (s', LFU.value node)
    /\ LFU_inv (bound + 1) s' /\ LFU_same_config s s'.
Proof.
  intros (Hs & Hmin & Hb) Hnode Hm Hbound.
  pose proof (LFU_nonempty_lookup _ _ _ Hnode) as Hne.
  pose proof Hs as (S1 & S2 & S3).
  destruct (S1 key node Hnode) as (l & Hl & Hkey).
  unfold LFU.getInternal. rewrite (LFU_removeFromFreqList_Some _ _ _ l Hl). simpl.
  pose proof (LFU_relink_sync s key node (LFU.freq node + 1) (LFU.value node) l Hs Hnode Hl)
    as Hs3.
  set (s3 := LFU.addToFreqList _ key (LFU.freq node + 1)) in *.
  assert (LFU._nodeMap s3
          = <[key := LFU.mkNode (LFU.freq node + 1) (LFU.value node)]> (LFU._nodeMap s))
    as Hmap3 by done.
  assert (LFU._minFreq s3 = LFU._minFreq s) as Hmin3 by done.
  assert (LFU_same_config s s3) as Hc3 by done.
  assert (forall g, LFU._freqToFreqList s3 !! g
     = if decide (g = LFU.freq node + 1)
       then Some ((if decide (LFU.freq node + 1 = LFU.freq node)
                   then LFU.removeNode key l
                   else default [] (LFU._freqToFreqList s !! (LFU.freq node + 1))) ++ [key])
       else if decide (g = LFU.freq node) then Some (LFU.removeNode key l)
       else LFU._freqToFreqList s !! g) as Hlists3.
  { intros g. unfold s3, LFU.addToFreqList. simpl. by apply LFU_relink_lookup. }
  clearbody s3.
  destruct (LFU_advanceMinFreq_smallest s s3 (LFU.freq node) key l _
              (Hmin Hne) Hl Hkey Hlists3 Hmin3)
    as (s4 & -> & Hmap4 & Hlist4 & Hc4 & Hmin4).
  simpl.
  assert (LFU_sync s4) as Hs4 by by eapply LFU_sync_ext.
  assert (LFU_freqs_within (bound + 1) s4) as Hb4.
  { intros k n. rewrite Hmap4, Hmap3. destruct (decide (key = k)) as [<-|Hk].
    - rewrite lookup_insert_eq. intros [= <-]. simpl. specialize (Hb key node Hnode). lia.
    - rewrite lookup_insert_ne by done. intros Hn. specialize (Hb k n Hn). lia. }
  assert (LFU._nodeMap s4 <> ∅) as Hne4.
  { rewrite Hmap4, Hmap3. apply insert_non_empty. }
  destruct (LFU_addFreqNum_inv (bound + 1) s4 Hs4 Hne4 Hb4)
    as (s5 & -> & Hs5 & Hb5 & Hc5 & Hne5 & Hmin5 & _).
  { destruct Hc3 as [_ Hc3]. destruct Hc4 as [_ Hc4]. by rewrite Hc4, Hc3. }
  { done. }
  simpl. exists s5. split; [done|]. split.
  - split; [done|]. split; [|done]. intros _. by apply Hmin5.
  - eapply LFU_same_config_trans; [exact Hc3|].
    eapply LFU_same_config_trans; [exact Hc4|]. exact Hc5.
Qed.

(** [kickOut] when [_minFreq] is right: the oldest node of the least
    frequency leaves the index and its list. *)
Lemma LFU_kickOut_sync bound s :
  LFU_sync s -> LFU.smallestNonEmpty s (LFU._minFreq s) -> LFU_freqs_within bound s ->
  exists s', kickOut s = Some s' /\ LFU_sync s' /\ LFU_freqs_within bound s'
    /\ LFU_same_config s s'
    /\ (forall k, LFU._nodeMap s !! k = None -> LFU._nodeMap s' !! k = None).
Proof.
  intros (S1 & S2 & S3) [(l & Hl & Hlne) _] Hb.
  destruct l as [|key l']; [done|].
  unfold LFU.kickOut. rewrite Hl. simpl.
  rewrite (LFU_removeFromFreqList_Some _ _ _ (key :: l')) by done.
  rewrite LFU_removeNode_head. unfold LFU.decreaseFreqNum. simpl.
  eexists. split; [done|].
  pose proof (S3 _ _ Hl) as [Hkey Hnd]%NoDup_cons.
  destruct (S2 _ _ key Hl) as (node & Hnode & Hfreq); [by left|].
  split; [|split; [|split; [done|]]].
  - unfold LFU_sync. simpl. split; [|split].
    + intros k n [Hne Hn]%lookup_delete_Some.
      destruct (S1 k n Hn) as (lk & Hlk & Hk).
      destruct (decide (LFU.freq n = LFU._minFreq s)) as [Heq|Hneq].
      * rewrite Heq, lookup_insert_eq. eexists. split; [done|].
        rewrite Heq, Hl in Hlk. injection Hlk as <-.
        apply elem_of_cons in Hk as [->|Hk]; done.
      * rewrite lookup_insert_ne by done. by exists lk.
    + intros g lg k. destruct (decide (g = LFU._minFreq s)) as [->|Hneq].
      * rewrite lookup_insert_eq. intros [= <-] Hk.
        destruct (S2 _ _ k Hl) as (n & Hn & Hf); [by right|]. exists n. split; [|done].
        apply lookup_delete_Some. split; [|done]. by intros ->.
      * rewrite lookup_insert_ne by done. intros Hlg Hk.
        destruct (S2 _ _ k Hlg Hk) as (n & Hn & Hf). exists n. split; [|done].
        apply lookup_delete_Some. split; [|done]. intros ->.
        rewrite Hnode in Hn. injection Hn as <-. congruence.
    + intros g lg. destruct (decide (g = LFU._minFreq s)) as [->|Hneq].
      * rewrite lookup_insert_eq. by intros [= <-].
      * rewrite lookup_insert_ne by done. apply S3.
  - intros k n. simpl. intros [_ Hn]%lookup_delete_Some. by eapply Hb.
  - intros k Hk. simpl. by apply lookup_delete_None; right.
Qed.

(** A node for a key that is not resident, linked at the fresh end of the
    list of frequency 1. *)
Lemma LFU_insert_sync s key v :
  LFU_sync s -> LFU._nodeMap s !! key = None ->
  LFU_sync (LFU.addToFreqList
              (LFU.set_nodeMap s (<[key := LFU.mkNode 1 v]> (LFU._nodeMap s))) key 1).
Proof.
  intros (S1 & S2 & S3) Hfresh. unfold LFU_sync, LFU.addToFreqList, LFU.addNode. simpl.
  assert (forall k, k ∈ default [] (LFU._freqToFreqList s !! 1) ->
            k <> key /\ exists n, LFU._nodeMap s !! k = Some n /\ LFU.freq n = 1) as Hone.
  { intros k Hk. destruct (LFU._freqToFreqList s !! 1) as [l1|] eqn:Hl1; simpl in Hk;
      [|by apply elem_of_nil in Hk].
    destruct (S2 _ _ k Hl1 Hk) as (n & Hn & Hf). split; [|by eauto].
    intros ->. congruence. }
  split; [|split].
  - intros k n. destruct (decide (key = k)) as [<-|Hne].
    + rewrite lookup_insert_eq. intros [= <-]. simpl. rewrite lookup_insert_eq.
      eexists. split; [done|]. apply elem_of_app. right. by apply list_elem_of_singleton.
    + rewrite lookup_insert_ne by done. intros Hn.
      destruct (S1 k n Hn) as (lk & Hlk & Hk).
      destruct (decide (LFU.freq n = 1)) as [Heq|Hneq].
      * rewrite Heq, lookup_insert_eq. eexists. split; [done|].
        apply elem_of_app. left. rewrite Heq in Hlk. by rewrite Hlk.
      * rewrite lookup_insert_ne by done. by exists lk.
  - intros g lg k. destruct (decide (g = 1)) as [->|Hneq].
    + rewrite lookup_insert_eq.
      intros [= <-] [Hk|Hk%list_elem_of_singleton]%elem_of_app.
      * destruct (Hone k Hk) as (Hne & n & Hn & Hf). exists n.
        by rewrite lookup_insert_ne.
      * subst k. rewrite lookup_insert_eq. by eexists.
    + rewrite lookup_insert_ne by done. intros Hlg Hk.
      destruct (S2 _ _ k Hlg Hk) as (n & Hn & Hf). exists n. split; [|done].
      rewrite lookup_insert_ne; [done|]. intros ->. congruence.
  - intros g lg. destruct (decide (g = 1)) as [->|Hneq].
    + rewrite lookup_insert_eq. intros [= <-].
      apply NoDup_app. split; [|split; [|apply NoDup_singleton]].
      * destruct (LFU._freqToFreqList s !! 1) as [l1|] eqn:Hl1; simpl;
          [by eapply S3 | apply NoDup_nil_2].
      * intros k Hk ->%list_elem_of_singleton. by destruct (Hone key Hk).
    + rewrite lookup_insert_ne by done. apply S3.
Qed.

Lemma LFU_putInternal_inv bound s key v :
  LFU_inv bound s -> LFU._nodeMap s !! key = None ->
  (LFU.isFull s = true -> LFU._nodeMap s <> ∅) ->
  -1 <= LFU._maxAverageNum s -> 1 <= bound < LFU.INT_MAX ->
  exists s', putInternal s key v = Some s' /\ LFU_inv bound s' /\ LFU_same_config s s'.
Proof.
  intros (Hs & Hmin & Hb) Hfresh Hfull Hm Hbound. unfold LFU.putInternal.
  assert (exists s1, (if LFU.isFull s then kickOut s else Some s) = Some s1
            /\ LFU_sync s1 /\ LFU_freqs_within bound s1 /\ LFU_same_config s s1
            /\ LFU._nodeMap s1 !! key = None)
    as (s1 & -> & Hs1 & Hb1 & Hc1 & Hfresh1).
  { destruct (LFU.isFull s).
    - destruct (LFU_kickOut_sync bound s Hs (Hmin (Hfull eq_refl)) Hb)
        as (s1 & ? & ? & ? & ? & Hnone).
      exists s1. split; [done|]. split; [done|]. split; [done|]. split; [done|].
      by apply Hnone.
    - exists s. split; [done|]. split; [done|]. split; [done|]. split; [done|]. done. }
  simpl.
  pose proof (LFU_insert_sync s1 key v Hs1 Hfresh1) as Hs3.
  set (s3 := LFU.addToFreqList _ key 1) in *.
  assert (LFU._nodeMap s3 = <[key := LFU.mkNode 1 v]> (LFU._nodeMap s1)) as Hmap3 by done.
  assert (LFU_same_config s1 s3) as Hc3 by done.
  clearbody s3.
  assert (LFU_freqs_within bound s3) as Hb3.
  { intros k n. rewrite Hmap3. destruct (decide (key = k)) as [<-|Hk].
    - rewrite lookup_insert_eq. intros [= <-]. simpl. lia.
    - rewrite lookup_insert_ne by done. apply Hb1. }
  assert (LFU._nodeMap s3 <> ∅) as Hne3.
  { rewrite Hmap3. apply insert_non_empty. }
  destruct (LFU_addFreqNum_inv bound s3 Hs3 Hne3 Hb3)
    as (s4 & -> & Hs4 & Hb4 & Hc4 & Hne4 & _ & Hone).
  { destruct Hc1 as [_ Hc1]. destruct Hc3 as [_ Hc3]. by rewrite Hc3, Hc1. }
  { lia. }
  simpl. eexists. split; [done|]. split.
  - split; [exact Hs4|]. split; [|exact Hb4]. intros _.
    destruct (Hone key (LFU.mkNode 1 v)) as (n' & Hn' & Hf'); [|done|].
    { rewrite Hmap3. by rewrite lookup_insert_eq. }
    destruct Hs4 as (S1 & S2 & S3).
    destruct (S1 key n' Hn') as (l1 & Hl1 & Hk1). rewrite Hf' in Hl1.
    split.
    + exists l1. split; [done|]. intros ->. by apply elem_of_nil in Hk1.
    + intros g (lg & Hlg & Hlgne). simpl in Hlg. destruct lg as [|k lg']; [done|].
      destruct (S2 g (k :: lg') k Hlg) as (n & Hn & <-); [by left|].
      specialize (Hb4 k n Hn). simpl. lia.
  - eapply LFU_same_config_trans; [exact Hc1|].
    eapply LFU_same_config_trans; [exact Hc3|]. exact Hc4.
Qed.

Lemma LFU_setValue_inv bound s key node v :
  LFU_inv bound s -> LFU._nodeMap s !! key = Some node ->
  LFU_inv bound
    (LFU.set_nodeMap s (<[key := LFU.mkNode (LFU.freq node) v]> (LFU._nodeMap s))).
Proof.
  intros ((S1 & S2 & S3) & Hmin & Hb) Hnode. split; [|split].
  - unfold LFU_sync. simpl. split; [|split; [|done]].
    + intros k n. destruct (decide (key = k)) as [<-|Hne].
      * rewrite lookup_insert_eq. intros [= <-]. simpl. by apply S1.
      * rewrite lookup_insert_ne by done. apply S1.
    + intros g lg k Hlg Hk. destruct (S2 g lg k Hlg Hk) as (n & Hn & Hf).
      destruct (decide (key = k)) as [<-|Hne].
      * rewrite lookup_insert_eq. eexists. split; [done|]. simpl. congruence.
      * rewrite lookup_insert_ne by done. by exists n.
  - intros _. apply Hmin. by eapply LFU_nonempty_lookup.
  - intros k n. simpl. destruct (decide (key = k)) as [<-|Hne].
    + rewrite lookup_insert_eq. intros [= <-]. simpl. by apply (Hb key node).
    + rewrite lookup_insert_ne by done. apply Hb.
Qed.

Lemma LFU_put_inv bound s key v :
  LFU_inv bound s -> int_range (LFU._capacity s) ->
  -1 <= LFU._maxAverageNum s -> 0 <= bound -> bound + 1 < LFU.INT_MAX ->
  exists s', put s key v = Some s' /\ LFU_inv (bound + 1) s' /\ LFU_same_config s s'.
Proof.
  intros Hinv Hint Hm Hpos Hbound. unfold LFU.put.
  destruct (Z.eqb_spec (LFU._capacity s) 0) as [Hz|Hnz].
  - exists s. split; [done|]. split; [|done]. eapply LFU_inv_mono; [|done]. lia.
  - destruct (LFU._nodeMap s !! key) as [node|] eqn:Hnode.
    + pose proof (LFU_setValue_inv bound s key node v Hinv Hnode) as Hinv1.
      destruct (LFU_getInternal_inv bound _ key (LFU.mkNode (LFU.freq node) v) Hinv1)
        as (s' & -> & Hinv' & Hc'); [|done|done|].
      { simpl. by rewrite lookup_insert_eq. }
      simpl. by exists s'.
    + apply (LFU_putInternal_inv (bound + 1)); [|done| |done|lia].
      * eapply LFU_inv_mono; [|done]. lia.
      * by apply LFU_isFull_nonempty.
Qed.

Lemma LFU_get_inv bound s key :
  LFU_inv bound s -> -1 <= LFU._maxAverageNum s -> bound + 1 < LFU.INT_MAX ->
  exists s' r, LFU.get s key = Some (s', r) /\ LFU_inv (bound + 1) s'
    /\ LFU_same_config s s'.
Proof.
  intros Hinv Hm Hbound. unfold LFU.get.
  destruct (LFU._nodeMap s !! key) as [node|] eqn:Hnode.
  - destruct (LFU_getInternal_inv bound s key node Hinv Hnode Hm Hbound)
      as (s' & -> & Hinv' & Hc').
    simpl. by exists s', (Some (LFU.value node)).
  - exists s, None. split; [done|]. split; [|done]. eapply LFU_inv_mono; [|done]. lia.
Qed.

Lemma LFU_empty_inv bound s :
  LFU._nodeMap s = ∅ -> LFU._freqToFreqList s = ∅ -> LFU_inv bound s.
Proof.
  intros Hmap Hlists. split; [|split].
  - unfold LFU_sync. rewrite Hmap, Hlists. split; [|split].
    + intros k n. by rewrite lookup_empty.
    + intros f l k. by rewrite lookup_empty.
    + intros f l. by rewrite lookup_empty.
  - by intros Hne.
  - intros k n. by rewrite Hmap, lookup_empty.
Qed.

Lemma LFU_step_inv bound s o :
  LFU_inv bound s -> int_range (LFU._capacity s) ->
  -1 <= LFU._maxAverageNum s -> 0 <= bound -> bound + 1 < LFU.INT_MAX ->
  exists s', step s o = Some s' /\ LFU_inv (bound + 1) s' /\ LFU_same_config s s'.
Proof.
  intros Hinv Hint Hm Hpos Hbound. destruct o as [key v|key|]; simpl.
  - by apply LFU_put_inv.
  - destruct (LFU_get_inv bound s key Hinv Hm Hbound) as (s' & r & -> & ? & ?).
    by exists s'.
  - exists (LFU.purge s). split; [done|]. split; [by apply LFU_empty_inv | done].
Qed.

Lemma LFU_run_inv ops : forall bound s,
  LFU_inv bound s -> int_range (LFU._capacity s) ->
  -1 <= LFU._maxAverageNum s -> 0 <= bound ->
  bound + Z.of_nat (length ops) < LFU.INT_MAX ->
  exists s', run s ops = Some s' /\ LFU_inv (bound + Z.of_nat (length ops)) s'
    /\ LFU_same_config s s'.
Proof.
  induction ops as [|o ops IH]; intros bound s Hinv Hint Hm Hpos Hbound; simpl.
  - exists s. split; [done|]. split; [|done]. eapply LFU_inv_mono; [|done]. lia.
  - simpl in Hbound.
    destruct (LFU_step_inv bound s o Hinv Hint Hm Hpos) as (s1 & -> & Hinv1 & Hc1); [lia|].
    simpl. pose proof Hc1 as [Hcap1 Hmax1].
    destruct (IH (bound + 1) s1 Hinv1) as (s' & -> & Hinv' & Hc'); [congruence|lia|lia|lia|].
    exists s'. split; [done|]. split.
    + eapply LFU_inv_mono; [|done]. lia.
    + by eapply LFU_same_config_trans.
Qed.

(** Then, and only then, [put] calls [kickOut], and it does so on [s]. *)
Lemma LFU_put_calls_kickOut s key v :
  LFU_reaches_kickOut s key ->
  put s key v
  = s1 ← kickOut s;
    s4 ← LFU.addFreqNum
           (LFU.addToFreqList
              (LFU.set_nodeMap s1 (<[key := LFU.mkNode 1 v]> (LFU._nodeMap s1))) key 1);
    Some (LFU.set_minFreq s4 1).
Proof.
  intros (Hcap & Hfresh & Hfull). unfold LFU.put, LFU.putInternal.
  destruct (Z.eqb_spec (LFU._capacity s) 0) as [?|_]; [done|].
  by rewrite Hfresh, Hfull.
Qed.


End LFU_properties.

(** *** Concrete LFU runs *)

(** Scenario 2 of the specification: capacity 2, key 2 (the lower
    frequency) is the one evicted by [put(3,"c")]. *)
Example LFU_scenario_2 :
  exists s,
    LFU.run 0 (LFU.new 2 10)
      [LFU.Put 1 "a"; LFU.Put 2 "b"; LFU.Get 1; LFU.Get 1; LFU.Get 2; LFU.Put 3 "c"]%string
    = Some s
    /\ LFU.value <$> LFU._nodeMap s !! 1 = Some "a"%string
    /\ LFU._nodeMap s !! 2 = None
    /\ LFU.value <$> LFU._nodeMap s !! 3 = Some "c"%string.
Proof. eexists. split; [vm_compute; reflexivity|]. vm_compute. done. Qed.



(** C6 at scenario 3 of the specification ([maxAverage = 2], capacity 3):
    keys 1, 2, 3 inserted and key 1 read five times; counting one more
    access brings the average to 3. *)
Lemma C6_lfu_ageing_witness :
  exists s,
    LFU.run 0 (LFU.new 3 2)
      [LFU.Put 1 "a"; LFU.Put 2 "b"; LFU.Put 3 "c";
       LFU.Get 1; LFU.Get 1; LFU.Get 1; LFU.Get 1; LFU.Get 1]%string = Some s
    /\ exists s', LFU.addFreqNum s = Some s'
      /\ (forall k, LFU._nodeMap s' !! k
                    = LFU_clampedNode (LFU._maxAverageNum s) <$> LFU._nodeMap s !! k)
      /\ LFU_sync s'
      /\ LFU.smallestNonEmpty s' (LFU._minFreq s')
      /\ (forall t : LFU.LFUCache Z string,
            (forall f, ~ LFU.nonEmptyList t f) -> LFU._minFreq (LFU.updateMinFreq t) = 1).
Proof.
  destruct (LFU_run_inv 0
              [LFU.Put 1 "a"; LFU.Put 2 "b"; LFU.Put 3 "c";
               LFU.Get 1; LFU.Get 1; LFU.Get 1; LFU.Get 1; LFU.Get 1]%string
              0 (LFU.new 3 2))
    as (s & Hrun & (Hs & _ & Hb) & [_ Hmax]).
  - by apply LFU_empty_inv.
  - unfold int_range. simpl. lia.
  - simpl. lia.
  - lia.
  - vm_compute. reflexivity.
  - exists s. split; [exact Hrun|]. simpl in Hmax.
    assert (LFU._nodeMap s !! 1 = Some (LFU.mkNode 6 "a"%string)
            /\ LFU._curTotalNum s = 8 /\ size (LFU._nodeMap s) = 3%nat)
      as (Hone & Htotal & Hsize).
    { vm_compute in Hrun. injection Hrun as <-. by vm_compute. }
    apply (C6_lfu_ageing_pass s).
    + exact Hs.
    + by eapply LFU_nonempty_lookup.
    + intros k n Hn. apply Hb in Hn. rewrite Hmax. simpl in Hn.
      change (2 ÷ 2) with 1. unfold LFU.INT_MAX. lia.
    + unfold LFU.average, LFU.nodeMap_size.
      rewrite decide_False by by eapply LFU_nonempty_lookup.
      rewrite Hmax, Htotal, Hsize. by vm_compute.
Defined.

(** ** The facade: what holds of every engine *)

Section Facade_properties.
Context {Key : Type} `{Countable Key} {Value : Type}.
Variable Key_default : Key.
Variable Value_default : Value.
Variable count_default : Z.

Lemma LRU_put_capacity (c : LRU.LRUCache Key Value) key value :
  LRU._capacity (LRU.put c key value) = LRU._capacity c.
Proof.
  unfold LRU.put. destruct (_ <=? 0); [done|].
  by destruct (LRU.nodeMap_find c key).
Qed.

Lemma LRU_run_capacity (c : LRU.LRUCache Key Value) ops :
  LRU._capacity (LRU.run c ops) = LRU._capacity c.
Proof.
  revert c. induction ops as [|[key value|key|key] ops IH]; intros c; simpl; [done|..];
    rewrite IH.
  - apply LRU_put_capacity.
  - unfold LRU.get. by destruct (LRU.nodeMap_find c key).
  - unfold LRU.remove. by destruct (LRU.nodeMap_find c key).
Qed.





End Facade_properties.

(** *** Concrete runs through the facade *)




(** * Further properties of the engines *)

Section FIFO_properties.
Implicit Types (c : FIFO.FIFOCache) (p : Z) (pages : list Z).

Lemma to_size_t_int_pos z : 0 <= z -> int_range z -> to_size_t z = z.
Proof. unfold int_range. intros ? ?. apply to_size_t_small. lia. Qed.

Lemma FIFO_new_inv cap : 0 <= cap -> FIFO_inv (FIFO.new cap).
Proof.
  intros Hcap. unfold FIFO_inv; simpl. split; [constructor|]. split; [done|].
  unfold zlength; simpl. lia.
Qed.

Lemma FIFO_inv_elem c p : FIFO_inv c -> (p ∈ FIFO.pageSet c <-> p ∈ FIFO.pageQueue c).
Proof. intros (_ & -> & _). apply elem_of_list_to_set. Qed.

(** One access in a state in good order, capacity at least 1. *)
Lemma FIFO_accessPage_inv c p :
  FIFO_inv c -> 1 <= FIFO.capacity c -> int_range (FIFO.capacity c) ->
  exists c' b, FIFO.accessPage c p = Some (c', b)
    /\ FIFO_inv c' /\ FIFO.capacity c' = FIFO.capacity c
    /\ (b = false -> p ∈ FIFO.pageQueue c /\ c' = c)
    /\ (b = true -> (p ∉ FIFO.pageQueue c)
          /\ FIFO.pageQueue c' =
               (if zlength (FIFO.pageQueue c) =? FIFO.capacity c
                then tail (FIFO.pageQueue c) else FIFO.pageQueue c) ++ [p]).
Proof.
  intros Hinv Hcap Hint. pose proof Hinv as (Hnd & Hset & Hlen).
  unfold FIFO.accessPage. rewrite to_size_t_int_pos by (lia || done).
  destruct (decide (p ∈ FIFO.pageSet c)) as [Hin|Hout].
  { exists c, false. split; [done|]. split; [done|]. split; [done|].
    split; [|done]. intros _. split; [|done]. by apply FIFO_inv_elem. }
  assert (p ∉ FIFO.pageQueue c) as Hq by (by rewrite <- FIFO_inv_elem).
  destruct (zlength (FIFO.pageQueue c) =? FIFO.capacity c) eqn:Hfull.
  - apply Z.eqb_eq in Hfull. unfold FIFO.evictOldest.
    destruct (FIFO.pageQueue c) as [|old rest] eqn:Hqueue.
    { unfold zlength in Hfull; simpl in Hfull. lia. }
    simpl. eexists _, true. split; [done|].
    apply NoDup_cons in Hnd as [Hold Hrest].
    pose proof Hq as [Hne Hq']%not_elem_of_cons.
    split; [|by repeat split].
    unfold FIFO_inv; simpl. split; [|split].
    + apply NoDup_app. split; [done|]. split; [|apply NoDup_singleton].
      intros x Hx ->%list_elem_of_singleton. done.
    + rewrite Hset. simpl. rewrite list_to_set_app_L. simpl.
      apply set_eq. intros x. rewrite !elem_of_union, elem_of_difference,
        !elem_of_union, !elem_of_singleton, elem_of_empty, !elem_of_list_to_set.
      split.
      * intros [->|[[->|Hx] Hn]]; [by right; left | done | by left].
      * intros [Hx|[->|[]]]; [|by left].
        right. split; [by right|]. intros ->. done.
    + unfold zlength in *. rewrite length_app. simpl in *. lia.
  - apply Z.eqb_neq in Hfull. simpl. eexists _, true. split; [done|].
    split; [|by repeat split].
    unfold FIFO_inv; simpl. split; [|split].
    + apply NoDup_app. split; [done|]. split; [|apply NoDup_singleton].
      intros x Hx ->%list_elem_of_singleton. done.
    + rewrite Hset, list_to_set_app_L. simpl.
      rewrite (right_id_L ∅ (∪)). apply (comm_L (∪)).
    + unfold zlength in *. rewrite length_app. simpl. lia.
Qed.


Lemma lastn_short {A} (n : nat) (l : list A) : (length l <= n)%nat -> lastn n l = l.
Proof. intros Hl. unfold lastn. replace (length l - n)%nat with 0%nat by lia. done. Qed.

Lemma lastn_cons_full {A} (n : nat) (x : A) (l : list A) :
  (n <= length l)%nat -> lastn n (x :: l) = lastn n l.
Proof.
  intros Hl. unfold lastn. simpl length.
  replace (S (length l) - n)%nat with (S (length l - n)) by lia. done.
Qed.

(** A run from a state in good order: it runs to its end, keeps the good
    order, and the queue is the last [capacity] pages of the queue before
    followed by the pages that faulted. *)
Lemma FIFO_run_inv pages : forall c,
  FIFO_inv c -> 1 <= FIFO.capacity c -> int_range (FIFO.capacity c) ->
  exists c' faults, FIFO.run c pages = Some (c', faults)
    /\ FIFO_inv c' /\ FIFO.capacity c' = FIFO.capacity c
    /\ FIFO.pageQueue c' =
         lastn (Z.to_nat (FIFO.capacity c)) (FIFO.pageQueue c ++ faults).
Proof.
  induction pages as [|p pages IH]; intros c Hinv Hcap Hint.
  { exists c, []. split; [done|]. split; [done|]. split; [done|].
    rewrite app_nil_r, lastn_short; [done|].
    destruct Hinv as (_ & _ & Hlen). unfold zlength in Hlen. lia. }
  destruct (FIFO_accessPage_inv c p Hinv Hcap Hint)
    as (c1 & b & Hacc & Hinv1 & Hcap1 & Hhit & Hfault).
  destruct (IH c1 Hinv1) as (c' & faults & Hrun & Hinv' & Hcap' & Hq');
    [by rewrite Hcap1 | by rewrite Hcap1 |].
  simpl. rewrite Hacc. simpl. rewrite Hrun. simpl.
  eexists _, _. split; [done|]. split; [done|]. split; [congruence|].
  rewrite Hq', Hcap1. destruct b.
  - destruct (Hfault eq_refl) as [Hout ->].
    destruct (zlength (FIFO.pageQueue c) =? FIFO.capacity c) eqn:Hfull.
    + apply Z.eqb_eq in Hfull.
      destruct (FIFO.pageQueue c) as [|old rest].
      { unfold zlength in Hfull; simpl in Hfull. lia. }
      simpl tail. rewrite <- app_assoc. simpl.
      rewrite lastn_cons_full; [done|].
      unfold zlength in Hfull. simpl in Hfull. rewrite length_app. simpl. lia.
    + by rewrite <- app_assoc.
  - destruct (Hhit eq_refl) as [_ ->]. done.
Qed.


(** X1: a [FIFOCache] built with a capacity from 1 to [INT_MAX]
    serves every sequence of page requests (no request reads the front of
    an empty queue), and afterwards the queue holds no page twice, the set
    holds exactly the queued pages, and [getCurrentSize()] is at most
    [getCapacity()]. *)
Theorem FIFO_run_within_capacity (cap : Z) pages :
  1 <= cap -> int_range cap ->
  exists c faults,
    FIFO.run (FIFO.new cap) pages = Some (c, faults)
    /\ NoDup (FIFO.displayCache c)
    /\ (forall p, p ∈ FIFO.pageSet c <-> p ∈ FIFO.displayCache c)
    /\ FIFO.getCapacity c = cap
    /\ 0 <= FIFO.getCurrentSize c <= FIFO.getCapacity c.
Proof.
  intros Hcap Hint.
  destruct (FIFO_run_inv pages (FIFO.new cap)) as (c & faults & Hrun & Hinv & Hc & _);
    [apply FIFO_new_inv; lia | done | done |].
  exists c, faults. split; [done|]. pose proof Hinv as (Hnd & _ & Hlen).
  split; [done|]. split; [intros p; by apply FIFO_inv_elem|].
  simpl in Hc. split; [done|].
  unfold FIFO.getCurrentSize, FIFO.getCapacity, to_int.
  rewrite Hc in *. unfold int_range in Hint. unfold zlength in *.
  rewrite Z.mod_small; lia.
Qed.

(** X2: in every state such a cache reaches, [accessPage(p)] reports
    a fault exactly when [p] was not cached; on a hit the cache is left as
    it was (a hit does not renew the page's place in the queue); on a
    fault [p] joins the back of the queue, after the front page has been
    dropped if the queue was full; [p] is cached afterwards either way. *)
Theorem FIFO_accessPage_fault_iff_absent (cap : Z) pages p :
  1 <= cap -> int_range cap ->
  exists c faults c' fault,
    FIFO.run (FIFO.new cap) pages = Some (c, faults)
    /\ FIFO.accessPage c p = Some (c', fault)
    /\ (fault = true <-> p ∉ FIFO.displayCache c)
    /\ (fault = false -> c' = c)
    /\ (fault = true ->
        FIFO.displayCache c' =
          (if FIFO.getCurrentSize c =? FIFO.getCapacity c
           then tail (FIFO.displayCache c) else FIFO.displayCache c) ++ [p])
    /\ p ∈ FIFO.displayCache c'.
Proof.
  intros Hcap Hint.
  destruct (FIFO_run_inv pages (FIFO.new cap)) as (c & faults & Hrun & Hinv & Hc & _);
    [apply FIFO_new_inv; lia | done | done |].
  simpl in Hc.
  destruct (FIFO_accessPage_inv c p Hinv) as (c' & b & Hacc & Hinv' & Hc' & Hhit & Hfault);
    [by rewrite Hc | by rewrite Hc |].
  exists c, faults, c', b. split; [done|]. split; [done|].
  assert (FIFO.getCurrentSize c = zlength (FIFO.pageQueue c)) as Hsize.
  { destruct Hinv as (_ & _ & Hlen). unfold FIFO.getCurrentSize, to_int.
    rewrite Hc in *. unfold int_range in Hint. unfold zlength in *.
    rewrite Z.mod_small; lia. }
  unfold FIFO.displayCache, FIFO.getCapacity. rewrite Hsize.
  destruct b.
  - destruct (Hfault eq_refl) as [Hout Hq]. split; [done|]. split; [done|].
    split; [done|]. rewrite Hq. apply elem_of_app. right. by apply list_elem_of_singleton.
  - destruct (Hhit eq_refl) as [Hin ->]. split; [|done]. split; [done|].
    intros Hout. done.
Qed.

(** X3: first in, first out.  After any sequence of requests the
    queue of such a cache is the last [capacity] of the pages that faulted,
    in the order in which they faulted. *)
Theorem FIFO_queue_is_latest_faults (cap : Z) pages :
  1 <= cap -> int_range cap ->
  exists c faults,
    FIFO.run (FIFO.new cap) pages = Some (c, faults)
    /\ FIFO.displayCache c = lastn (Z.to_nat cap) faults.
Proof.
  intros Hcap Hint.
  destruct (FIFO_run_inv pages (FIFO.new cap)) as (c & faults & Hrun & _ & _ & Hq);
    [apply FIFO_new_inv; lia | done | done |].
  by exists c, faults.
Qed.

(** A run of a cache of negative capacity: the queue never reaches the
    capacity as the comparison reads it, so nothing is dropped. *)
Lemma FIFO_run_unbounded pages : forall c,
  NoDup (FIFO.pageQueue c) ->
  FIFO.pageSet c = list_to_set (FIFO.pageQueue c) ->
  FIFO.capacity c < 0 -> int_range (FIFO.capacity c) ->
  zlength (FIFO.pageQueue c) + zlength pages < 2 ^ 63 ->
  exists c' faults, FIFO.run c pages = Some (c', faults)
    /\ FIFO.pageQueue c' = FIFO.pageQueue c ++ faults
    /\ NoDup (FIFO.pageQueue c')
    /\ forall p, p ∈ pages -> p ∈ FIFO.pageQueue c'.
Proof.
  induction pages as [|p pages IH]; intros c Hnd Hset Hneg Hint Hlen.
  { exists c, []. split; [done|]. rewrite app_nil_r. split; [done|]. split; [done|].
    intros p Hp. by apply elem_of_nil in Hp. }
  assert ((zlength (FIFO.pageQueue c) =? to_size_t (FIFO.capacity c)) = false) as Hfull.
  { apply Z.eqb_neq. unfold to_size_t, int_range, zlength in *.
    rewrite <- (Z.mod_add _ 1) by lia. rewrite Z.mod_small; lia. }
  unfold zlength in Hlen. simpl in Hlen.
  simpl. unfold FIFO.accessPage. rewrite Hfull.
  destruct (decide (p ∈ FIFO.pageSet c)) as [Hin|Hout].
  - destruct (IH c) as (c' & faults & Hrun & Hq & Hnd' & Hall); try done.
    { unfold zlength. lia. }
    simpl. rewrite Hrun. simpl. exists c', faults. split; [done|]. split; [done|].
    split; [done|]. intros x [->|Hx]%elem_of_cons; [|by apply Hall].
    rewrite Hq. apply elem_of_app. left.
    rewrite Hset in Hin. by apply elem_of_list_to_set in Hin.
  - simpl.
    match goal with |- context [FIFO.run ?c1 pages] =>
      destruct (IH c1) as (c' & faults & Hrun & Hq & Hnd' & Hall) end; simpl; try done.
    { apply NoDup_app. split; [done|]. split; [|apply NoDup_singleton].
      intros x Hx ->%list_elem_of_singleton. apply Hout. rewrite Hset.
      by apply elem_of_list_to_set. }
    { rewrite Hset, list_to_set_app_L. simpl.
      rewrite (right_id_L ∅ (∪)). apply (comm_L (∪)). }
    { unfold zlength. rewrite length_app. simpl. lia. }
    rewrite Hrun. simpl. exists c', (p :: faults). split; [done|].
    simpl in Hq. rewrite <- app_assoc in Hq. split; [done|]. split; [done|].
    intros x [->|Hx]%elem_of_cons; [|by apply Hall].
    rewrite Hq. apply elem_of_app. right. by left.
Qed.

(** X4: a capacity that is not positive.  With capacity 0 the first
    request of a run finds the queue at its capacity and reads the front of
    the empty queue.  With a negative capacity the queue never equals the
    capacity converted to [size_t], so no page is ever dropped: after a run
    (of fewer than [2^63] requests) the queue is exactly the pages that
    faulted and every requested page is cached. *)
Theorem FIFO_capacity_not_positive (cap : Z) p pages :
  (cap = 0 -> FIFO.run (FIFO.new cap) (p :: pages) = None)
  /\ (cap < 0 -> int_range cap -> zlength pages < 2 ^ 63 ->
      exists c faults,
        FIFO.run (FIFO.new cap) pages = Some (c, faults)
        /\ FIFO.displayCache c = faults
        /\ forall x, x ∈ pages -> x ∈ FIFO.displayCache c).
Proof.
  split.
  - intros ->. done.
  - intros Hneg Hint Hlen.
    destruct (FIFO_run_unbounded pages (FIFO.new cap))
      as (c & faults & Hrun & Hq & _ & Hall); simpl; try done.
    { constructor. }
    by exists c, faults.
Qed.

End FIFO_properties.

Lemma FIFO_run_within_capacity_witness :
  exists c faults,
    FIFO.run (FIFO.new 3) [1; 2; 3; 1; 4; 5] = Some (c, faults)
    /\ NoDup (FIFO.displayCache c)
    /\ (forall p, p ∈ FIFO.pageSet c <-> p ∈ FIFO.displayCache c)
    /\ FIFO.getCapacity c = 3
    /\ 0 <= FIFO.getCurrentSize c <= FIFO.getCapacity c.
Proof. apply (FIFO_run_within_capacity 3); [lia | unfold int_range; lia]. Defined.

(** Three frames and the requests 1 2 3 1 4 5: the second request of
    page 1 hits, pages 4 and 5 push out pages 1 and 2. *)
Example FIFO_three_frames :
  FIFO.run (FIFO.new 3) [1; 2; 3; 1; 4; 5]
  = Some ({| FIFO.capacity := 3; FIFO.pageQueue := [3; 4; 5];
             FIFO.pageSet := list_to_set [3; 4; 5] |}, [1; 2; 3; 4; 5]).
Proof. vm_compute. reflexivity. Qed.

Lemma FIFO_accessPage_fault_iff_absent_witness :
  exists c faults c' fault,
    FIFO.run (FIFO.new 2) [1; 2; 3] = Some (c, faults)
    /\ FIFO.accessPage c 1 = Some (c', fault)
    /\ (fault = true <-> 1 ∉ FIFO.displayCache c)
    /\ (fault = false -> c' = c)
    /\ (fault = true ->
        FIFO.displayCache c' =
          (if FIFO.getCurrentSize c =? FIFO.getCapacity c
           then tail (FIFO.displayCache c) else FIFO.displayCache c) ++ [1])
    /\ 1 ∈ FIFO.displayCache c'.
Proof.
  apply (FIFO_accessPage_fault_iff_absent 2); [lia | unfold int_range; lia].
Defined.

Lemma FIFO_queue_is_latest_faults_witness :
  exists c faults,
    FIFO.run (FIFO.new 2) [1; 2; 1; 3] = Some (c, faults)
    /\ FIFO.displayCache c = lastn (Z.to_nat 2) faults.
Proof.
  apply (FIFO_queue_is_latest_faults 2); [lia | unfold int_range; lia].
Defined.

Lemma FIFO_capacity_not_positive_witness :
  FIFO.run (FIFO.new 0) [1] = None
  /\ exists c faults,
       FIFO.run (FIFO.new (-1)) [1; 2; 1] = Some (c, faults)
       /\ FIFO.displayCache c = faults
       /\ forall x, x ∈ [1; 2; 1] -> x ∈ FIFO.displayCache c.
Proof.
  split.
  - by apply (FIFO_capacity_not_positive 0 1 []).
  - apply (FIFO_capacity_not_positive (-1) 1 [1; 2; 1]);
      [lia | unfold int_range; lia | vm_compute; reflexivity].
Defined.

Section HashLRU_properties.
Context {Key : Type} `{EqDecision Key} {Value : Type}.
Variable Hash : Key -> Z.
Variable hardware_concurrency : Z.
Implicit Types (c : HashLRU.HashLRUCache Key Value) (key : Key) (value : Value).
Implicit Types (ops : list (HashLRU.op Key Value)).

Local Abbreviation sliceIndex := (HashLRU.sliceIndex Hash).
Local Abbreviation put := (HashLRU.put Hash).
Local Abbreviation get := (HashLRU.get Hash).
Local Abbreviation step := (HashLRU.step Hash).
Local Abbreviation run := (HashLRU.run Hash).
Local Abbreviation new := (HashLRU.new hardware_concurrency).

Lemma HashLRU_sliceIndex_ext c c' key :
  HashLRU._sliceNum c' = HashLRU._sliceNum c -> sliceIndex c' key = sliceIndex c key.
Proof. unfold HashLRU.sliceIndex. by intros ->. Qed.

(** With a positive number of slices every key has a slice. *)
Lemma HashLRU_sliceIndex_wf c key :
  HashLRU_wf c ->
  exists i slice, sliceIndex c key = Some i /\ HashLRU._LRUSliceCaches c !! i = Some slice.
Proof.
  intros (Hpos & Hint & Hlen). unfold HashLRU.sliceIndex.
  rewrite to_size_t_int_pos by (lia || done).
  destruct (HashLRU._sliceNum c =? 0) eqn:Hz; [lia|].
  pose proof (Z.mod_pos_bound (to_size_t (Hash key)) (HashLRU._sliceNum c) Hpos) as Hb.
  destruct (lookup_lt_is_Some_2 (HashLRU._LRUSliceCaches c)
              (Z.to_nat (to_size_t (Hash key) `mod` HashLRU._sliceNum c))) as [slice Hs].
  { rewrite Hlen. lia. }
  by eexists _, slice.
Qed.

Lemma HashLRU_step_slices c o :
  HashLRU_wf c ->
  exists c' i slice,
    step c o = Some c' /\ HashLRU_wf c'
    /\ HashLRU._sliceNum c' = HashLRU._sliceNum c
    /\ sliceIndex c (HashLRU.op_key o) = Some i
    /\ HashLRU._LRUSliceCaches c !! i = Some slice
    /\ HashLRU._LRUSliceCaches c' =
         <[i := LRU.step slice (HashLRU.slice_op o)]> (HashLRU._LRUSliceCaches c).
Proof.
  intros Hwf. pose proof Hwf as (Hpos & Hint & Hlen).
  destruct (HashLRU_sliceIndex_wf c (HashLRU.op_key o) Hwf) as (i & slice & Hi & Hs).
  destruct o as [key value|key]; simpl in *.
  - unfold HashLRU.put. rewrite Hi. simpl. rewrite Hs. simpl.
    eexists _, i, slice. split; [done|]. split; [|done].
    unfold HashLRU_wf; simpl. by rewrite length_insert.
  - unfold HashLRU.get. rewrite Hi. simpl. rewrite Hs. simpl.
    destruct (LRU.get slice key) as [slice' r] eqn:Hget. simpl.
    eexists _, i, slice. split; [done|]. split; [|by rewrite Hget].
    unfold HashLRU_wf; simpl. by rewrite length_insert.
Qed.

(** A run of the sharded cache is, slice by slice, the run of the
    operations routed to that slice. *)
Lemma HashLRU_run_slices ops : forall c,
  HashLRU_wf c ->
  exists c', run c ops = Some c' /\ HashLRU_wf c'
    /\ HashLRU._sliceNum c' = HashLRU._sliceNum c
    /\ forall i slice, HashLRU._LRUSliceCaches c !! i = Some slice ->
         HashLRU._LRUSliceCaches c' !! i
         = Some (LRU.run slice (HashLRU_routed Hash c i ops)).
Proof.
  induction ops as [|o ops IH]; intros c Hwf.
  { exists c. split; [done|]. split; [done|]. split; [done|].
    intros i slice Hi. rewrite Hi. reflexivity. }
  destruct (HashLRU_step_slices c o Hwf) as (c1 & i & slice & Hstep & Hwf1 & Hn & Hi & Hs & Hc1).
  destruct (IH c1 Hwf1) as (c' & Hrun & Hwf' & Hn' & Hslices).
  exists c'. simpl. rewrite Hstep. simpl. split; [done|]. split; [done|].
  split; [congruence|]. intros j slice_j Hj.
  assert (forall l, HashLRU_routed Hash c1 j l = HashLRU_routed Hash c j l) as Hrouted.
  { intros l. unfold HashLRU_routed, HashLRU.sliceIndex. by rewrite Hn. }
  unfold HashLRU_routed at 1. rewrite filter_cons.
  destruct (decide (sliceIndex c (HashLRU.op_key o) = Some j)) as [Hroute|Hroute].
  - assert (j = i) as -> by congruence. assert (slice_j = slice) as -> by congruence.
    rewrite fmap_cons. simpl. fold (HashLRU_routed Hash c i ops).
    rewrite <- (Hrouted ops). apply Hslices.
    rewrite Hc1. apply list_lookup_insert_eq. by eapply lookup_lt_Some.
  - assert (i <> j) as Hne by congruence.
    fold (HashLRU_routed Hash c j ops). rewrite <- (Hrouted ops). apply Hslices.
    rewrite Hc1. by rewrite list_lookup_insert_ne.
Qed.


Lemma to_int_range z : int_range (to_int z).
Proof.
  unfold int_range, to_int.
  pose proof (Z.mod_pos_bound (z + 2 ^ 31) (2 ^ 32)). lia.
Qed.

(** What the constructor builds, when the slice size is defined and there
    is a slice. *)
Lemma HashLRU_new_wf capacity sliceNum c :
  int_range sliceNum -> new capacity sliceNum = Some c -> 0 < HashLRU._sliceNum c ->
  HashLRU_wf c
  /\ forall slice, slice ∈ HashLRU._LRUSliceCaches c ->
       exists sliceSize, slice = LRU.new sliceSize.
Proof.
  intros Hint Hnew Hpos. unfold HashLRU.new in Hnew.
  destruct (Double.sliceSize _ _) as [sz|]; [|done].
  simpl in Hnew. injection Hnew as <-. simpl in *.
  split.
  - unfold HashLRU_wf; simpl. split; [done|]. split; [|by rewrite length_replicate].
    unfold HashLRU.sliceNum_or_default. destruct (0 <? sliceNum); [done|].
    apply to_int_range.
  - intros slice [-> _]%elem_of_replicate. by eexists.
Qed.

(** X5: the slices of a [HashLRUCache] run independently.  A cache
    the constructor has built with at least one slice serves every
    sequence of [put] and [get]; every key is routed to the slice
    [Hash(key) % _sliceNum], which exists; and afterwards each slice is in
    the state that an [LRUCache] on its own reaches from the slice's
    initial state by the operations on the keys routed to it, in their
    order.  Operations on keys of other slices never touch it. *)
Theorem HashLRU_slices_run_independently (capacity sliceNum : Z) c0 ops :
  int_range sliceNum -> new capacity sliceNum = Some c0 -> 0 < HashLRU._sliceNum c0 ->
  exists c,
    run c0 ops = Some c
    /\ length (HashLRU._LRUSliceCaches c) = Z.to_nat (HashLRU._sliceNum c0)
    /\ (forall key, exists i,
          sliceIndex c0 key = Some i /\ sliceIndex c key = Some i
          /\ (i < length (HashLRU._LRUSliceCaches c))%nat)
    /\ forall i slice0,
         HashLRU._LRUSliceCaches c0 !! i = Some slice0 ->
         HashLRU._LRUSliceCaches c !! i
         = Some (LRU.run slice0 (HashLRU_routed Hash c0 i ops)).
Proof.
  intros Hint Hnew Hpos.
  destruct (HashLRU_new_wf capacity sliceNum c0 Hint Hnew Hpos) as [Hwf _].
  destruct (HashLRU_run_slices ops c0 Hwf) as (c & Hrun & Hwf' & Hn & Hslices).
  exists c. split; [done|]. pose proof Hwf' as (_ & _ & Hlen).
  split; [by rewrite Hlen, Hn|]. split; [|done].
  intros key. destruct (HashLRU_sliceIndex_wf c key Hwf') as (i & slice & Hi & Hs).
  exists i. split; [by rewrite <- (HashLRU_sliceIndex_ext c0 c)|]. split; [done|].
  by eapply lookup_lt_Some.
Qed.

(** X6: [put(k, v)] then [get(k)] on a [HashLRUCache] whose slices
    were built with a capacity of at least 1: in every state the cache
    reaches, both are served, the [get] hits and returns [v]. *)
Theorem HashLRU_put_then_get (capacity sliceNum : Z) c0 ops key value :
  int_range sliceNum -> new capacity sliceNum = Some c0 -> 0 < HashLRU._sliceNum c0 ->
  (forall slice, slice ∈ HashLRU._LRUSliceCaches c0 -> 1 <= LRU._capacity slice) ->
  exists c c1 c2,
    run c0 ops = Some c
    /\ put c key value = Some c1
    /\ get c1 key = Some (c2, Some value).
Proof.
  intros Hint Hnew Hpos Hcap.
  destruct (HashLRU_new_wf capacity sliceNum c0 Hint Hnew Hpos) as [Hwf Hfresh].
  destruct (HashLRU_run_slices ops c0 Hwf) as (c & Hrun & Hwf' & Hn & Hslices).
  destruct (HashLRU_sliceIndex_wf c0 key Hwf) as (i & slice0 & Hi & Hs0).
  pose proof (Hslices i slice0 Hs0) as Hs.
  set (slice := LRU.run slice0 _) in Hs.
  assert (LRU_wf slice /\ 1 <= LRU._capacity slice) as [Hswf Hscap].
  { assert (slice0 ∈ HashLRU._LRUSliceCaches c0) as Hin by (by eapply list_elem_of_lookup_2).
    destruct (Hfresh slice0 Hin) as [sz Hsz]. split.
    - unfold slice. rewrite Hsz. apply LRU_reachable_wf.
    - unfold slice. rewrite LRU_run_capacity. by apply Hcap. }
  assert (sliceIndex c key = Some i) as Hi' by (by rewrite (HashLRU_sliceIndex_ext c0 c)).
  set (c1 := HashLRU.set_slices c
                (<[i := LRU.put slice key value]> (HashLRU._LRUSliceCaches c))).
  assert (put c key value = Some c1) as Hput.
  { unfold HashLRU.put. rewrite Hi'. simpl. by rewrite Hs. }
  assert (sliceIndex c1 key = Some i) as Hi1 by (by rewrite (HashLRU_sliceIndex_ext c c1)).
  pose proof (LRU_put_get slice key value Hswf) as Hget.
  destruct (LRU.get (LRU.put slice key value) key) as [slice' r] eqn:Hg.
  simpl in Hget. rewrite Hget in Hg by lia.
  exists c, c1. eexists. split; [done|]. split; [done|].
  unfold HashLRU.get. rewrite Hi1. simpl.
  rewrite list_lookup_insert_eq by (by eapply lookup_lt_Some). simpl.
  by rewrite Hg.
Qed.

(** X7: the constructor asked for no positive number of slices on a
    platform whose [hardware_concurrency()] is 0 divides the capacity by
    0.0: no slice size is defined and no cache is built. *)
Theorem HashLRU_new_without_slices (capacity sliceNum : Z) :
  sliceNum <= 0 -> to_int hardware_concurrency = 0 ->
  HashLRU.new (Key:=Key) (Value:=Value) hardware_concurrency capacity sliceNum = None.
Proof.
  intros Hn Hhc. unfold HashLRU.new, HashLRU.sliceNum_or_default.
  destruct (Z.ltb_spec 0 sliceNum) as [?|_]; [lia|]. rewrite Hhc.
  unfold Double.sliceSize.
  change (Double.of_Z 0) with (S754_zero false).
  by destruct (Double.of_Z capacity) as [[]|[]| |[] m e].
Qed.

End HashLRU_properties.

Lemma HashLRU_slices_run_independently_witness :
  let Hash := fun k : Z => k in
  let c0 := HashLRU.mkCache 10 3 (replicate 3 (LRU.new (Key:=Z) (Value:=Z) 4)) in
  let ops := [HashLRU.Put 1 10; HashLRU.Put 2 20; HashLRU.Get 1; HashLRU.Put 4 40] in
  HashLRU.new 8 10 3 = Some c0
  /\ exists c,
       HashLRU.run Hash c0 ops = Some c
       /\ length (HashLRU._LRUSliceCaches c) = Z.to_nat (HashLRU._sliceNum c0)
       /\ (forall key, exists i,
             HashLRU.sliceIndex Hash c0 key = Some i /\ HashLRU.sliceIndex Hash c key = Some i
             /\ (i < length (HashLRU._LRUSliceCaches c))%nat)
       /\ forall i slice0,
            HashLRU._LRUSliceCaches c0 !! i = Some slice0 ->
            HashLRU._LRUSliceCaches c !! i
            = Some (LRU.run slice0 (HashLRU_routed Hash c0 i ops)).
Proof.
  intros Hash c0 ops.
  assert (HashLRU.new 8 10 3 = Some c0) as Hnew by (vm_compute; reflexivity).
  split; [exact Hnew|].
  apply (HashLRU_slices_run_independently Hash 8 10 3 c0 ops);
    [unfold int_range; lia | exact Hnew | simpl; lia].
Defined.

Lemma HashLRU_put_then_get_witness :
  let Hash := fun k : Z => k in
  let c0 := HashLRU.mkCache 10 3 (replicate 3 (LRU.new (Key:=Z) (Value:=Z) 4)) in
  HashLRU.new 8 10 3 = Some c0
  /\ exists c c1 c2,
       HashLRU.run Hash c0 [HashLRU.Put 1 10; HashLRU.Get 2] = Some c
       /\ HashLRU.put Hash c 5 50 = Some c1
       /\ HashLRU.get Hash c1 5 = Some (c2, Some 50).
Proof.
  intros Hash c0.
  assert (HashLRU.new 8 10 3 = Some c0) as Hnew by (vm_compute; reflexivity).
  split; [exact Hnew|].
  apply (HashLRU_put_then_get Hash 8 10 3 c0); [unfold int_range; lia | exact Hnew | simpl; lia |].
  intros slice Hin. apply elem_of_replicate in Hin as [-> _]. simpl. lia.
Defined.

Lemma HashLRU_new_without_slices_witness :
  HashLRU.new (Key:=Z) (Value:=Z) 0 10 0 = None.
Proof. apply HashLRU_new_without_slices; [lia | reflexivity]. Defined.

Section HashLFU_properties.
Context {Key : Type} `{Countable Key} {Value : Type}.
Variable Hash : Key -> Z.
Variable hardware_concurrency : Z.
Variable Key_default : Key.
Implicit Types (c : HashLFU.HashLFUCache Key Value) (key : Key) (value : Value).
Implicit Types (ops : list (HashLFU.op Key Value)).

Local Abbreviation sliceIndex := (HashLFU.sliceIndex Hash).
Local Abbreviation put := (HashLFU.put Hash Key_default).
Local Abbreviation get := (HashLFU.get Hash).
Local Abbreviation step := (HashLFU.step Hash Key_default).
Local Abbreviation run := (HashLFU.run Hash Key_default).
Local Abbreviation new := (HashLFU.new hardware_concurrency).

Lemma HashLFU_sliceIndex_wf c key :
  HashLFU_wf c ->
  exists i slice, sliceIndex c key = Some i /\ HashLFU._LFUSliceCaches c !! i = Some slice.
Proof.
  intros (Hpos & Hint & Hlen & _). unfold HashLFU.sliceIndex.
  rewrite to_size_t_int_pos by (lia || done).
  destruct (HashLFU._sliceNum c =? 0) eqn:Hz; [lia|].
  pose proof (Z.mod_pos_bound (to_size_t (Hash key)) (HashLFU._sliceNum c) Hpos) as Hb.
  destruct (lookup_lt_is_Some_2 (HashLFU._LFUSliceCaches c)
              (Z.to_nat (to_size_t (Hash key) `mod` HashLFU._sliceNum c))) as [slice Hs].
  { rewrite Hlen. lia. }
  by eexists _, slice.
Qed.

Lemma HashLFU_insert_wf c i slice slice' :
  HashLFU_wf c -> HashLFU._LFUSliceCaches c !! i = Some slice ->
  LFU_listed slice' -> LFU_same_config slice slice' ->
  HashLFU_wf (HashLFU.set_slices c (<[i := slice']> (HashLFU._LFUSliceCaches c))).
Proof.
  intros (Hpos & Hint & Hlen & Hall) Hs Hl [Hcap _].
  unfold HashLFU_wf; simpl. split; [done|]. split; [done|].
  split; [by rewrite length_insert|].
  intros x [j Hj]%list_elem_of_lookup_1.
  apply list_lookup_insert_Some in Hj as [(-> & -> & _)|[_ Hj]].
  - split; [done|]. rewrite Hcap. apply Hall. by eapply list_elem_of_lookup_2.
  - apply Hall. by eapply list_elem_of_lookup_2.
Qed.

(** A run of the sharded cache is, slice by slice, the run of the
    operations that reach that slice. *)
Lemma HashLFU_run_slices ops : forall c,
  HashLFU_wf c ->
  exists c', run c ops = Some c' /\ HashLFU_wf c'
    /\ HashLFU._sliceNum c' = HashLFU._sliceNum c
    /\ forall i slice, HashLFU._LFUSliceCaches c !! i = Some slice ->
         exists slice',
           LFU.run Key_default slice (HashLFU_routed Hash c i ops) = Some slice'
           /\ HashLFU._LFUSliceCaches c' !! i = Some slice'.
Proof.
  induction ops as [|o ops IH]; intros c Hwf.
  { exists c. split; [done|]. split; [done|]. split; [done|].
    intros i slice Hi. by exists slice. }
  assert (forall c1 j l, HashLFU._sliceNum c1 = HashLFU._sliceNum c ->
            HashLFU_routed Hash c1 j l = HashLFU_routed Hash c j l) as Hrouted.
  { intros c1 j l Hn. unfold HashLFU_routed, HashLFU.slice_op, HashLFU.sliceIndex.
    by rewrite Hn. }
  pose proof Hwf as (Hpos & Hint & Hlen & Hall).
  destruct o as [key value|key|].
  - destruct (HashLFU_sliceIndex_wf c key Hwf) as (i & slice & Hi & Hs).
    destruct (Hall slice) as [Hl Hc]; [by eapply list_elem_of_lookup_2|].
    destruct (LFU_put_listed Key_default slice key value Hl Hc)
      as (slice1 & Hput & Hl1 & Hc1 & _).
    set (c1 := HashLFU.set_slices c (<[i := slice1]> (HashLFU._LFUSliceCaches c))).
    destruct (IH c1) as (c' & Hrun & Hwf' & Hn' & Hslices).
    { by eapply HashLFU_insert_wf. }
    exists c'. simpl. unfold HashLFU.put. rewrite Hi. simpl. rewrite Hs. simpl.
    rewrite Hput. simpl. split; [done|]. split; [done|]. split; [done|].
    intros j slice_j Hj. unfold HashLFU_routed. simpl.
    case_bool_decide as Hroute.
    + assert (j = i) as -> by congruence. assert (slice_j = slice) as -> by congruence.
      simpl. rewrite Hput. simpl.
      fold (HashLFU_routed Hash c i ops). rewrite <- (Hrouted c1) by done.
      apply Hslices. simpl. apply list_lookup_insert_eq. by eapply lookup_lt_Some.
    + fold (HashLFU_routed Hash c j ops). rewrite <- (Hrouted c1) by done.
      apply Hslices. simpl. rewrite list_lookup_insert_ne by congruence. done.
  - destruct (HashLFU_sliceIndex_wf c key Hwf) as (i & slice & Hi & Hs).
    destruct (Hall slice) as [Hl Hc]; [by eapply list_elem_of_lookup_2|].
    destruct (LFU_get_listed slice key Hl) as (slice1 & r & Hget & Hl1 & Hc1 & _).
    set (c1 := HashLFU.set_slices c (<[i := slice1]> (HashLFU._LFUSliceCaches c))).
    destruct (IH c1) as (c' & Hrun & Hwf' & Hn' & Hslices).
    { by eapply HashLFU_insert_wf. }
    exists c'. simpl. unfold HashLFU.get. rewrite Hi. simpl. rewrite Hs. simpl.
    rewrite Hget. simpl. split; [done|]. split; [done|]. split; [done|].
    intros j slice_j Hj. unfold HashLFU_routed. simpl.
    case_bool_decide as Hroute.
    + assert (j = i) as -> by congruence. assert (slice_j = slice) as -> by congruence.
      simpl. rewrite Hget. simpl.
      fold (HashLFU_routed Hash c i ops). rewrite <- (Hrouted c1) by done.
      apply Hslices. simpl. apply list_lookup_insert_eq. by eapply lookup_lt_Some.
    + fold (HashLFU_routed Hash c j ops). rewrite <- (Hrouted c1) by done.
      apply Hslices. simpl. rewrite list_lookup_insert_ne by congruence. done.
  - destruct (IH (HashLFU.purge c)) as (c' & Hrun & Hwf' & Hn' & Hslices).
    { unfold HashLFU_wf; simpl. split; [done|]. split; [done|].
      split; [by rewrite length_fmap|].
      intros x (y & -> & Hy)%list_elem_of_fmap. split; [apply LFU_purge_listed|].
      simpl. by apply Hall. }
    exists c'. simpl. split; [done|]. split; [done|]. split; [done|].
    intros j slice_j Hj. unfold HashLFU_routed. simpl.
    fold (HashLFU_routed Hash c j ops). rewrite <- (Hrouted (HashLFU.purge c)) by done.
    apply Hslices. simpl. by rewrite list_lookup_fmap, Hj.
Qed.


Lemma HashLFU_new_wf capacity sliceNum maxAverageNum c :
  int_range sliceNum -> new capacity sliceNum maxAverageNum = Some c ->
  0 < HashLFU._sliceNum c ->
  HashLFU_wf c.
Proof.
  intros Hint Hnew Hpos. unfold HashLFU.new in Hnew.
  destruct (Double.sliceSize _ _) as [sz|]; [|done].
  simpl in Hnew. injection Hnew as <-. simpl in *.
  unfold HashLFU_wf; simpl. split; [done|]. split; [|split].
  - unfold HashLFU.sliceNum_or_default. destruct (0 <? sliceNum); [done|].
    apply to_int_range.
  - by rewrite length_replicate.
  - intros slice [-> _]%elem_of_replicate. split; [apply LFU_new_listed|].
    simpl. apply to_int_range.
Qed.

(** X8: the slices of a [HashLFUCache] run independently.  A cache
    the constructor has built with at least one slice serves every
    sequence of [put], [get] and [purge], and afterwards each slice is in
    the state that an [LFUCache] on its own reaches from the slice's initial
    state by the operations that reach it, in their order: the [put]s and
    [get]s on the keys with [Hash(key) % _sliceNum] equal to its index, and
    every [purge]. *)
Theorem HashLFU_slices_run_independently (capacity sliceNum maxAverageNum : Z) c0 ops :
  int_range sliceNum -> new capacity sliceNum maxAverageNum = Some c0 ->
  0 < HashLFU._sliceNum c0 ->
  exists c,
    run c0 ops = Some c
    /\ length (HashLFU._LFUSliceCaches c) = Z.to_nat (HashLFU._sliceNum c0)
    /\ forall i slice0,
         HashLFU._LFUSliceCaches c0 !! i = Some slice0 ->
         exists slice,
           LFU.run Key_default slice0 (HashLFU_routed Hash c0 i ops) = Some slice
           /\ HashLFU._LFUSliceCaches c !! i = Some slice.
Proof.
  intros Hint Hnew Hpos.
  pose proof (HashLFU_new_wf capacity sliceNum maxAverageNum c0 Hint Hnew Hpos) as Hwf.
  destruct (HashLFU_run_slices ops c0 Hwf) as (c & Hrun & Hwf' & Hn & Hslices).
  exists c. split; [done|]. destruct Hwf' as (_ & _ & Hlen & _).
  split; [by rewrite Hlen, Hn | done].
Qed.

(** X9: [purge()] empties the cache.  In every state a
    [HashLFUCache] reaches, after [purge()] a [get] of any key is served,
    misses, and leaves the cache as [purge()] left it. *)
Theorem HashLFU_purge_then_get_misses (capacity sliceNum maxAverageNum : Z) c0 ops key :
  int_range sliceNum -> new capacity sliceNum maxAverageNum = Some c0 ->
  0 < HashLFU._sliceNum c0 ->
  exists c,
    run c0 ops = Some c
    /\ get (HashLFU.purge c) key = Some (HashLFU.purge c, None).
Proof.
  intros Hint Hnew Hpos.
  pose proof (HashLFU_new_wf capacity sliceNum maxAverageNum c0 Hint Hnew Hpos) as Hwf.
  destruct (HashLFU_run_slices ops c0 Hwf) as (c & Hrun & Hwf' & Hn & Hslices).
  exists c. split; [done|].
  destruct (HashLFU_sliceIndex_wf c key Hwf') as (i & slice & Hi & Hs).
  unfold HashLFU.get.
  assert (sliceIndex (HashLFU.purge c) key = Some i) as -> by done.
  simpl. rewrite list_lookup_fmap, Hs. simpl.
  unfold LFU.get. simpl. rewrite lookup_empty. simpl.
  unfold HashLFU.set_slices, HashLFU.purge. simpl.
  rewrite list_insert_id; [done|]. by rewrite list_lookup_fmap, Hs.
Qed.

(** X10: [put(k, v)] then [get(k)] on a [HashLFUCache] whose slices
    were built with a capacity other than 0: in every state the cache
    reaches, both are served, the [get] hits and returns [v]. *)
Theorem HashLFU_put_then_get (capacity sliceNum maxAverageNum : Z) c0 ops key value :
  int_range sliceNum -> new capacity sliceNum maxAverageNum = Some c0 ->
  0 < HashLFU._sliceNum c0 ->
  (forall slice, slice ∈ HashLFU._LFUSliceCaches c0 -> LFU._capacity slice <> 0) ->
  exists c c1 c2,
    run c0 ops = Some c
    /\ put c key value = Some c1
    /\ get c1 key = Some (c2, Some value).
Proof.
  intros Hint Hnew Hpos Hcap.
  pose proof (HashLFU_new_wf capacity sliceNum maxAverageNum c0 Hint Hnew Hpos) as Hwf.
  destruct (HashLFU_run_slices ops c0 Hwf) as (c & Hrun & Hwf' & Hn & Hslices).
  destruct (HashLFU_sliceIndex_wf c0 key Hwf) as (i & slice0 & Hi & Hs0).
  destruct (Hslices i slice0 Hs0) as (slice & Hsrun & Hs).
  pose proof Hwf as (_ & _ & _ & Hall0). pose proof Hwf' as (_ & _ & _ & Hall).
  destruct (Hall0 slice0) as [Hl0 Hc0]; [by eapply list_elem_of_lookup_2|].
  destruct (Hall slice) as [Hl Hc]; [by eapply list_elem_of_lookup_2|].
  destruct (LFU_run_listed Key_default slice0 (HashLFU_routed Hash c0 i ops) Hl0 Hc0)
    as (slice_ & Hsrun' & _ & [Hsame _]).
  assert (slice_ = slice) as -> by congruence.
  destruct (LFU_put_get Key_default slice key value Hl Hc) as (s1 & s2 & Hput & Hget).
  { rewrite Hsame. apply Hcap. by eapply list_elem_of_lookup_2. }
  assert (sliceIndex c key = Some i) as Hi'.
  { unfold HashLFU.sliceIndex in *. by rewrite Hn. }
  set (c1 := HashLFU.set_slices c (<[i := s1]> (HashLFU._LFUSliceCaches c))).
  exists c, c1. eexists. split; [done|]. split.
  - unfold HashLFU.put. rewrite Hi'. simpl. rewrite Hs. simpl. by rewrite Hput.
  - unfold HashLFU.get. assert (sliceIndex c1 key = Some i) as -> by done.
    simpl. rewrite list_lookup_insert_eq by (by eapply lookup_lt_Some). simpl.
    rewrite Hget. simpl. done.
Qed.

End HashLFU_properties.

Lemma HashLFU_slices_run_independently_witness :
  let Hash := fun k : Z => k in
  let c0 := HashLFU.mkCache 10 3 (replicate 3 (LFU.new (Key:=Z) (Value:=Z) 4 10)) in
  let ops := [HashLFU.Put 1 10; HashLFU.Put 2 20; HashLFU.Get 1; HashLFU.Purge;
              HashLFU.Put 4 40] in
  HashLFU.new 8 10 3 10 = Some c0
  /\ exists c,
       HashLFU.run Hash 0 c0 ops = Some c
       /\ length (HashLFU._LFUSliceCaches c) = Z.to_nat (HashLFU._sliceNum c0)
       /\ forall i slice0,
            HashLFU._LFUSliceCaches c0 !! i = Some slice0 ->
            exists slice,
              LFU.run 0 slice0 (HashLFU_routed Hash c0 i ops) = Some slice
              /\ HashLFU._LFUSliceCaches c !! i = Some slice.
Proof.
  intros Hash c0 ops.
  assert (HashLFU.new 8 10 3 10 = Some c0) as Hnew by (vm_compute; reflexivity).
  split; [exact Hnew|].
  apply (HashLFU_slices_run_independently Hash 8 0 10 3 10 c0 ops);
    [unfold int_range; lia | exact Hnew | simpl; lia].
Defined.

Lemma HashLFU_purge_then_get_misses_witness :
  let Hash := fun k : Z => k in
  let c0 := HashLFU.mkCache 10 3 (replicate 3 (LFU.new (Key:=Z) (Value:=Z) 4 10)) in
  HashLFU.new 8 10 3 10 = Some c0
  /\ exists c,
       HashLFU.run Hash 0 c0 [HashLFU.Put 1 10; HashLFU.Put 2 20] = Some c
       /\ HashLFU.get Hash (HashLFU.purge c) 1 = Some (HashLFU.purge c, None).
Proof.
  intros Hash c0.
  assert (HashLFU.new 8 10 3 10 = Some c0) as Hnew by (vm_compute; reflexivity).
  split; [exact Hnew|].
  apply (HashLFU_purge_then_get_misses Hash 8 0 10 3 10 c0);
    [unfold int_range; lia | exact Hnew | simpl; lia].
Defined.

Lemma HashLFU_put_then_get_witness :
  let Hash := fun k : Z => k in
  let c0 := HashLFU.mkCache 10 3 (replicate 3 (LFU.new (Key:=Z) (Value:=Z) 4 10)) in
  HashLFU.new 8 10 3 10 = Some c0
  /\ exists c c1 c2,
       HashLFU.run Hash 0 c0 [HashLFU.Put 1 10; HashLFU.Purge] = Some c
       /\ HashLFU.put Hash 0 c 5 50 = Some c1
       /\ HashLFU.get Hash c1 5 = Some (c2, Some 50).
Proof.
  intros Hash c0.
  assert (HashLFU.new 8 10 3 10 = Some c0) as Hnew by (vm_compute; reflexivity).
  split; [exact Hnew|].
  apply (HashLFU_put_then_get Hash 8 0 10 3 10 c0);
    [unfold int_range; lia | exact Hnew | simpl; lia |].
  intros slice Hin. apply elem_of_replicate in Hin as [-> _]. simpl. lia.
Defined.

Section LRU_order.
Context {Key : Type} `{EqDecision Key} {Value : Type}.
Implicit Types (c : LRU.LRUCache Key Value) (l : list (LRU.LRUNode Key Value)).
Implicit Types (n : LRU.LRUNode Key Value) (key : Key) (ops : list (LRU.op Key Value)).

Lemma LRU_removeNode_length l key n :
  List.find (LRU.has_key key) l = Some n ->
  length l = S (length (LRU.removeNode key l)).
Proof.
  induction l as [|m l IH]; simpl; [done|].
  destruct (LRU.has_key key m); [done|]. intros Hf. simpl. by rewrite <- IH.
Qed.

Lemma LRU_removeNode_length_le l key :
  (length (LRU.removeNode key l) <= length l)%nat.
Proof.
  induction l as [|m l IH]; simpl; [done|].
  destruct (LRU.has_key key m); simpl; lia.
Qed.

Lemma LRU_filter_absent (ks : list Key) key :
  key ∉ ks -> filter (fun k => k <> key) ks = ks.
Proof.
  induction ks as [|k ks IH]; [done|].
  intros [Hne Hks]%not_elem_of_cons.
  rewrite filter_cons_True by done. by rewrite IH.
Qed.

(** In key terms, unlinking is filtering. *)
Lemma LRU_removeNode_keys l key :
  NoDup (map LRU._key l) ->
  map LRU._key (LRU.removeNode key l) = filter (fun k => k <> key) (map LRU._key l).
Proof.
  induction l as [|m l IH]; simpl; [done|].
  intros [Hm Hnd]%NoDup_cons.
  destruct (LRU.has_key key m) eqn:Hk.
  - apply LRU_has_key_true in Hk. rewrite filter_cons_False by (by intros ?).
    symmetry. apply LRU_filter_absent. by rewrite <- Hk.
  - apply LRU_has_key_false in Hk. rewrite filter_cons_True by done.
    simpl. by rewrite IH.
Qed.

Lemma LRU_last_put_snoc key ops o :
  LRU_last_put key (ops ++ [o])
  = match o with
    | LRU.Put k v => if decide (k = key) then Some v else LRU_last_put key ops
    | LRU.Get _ => LRU_last_put key ops
    | LRU.Remove k => if decide (k = key) then None else LRU_last_put key ops
    end.
Proof. unfold LRU_last_put. by rewrite fold_left_app. Qed.

Lemma LRU_run_snoc c ops o : LRU.run c (ops ++ [o]) = LRU.step (LRU.run c ops) o.
Proof. unfold LRU.run. by rewrite fold_left_app. Qed.

Lemma LRU_find_empty c key : LRU._list c = [] -> LRU.nodeMap_find c key = None.
Proof. unfold LRU.nodeMap_find. by intros ->. Qed.

Lemma LRU_step_inv capacity ops c o :
  int_range capacity -> LRU_inv capacity ops c -> LRU_inv capacity (ops ++ [o]) (LRU.step c o).
Proof.
  intros Hint (Hwf & Hcap & Hlen & Hval).
  split; [by apply LRU_step_wf|].
  assert (capacity <= 0 -> LRU._list c = []) as Hempty.
  { intros Hle. destruct (LRU._list c); [done|]. unfold zlength in Hlen. simpl in Hlen. lia. }
  destruct o as [key value|key|key]; simpl.
  - split; [by rewrite LRU_put_capacity|]. split.
    + unfold LRU.put. destruct (Z.leb_spec (LRU._capacity c) 0) as [Hle|Hgt]; [done|].
      destruct (LRU.nodeMap_find c key) as [n|] eqn:Hf; simpl.
      * unfold LRU.moveToMostRecent, LRU.insertNode, zlength in *.
        rewrite length_app. simpl.
        pose proof (LRU_find_Some _ _ _ Hf) as [Hk _]. rewrite Hk.
        rewrite (LRU_removeNode_length _ _ _ Hf) in Hlen. lia.
      * unfold LRU.insertNode, zlength in *. rewrite length_app. simpl.
        rewrite to_size_t_int_pos by (lia || congruence).
        destruct (Z.leb_spec (LRU._capacity c) (Z.of_nat (length (LRU._list c)))) as [Hfull|Hroom].
        -- destruct (LRU._list c); simpl in *; lia.
        -- lia.
    + intros x n Hf. rewrite LRU_last_put_snoc.
      destruct (decide (key = x)) as [->|Hne].
      * destruct (Z.leb_spec (LRU._capacity c) 0) as [Hle|Hgt].
        { unfold LRU.put in Hf. destruct (Z.leb_spec (LRU._capacity c) 0); [|lia].
          rewrite LRU_find_empty in Hf; [done|]. apply Hempty. lia. }
        pose proof (LRU_put_get c x value Hwf Hgt) as Hget. unfold LRU.get in Hget.
        rewrite Hf in Hget. simpl in Hget. congruence.
      * apply LRU_put_find in Hf as [Hf|[-> _]]; [by apply Hval | done | done].
  - split; [by rewrite LRU_get_capacity|]. split.
    + unfold LRU.get. destruct (LRU.nodeMap_find c key) as [n|] eqn:Hf; simpl; [|done].
      unfold LRU.moveToMostRecent, LRU.insertNode, zlength in *.
      rewrite length_app. simpl.
      pose proof (LRU_find_Some _ _ _ Hf) as [<- _].
      rewrite (LRU_removeNode_length _ _ _ Hf) in Hlen. lia.
    + intros x n Hf. rewrite LRU_last_put_snoc. apply Hval. by eapply LRU_get_find.
  - assert (LRU._capacity (LRU.remove c key) = LRU._capacity c) as Hc.
    { unfold LRU.remove. by destruct (LRU.nodeMap_find c key). }
    split; [congruence|]. split.
    + unfold LRU.remove. destruct (LRU.nodeMap_find c key); simpl; [|done].
      pose proof (LRU_removeNode_length_le (LRU._list c) key). unfold zlength in *. lia.
    + intros x n Hf. rewrite LRU_last_put_snoc.
      destruct (decide (key = x)) as [->|Hne]; [|apply Hval; by eapply LRU_remove_find].
      exfalso. unfold LRU.remove in Hf.
      destruct (LRU.nodeMap_find c x) as [m|] eqn:Hfx.
      * unfold LRU.nodeMap_find in Hf. simpl in Hf.
        by rewrite LRU_removeNode_gone in Hf.
      * congruence.
Qed.

Lemma LRU_run_inv capacity ops :
  int_range capacity -> LRU_inv capacity ops (LRU.run (LRU.new capacity) ops).
Proof.
  intros Hint. induction ops as [|o ops IH] using rev_ind.
  - split; [apply LRU_new_wf|]. split; [done|]. split; [unfold zlength; simpl; lia|].
    intros x n Hf. done.
  - rewrite LRU_run_snoc. by apply LRU_step_inv.
Qed.


(** X11: an [LRUCache] never holds more entries than its capacity.  In
    every state a cache built with an [int] capacity reaches by [put],
    [get] and [remove], no key has two nodes and the number of nodes is at
    most the capacity (none at all for a capacity that is not positive). *)
Theorem LRU_run_within_capacity (capacity : Z) ops :
  int_range capacity ->
  let c := LRU.run (LRU.new capacity) ops in
  NoDup (LRU.keys c)
  /\ zlength (LRU._list c) <= Z.max 0 capacity
  /\ LRU._capacity c = capacity.
Proof.
  intros Hint c. destruct (LRU_run_inv capacity ops Hint) as (Hwf & Hcap & Hlen & _).
  done.
Qed.

(** X12: an [LRUCache] returns no stale value.  When [get(key)] hits
    after a run from a fresh cache, the value it returns is the one of the
    latest [put] of that key in the run, and no [remove] of the key has
    followed that [put]. *)
Theorem LRU_get_returns_last_put (capacity : Z) ops key (v : Value) :
  int_range capacity ->
  (LRU.get (LRU.run (LRU.new capacity) ops) key).2 = Some v ->
  LRU_last_put key ops = Some v.
Proof.
  intros Hint Hget. destruct (LRU_run_inv capacity ops Hint) as (_ & _ & _ & Hval).
  unfold LRU.get in Hget.
  destruct (LRU.nodeMap_find _ key) as [n|] eqn:Hf; [|done].
  simpl in Hget. injection Hget as <-. by apply Hval.
Qed.

(** X13: the list of an [LRUCache] is its recency order, and the entry
    a [put] drops is the least recently used one.  In every state [c] a
    cache of capacity at least 1 reaches, with [keys c] the keys from the
    least to the most recently used:
    - [get] or [put] of a resident key moves it to the end and leaves the
      other keys in their order;
    - [get] of an absent key changes nothing;
    - [put] of an absent key appends it, after dropping the first key if
      the cache holds [capacity] entries;
    - [remove] takes the key out and leaves the other keys in their
      order. *)
Theorem LRU_recency_order (capacity : Z) ops key (value : Value) :
  int_range capacity -> 1 <= capacity ->
  let c := LRU.run (LRU.new capacity) ops in
  (key ∈ LRU.keys c ->
     LRU.keys (LRU.get c key).1 = filter (fun k => k <> key) (LRU.keys c) ++ [key]
     /\ LRU.keys (LRU.put c key value) = filter (fun k => k <> key) (LRU.keys c) ++ [key])
  /\ (key ∉ LRU.keys c ->
        (LRU.get c key).1 = c
        /\ LRU.keys (LRU.put c key value)
           = (if capacity <=? zlength (LRU.keys c) then tail (LRU.keys c) else LRU.keys c)
             ++ [key])
  /\ LRU.keys (LRU.remove c key) = filter (fun k => k <> key) (LRU.keys c).
Proof.
  intros Hint Hcap c. destruct (LRU_run_inv capacity ops Hint) as (Hwf & Hc & Hlen & _).
  fold c in Hwf, Hc, Hlen. clearbody c.
  assert ((LRU._capacity c <=? 0) = false) as Hpos by (apply Z.leb_gt; lia).
  split; [|split].
  - intros Hin. apply LRU_holds_keys in Hin as [n Hf].
    pose proof (LRU_find_Some _ _ _ Hf) as [Hk _].
    unfold LRU.get, LRU.put. rewrite Hpos, Hf. unfold LRU.keys; simpl.
    unfold LRU.moveToMostRecent, LRU.insertNode. simpl.
    rewrite !map_app. simpl. rewrite Hk, LRU_removeNode_keys by done. done.
  - intros Hout. assert (LRU.nodeMap_find c key = None) as Hf.
    { destruct (LRU.nodeMap_find c key) as [n|] eqn:Hf; [|done].
      exfalso. apply Hout, LRU_holds_keys. by exists n. }
    unfold LRU.get, LRU.put. rewrite Hpos, Hf. split; [done|].
    unfold LRU.keys; simpl. unfold LRU.insertNode. rewrite map_app. simpl.
    rewrite to_size_t_int_pos by (lia || congruence). rewrite Hc.
    unfold zlength. rewrite length_map.
    destruct (capacity <=? Z.of_nat (length (LRU._list c))); [|done].
    by destruct (LRU._list c).
  - unfold LRU.remove. destruct (LRU.nodeMap_find c key) as [n|] eqn:Hf.
    + unfold LRU.keys; simpl. by apply LRU_removeNode_keys.
    + symmetry. apply LRU_filter_absent. by apply LRU_find_None.
Qed.

End LRU_order.

Lemma LRU_get_returns_last_put_witness :
  LRU_last_put 1 [LRU.Put 1 "a"; LRU.Put 2 "b"; LRU.Put 1 "c"; LRU.Get 2]%string
  = Some "c"%string.
Proof.
  apply (LRU_get_returns_last_put 2); [unfold int_range; lia | reflexivity].
Defined.

Lemma LRU_run_within_capacity_witness :
  let c := LRU.run (LRU.new 2)
             [LRU.Put 1 "a"; LRU.Put 2 "b"; LRU.Put 3 "c"; LRU.Get 2]%string in
  NoDup (LRU.keys c) /\ zlength (LRU._list c) <= Z.max 0 2 /\ LRU._capacity c = 2.
Proof. apply (LRU_run_within_capacity 2). unfold int_range. lia. Defined.

Lemma LRU_recency_order_witness :
  let c := LRU.run (LRU.new 2) [LRU.Put 1 "a"; LRU.Put 2 "b"; LRU.Get 1]%string in
  (3 ∈ LRU.keys c ->
     LRU.keys (LRU.get c 3).1 = filter (fun k => k <> 3) (LRU.keys c) ++ [3]
     /\ LRU.keys (LRU.put c 3 "c"%string) = filter (fun k => k <> 3) (LRU.keys c) ++ [3])
  /\ (3 ∉ LRU.keys c ->
        (LRU.get c 3).1 = c
        /\ LRU.keys (LRU.put c 3 "c"%string)
           = (if 2 <=? zlength (LRU.keys c) then tail (LRU.keys c) else LRU.keys c) ++ [3])
  /\ LRU.keys (LRU.remove c 3) = filter (fun k => k <> 3) (LRU.keys c).
Proof. apply (LRU_recency_order 2); [unfold int_range; lia | lia]. Defined.

Section LRUK_staging.
Context {Key : Type} `{Countable Key} {Value : Type}.
Variable Value_default : Value.
Variable count_default : Z.
Implicit Types (c : LRUK.LRUKCache Key Value) (key x : Key).
Implicit Types (ops : list (LRUK.op Key Value)).

Local Abbreviation get := (LRUK.get Value_default count_default).
Local Abbreviation put := (LRUK.put count_default).
Local Abbreviation step := (LRUK.step Value_default count_default).
Local Abbreviation run := (LRUK.run Value_default count_default).
Local Abbreviation historyCount := (LRUK.historyCount count_default).
Local Abbreviation recordAccess := (LRUK.recordAccess count_default).

Lemma LRUK_last_put_snoc key ops o :
  LRUK_last_put key (ops ++ [o])
  = match o with
    | LRUK.Put k v => if decide (k = key) then Some v else LRUK_last_put key ops
    | LRUK.Get _ => LRUK_last_put key ops
    end.
Proof. unfold LRUK_last_put. by rewrite fold_left_app. Qed.

(** What [put] on the main cache leaves resident, in a main cache that is
    empty when its capacity is not positive. *)
Lemma LRUK_main_put_find (m : LRU.LRUCache Key Value) key value x n :
  LRU_wf m -> (LRU._capacity m <= 0 -> LRU._list m = []) ->
  LRU.nodeMap_find (LRU.put m key value) x = Some n ->
  (x = key /\ LRU._value n = value) \/ (x <> key /\ LRU.nodeMap_find m x = Some n).
Proof.
  intros Hwf Hempty Hf. destruct (decide (x = key)) as [->|Hne].
  - left. split; [done|].
    destruct (Z.leb_spec (LRU._capacity m) 0) as [Hle|Hgt].
    { unfold LRU.put in Hf. destruct (Z.leb_spec (LRU._capacity m) 0); [|lia].
      rewrite LRU_find_empty in Hf; [done|]. by apply Hempty. }
    pose proof (LRU_put_get m key value Hwf Hgt) as Hget. unfold LRU.get in Hget.
    rewrite Hf in Hget. simpl in Hget. congruence.
  - right. split; [done|]. apply LRU_put_find in Hf as [Hf|[-> _]]; done.
Qed.

Lemma LRUK_main_put_empty (m : LRU.LRUCache Key Value) key value :
  (LRU._capacity m <= 0 -> LRU._list m = []) ->
  LRU._capacity (LRU.put m key value) <= 0 -> LRU._list (LRU.put m key value) = [].
Proof.
  intros Hempty. rewrite LRU_put_capacity. intros Hle. unfold LRU.put.
  destruct (Z.leb_spec (LRU._capacity m) 0); [by apply Hempty | lia].
Qed.

Lemma LRUK_step_inv ops c o :
  LRUK_inv ops c -> LRUK_inv (ops ++ [o]) (step c o).
Proof.
  intros (Hwf & Hempty & Hmain & Hstaged).
  assert (forall key, (LRU.get (LRUK.main c) key).2 = None ->
            (LRU.get (LRUK.main c) key).1 = LRUK.main c
            /\ LRU.nodeMap_find (LRUK.main c) key = None) as Hmiss.
  { intros key. unfold LRU.get. by destruct (LRU.nodeMap_find (LRUK.main c) key). }
  assert (forall key, LRU._capacity (LRU.get (LRUK.main c) key).1 <= 0 ->
            LRU._list (LRU.get (LRUK.main c) key).1 = []) as Hempty1.
  { intros key. rewrite LRU_get_capacity. intros Hle.
    unfold LRU.get. rewrite LRU_find_empty by auto. simpl. auto. }
  destruct o as [key value|key]; simpl.
  - unfold LRUK.put.
    pose proof (LRU_get_wf (LRUK.main c) key Hwf) as Hwf1.
    specialize (Hmiss key). specialize (Hempty1 key).
    destruct (LRU.get (LRUK.main c) key) as [main1 [old|]] eqn:Hg; simpl in *.
    + assert (is_Some (LRU.nodeMap_find (LRUK.main c) key)) as [m Hm].
      { unfold LRU.get in Hg. destruct (LRU.nodeMap_find (LRUK.main c) key); [by eauto|done]. }
      split; [by apply LRU_put_wf|]. split; [by apply LRUK_main_put_empty|]. split.
      * intros x n Hf. simpl in *. rewrite LRUK_last_put_snoc.
        apply LRUK_main_put_find in Hf as [[-> Hv]|[Hne Hf]]; [| |done|done].
        -- rewrite decide_True by done. split; [by apply (Hmain key m) | by rewrite Hv].
        -- rewrite decide_False by done. apply Hmain.
           replace main1 with (LRU.get (LRUK.main c) key).1 in Hf by (by rewrite Hg).
           by eapply LRU_get_find.
      * intros x v Hx. simpl in *. rewrite LRUK_last_put_snoc.
        destruct (decide (key = x)) as [->|Hne]; [|by apply Hstaged].
        destruct (Hmain x m Hm) as [Hnone _]. congruence.
    + destruct (Hmiss eq_refl) as [-> Hnone].
      destruct (LRUK.reachedK c _); simpl.
      * split; [by apply LRU_put_wf|]. split; [by apply LRUK_main_put_empty|]. split.
        -- intros x n Hf. simpl in *. rewrite LRUK_last_put_snoc.
           apply LRUK_main_put_find in Hf as [[-> Hv]|[Hne Hf]]; [| |done|done].
           ++ rewrite decide_True by done. rewrite lookup_delete_eq. by rewrite Hv.
           ++ rewrite decide_False by done.
              rewrite lookup_delete_ne, lookup_insert_ne by done. by apply Hmain.
        -- intros x v Hx. simpl in *. rewrite LRUK_last_put_snoc.
           destruct (decide (key = x)) as [->|Hne].
           { by rewrite lookup_delete_eq in Hx. }
           rewrite lookup_delete_ne, lookup_insert_ne in Hx by done. by apply Hstaged.
      * split; [done|]. split; [done|]. split.
        -- intros x n Hf. simpl in *. rewrite LRUK_last_put_snoc.
           assert (key <> x) as Hne by (intros ->; congruence).
           rewrite decide_False, lookup_insert_ne by done. by apply Hmain.
        -- intros x v Hx. simpl in *. rewrite LRUK_last_put_snoc.
           destruct (decide (key = x)) as [->|Hne].
           { rewrite lookup_insert_eq in Hx. congruence. }
           rewrite lookup_insert_ne in Hx by done. by apply Hstaged.
  - unfold LRUK.get.
    pose proof (LRU_get_wf (LRUK.main c) key Hwf) as Hwf1.
    pose proof (fun x n => LRU_get_find (LRUK.main c) key x n Hwf) as Hfind.
    specialize (Hmiss key). specialize (Hempty1 key).
    assert (forall x, LRUK_last_put x (ops ++ [LRUK.Get key]) = LRUK_last_put x ops) as Hlast.
    { intros x. by rewrite LRUK_last_put_snoc. }
    destruct (LRU.get (LRUK.main c) key) as [main1 [old|]] eqn:Hg; simpl in *.
    + split; [done|]. split; [done|]. split.
      * intros x n Hf. simpl in *. rewrite Hlast. apply Hmain. by apply Hfind.
      * intros x v Hx. simpl in *. rewrite Hlast. by apply Hstaged.
    + destruct (Hmiss eq_refl) as [-> Hnone].
      destruct (if LRUK.reachedK c _ then LRUK._historyValueMap c !! key else None)
        as [storedValue|] eqn:Hst; simpl.
      * assert (LRUK._historyValueMap c !! key = Some storedValue) as Hkey.
        { by destruct (LRUK.reachedK c _). }
        split; [by apply LRU_put_wf|]. split; [by apply LRUK_main_put_empty|]. split.
        -- intros x n Hf. simpl in *. rewrite Hlast.
           apply LRUK_main_put_find in Hf as [[-> Hv]|[Hne Hf]]; [| |done|done].
           ++ rewrite lookup_delete_eq. split; [done|]. rewrite Hv. by apply Hstaged.
           ++ rewrite lookup_delete_ne by done. by apply Hmain.
        -- intros x v Hx. simpl in *. rewrite Hlast.
           destruct (decide (key = x)) as [->|Hne].
           { by rewrite lookup_delete_eq in Hx. }
           rewrite lookup_delete_ne in Hx by done. by apply Hstaged.
      * split; [done|]. split; [done|]. split.
        -- intros x n Hf. simpl in *. rewrite Hlast. by apply Hmain.
        -- intros x v Hx. simpl in *. rewrite Hlast. by apply Hstaged.
Qed.

Lemma LRUK_run_inv (capacity historyCapacity k : Z) ops :
  LRUK_inv ops (run (LRUK.new capacity historyCapacity k) ops).
Proof.
  induction ops as [|o ops IH] using rev_ind.
  - split; [apply LRU_new_wf|]. split; [done|]. split; [by intros x n|by intros x v].
  - rewrite LRUK_run_snoc. by apply LRUK_step_inv.
Qed.


(** X14: the two stores of an [LRUKCache] never disagree with the
    latest [put].  In every state a cache reaches from a fresh one, for
    every key: a key resident in the main cache has no staged value; the
    value the main cache holds for it, and the value the staging map holds
    for it, is the value of the latest [put] of that key; and [get(key)]
    returns either the default value or the value of the latest [put]. *)
Theorem LRUK_values_are_last_put (capacity historyCapacity k : Z) ops key :
  let c := run (LRUK.new capacity historyCapacity k) ops in
  (forall n, LRU.nodeMap_find (LRUK.main c) key = Some n ->
     LRUK._historyValueMap c !! key = None)
  /\ (forall v, (LRUK.get_main c key).2 = Some v -> LRUK_last_put key ops = Some v)
  /\ (forall v, LRUK._historyValueMap c !! key = Some v -> LRUK_last_put key ops = Some v)
  /\ ((get c key).2 = Value_default \/ LRUK_last_put key ops = Some (get c key).2).
Proof.
  intros c.
  destruct (LRUK_run_inv capacity historyCapacity k ops)
    as (Hwf & Hempty & Hmain & Hstaged).
  fold c in Hwf, Hempty, Hmain, Hstaged. clearbody c.
  split; [|split; [|split]].
  - intros n Hf. by apply (Hmain key n).
  - intros v. unfold LRUK.get_main, LRU.get.
    destruct (LRU.nodeMap_find (LRUK.main c) key) as [n|] eqn:Hf; simpl; [|done].
    intros [= <-]. by apply Hmain.
  - apply Hstaged.
  - unfold LRUK.get, LRU.get.
    destruct (LRU.nodeMap_find (LRUK.main c) key) as [n|] eqn:Hf; simpl.
    { right. by apply Hmain. }
    destruct (LRUK.reachedK c _); simpl; [|by left].
    destruct (LRUK._historyValueMap c !! key) as [storedValue|] eqn:Hst; simpl; [|by left].
    right. by apply Hstaged.
Qed.










End LRUK_staging.





Section LFU_contents.
Context {Key : Type} `{Countable Key} {Value : Type}.
Variable Key_default : Key.
Implicit Types (s t : LFU.LFUCache Key Value) (key k : Key) (node n : LFU.Node Value).
Implicit Types (l : list Key) (f : Z) (v : Value) (ops : list (LFU.op Key Value)).

Local Abbreviation kickOut := (LFU.kickOut Key_default).
Local Abbreviation putInternal := (LFU.putInternal Key_default).
Local Abbreviation put := (LFU.put Key_default).
Local Abbreviation step := (LFU.step Key_default).
Local Abbreviation run := (LFU.run Key_default).

(** *** What the operations do to the values held *)

Lemma LFU_values_lookup s k : LFU_values s !! k = LFU.value <$> LFU._nodeMap s !! k.
Proof. unfold LFU_values. apply lookup_fmap. Qed.

Lemma LFU_values_ext s s' :
  (forall k, LFU.value <$> LFU._nodeMap s' !! k = LFU.value <$> LFU._nodeMap s !! k) ->
  LFU_values s' = LFU_values s.
Proof. intros Hk. apply map_eq. intros k. by rewrite !LFU_values_lookup. Qed.

Lemma LFU_values_size s : Z.of_nat (size (LFU_values s)) = LFU.nodeMap_size s.
Proof. unfold LFU_values, LFU.nodeMap_size. by rewrite map_size_fmap. Qed.

Lemma LFU_removeFromFreqList_nodeMap s key f s' :
  LFU.removeFromFreqList s key f = Some s' -> LFU._nodeMap s' = LFU._nodeMap s.
Proof.
  unfold LFU.removeFromFreqList. destruct (LFU._freqToFreqList s !! f); [|done].
  by intros [= <-].
Qed.

Lemma LFU_addFreqNum_values s s' :
  LFU.addFreqNum s = Some s' -> LFU_values s' = LFU_values s.
Proof.
  unfold LFU.addFreqNum. set (s1 := LFU.set_stats s _ _).
  destruct (_ <? _); [|by intros [= <-]].
  unfold LFU.handleOverMaxAverageNum.
  destruct (decide (LFU._nodeMap s1 = ∅)) as [Hemp|Hne]; [by intros [= <-]|].
  destruct (LFU.ageNodes _ s1) as [s2|] eqn:Hage; [|done].
  simpl. intros [= <-]. apply LFU_values_ext. simpl.
  apply (LFU_ageNodes_values _ _ _ Hage).
  intros k n Hin%elem_of_map_to_list. by rewrite Hin.
Qed.

Lemma LFU_advanceMinFreq_nodeMap s f s' :
  LFU.advanceMinFreq s f = Some s' -> LFU._nodeMap s' = LFU._nodeMap s.
Proof.
  unfold LFU.advanceMinFreq. destruct (_ =? _); [|by intros [= <-]].
  destruct (LFU._freqToFreqList s !! (f - 1)) as [l|]; [|done].
  simpl. intros [= <-]. by destruct (LFU.isEmpty l).
Qed.

(** [getInternal] changes no value. *)
Lemma LFU_getInternal_values s key node s' v :
  LFU._nodeMap s !! key = Some node ->
  LFU.getInternal s key node = Some (s', v) ->
  LFU_values s' = LFU_values s /\ v = LFU.value node.
Proof.
  intros Hnode. unfold LFU.getInternal.
  destruct (LFU.removeFromFreqList s key (LFU.freq node)) as [s1|] eqn:H1; [|done].
  apply LFU_removeFromFreqList_nodeMap in H1. simpl.
  destruct (LFU.advanceMinFreq _ _) as [s4|] eqn:H4; [|done].
  apply LFU_advanceMinFreq_nodeMap in H4. simpl in H4. simpl.
  destruct (LFU.addFreqNum s4) as [s5|] eqn:H5; [|done].
  apply LFU_addFreqNum_values in H5. simpl. intros [= <- <-]. split; [|done].
  rewrite H5. apply LFU_values_ext. intros k. rewrite H4, H1.
  destruct (decide (key = k)) as [<-|Hne].
  - by rewrite lookup_insert_eq, Hnode.
  - by rewrite lookup_insert_ne.
Qed.

(** [kickOut] takes one key out, at most. *)
Lemma LFU_kickOut_values s s' :
  kickOut s = Some s' -> exists victim, LFU._nodeMap s' = delete victim (LFU._nodeMap s).
Proof.
  unfold LFU.kickOut. destruct (LFU._freqToFreqList s !! LFU._minFreq s) as [l|]; [|done].
  simpl. destruct l as [|victim rest].
  - destruct (LFU._freqToFreqList _ !! 1); [|done]. simpl. intros [= <-].
    by exists Key_default.
  - destruct (LFU.removeFromFreqList _ victim _) as [s2|] eqn:H2; [|done].
    apply LFU_removeFromFreqList_nodeMap in H2. simpl. intros [= <-].
    exists victim. unfold LFU.decreaseFreqNum. simpl. by rewrite H2.
Qed.

(** [put]: the values after are the values before, less the entry
    [kickOut] has taken if the cache was full and the key new, with
    [key] bound to [v]. *)
Lemma LFU_put_values s key v s' :
  put s key v = Some s' ->
  s' = s /\ LFU._capacity s = 0
  \/ LFU._capacity s <> 0 /\ is_Some (LFU._nodeMap s !! key)
     /\ LFU_values s' = <[key := v]> (LFU_values s)
  \/ LFU._capacity s <> 0 /\ LFU._nodeMap s !! key = None
     /\ exists s1, (if LFU.isFull s then kickOut s else Some s) = Some s1
          /\ LFU_values s' = <[key := v]> (LFU_values s1).
Proof.
  unfold LFU.put. destruct (Z.eqb_spec (LFU._capacity s) 0) as [Hz|Hnz].
  { intros [= <-]. by left. }
  intros Hput. right. destruct (LFU._nodeMap s !! key) as [node|] eqn:Hnode.
  - left. split; [done|]. split; [by eauto|].
    destruct (LFU.getInternal _ key _) as [[s2 v2]|] eqn:Hget; [|done].
    simpl in Hput. injection Hput as <-.
    apply LFU_getInternal_values in Hget as [Hval _].
    { rewrite Hval. unfold LFU_values. simpl. by rewrite fmap_insert. }
    simpl. by rewrite lookup_insert_eq.
  - right. split; [done|]. split; [done|]. revert Hput. unfold LFU.putInternal.
    destruct (if LFU.isFull s then kickOut s else Some s) as [s1|]; [|done].
    simpl. destruct (LFU.addFreqNum _) as [s4|] eqn:H4; [|done].
    simpl. intros [= <-]. exists s1. split; [done|].
    apply LFU_addFreqNum_values in H4. unfold LFU_values in *. simpl in *.
    by rewrite H4, fmap_insert.
Qed.

Lemma LFU_get_values s key s' r :
  LFU.get s key = Some (s', r) ->
  LFU_values s' = LFU_values s /\ r = LFU_values s !! key.
Proof.
  unfold LFU.get. rewrite LFU_values_lookup.
  destruct (LFU._nodeMap s !! key) as [node|] eqn:Hnode.
  - destruct (LFU.getInternal s key node) as [[s2 v2]|] eqn:Hget; [|done].
    simpl. intros [= <- <-].
    apply LFU_getInternal_values in Hget as [Hval ->]; done.
  - by intros [= <- <-].
Qed.


(** *** No stale value *)

Lemma LFU_last_put_cons key o ops pre :
  LFU_last_put key (pre ++ o :: ops) = LFU_last_put key ((pre ++ [o]) ++ ops).
Proof. by rewrite <- app_assoc. Qed.

Lemma LFU_last_put_snoc key ops o :
  LFU_last_put key (ops ++ [o])
  = match o with
    | LFU.Put k v => if decide (k = key) then Some v else LFU_last_put key ops
    | LFU.Get _ => LFU_last_put key ops
    | LFU.Purge => None
    end.
Proof. unfold LFU_last_put. by rewrite fold_left_app. Qed.

Lemma LFU_step_fresh_values pre s o :
  LFU_listed s -> int_range (LFU._capacity s) -> LFU_fresh_values pre s ->
  exists s', step s o = Some s' /\ LFU_listed s' /\ LFU_same_config s s'
    /\ LFU_fresh_values (pre ++ [o]) s'.
Proof.
  intros Hl Hint [Hzero Hfresh].
  destruct (LFU_step_listed Key_default s o Hl Hint) as (s' & Hstep & Hl' & Hc').
  exists s'. split; [done|]. split; [done|]. split; [done|].
  pose proof Hc' as [Hcap _].
  destruct o as [key value|key|]; simpl in Hstep.
  - apply LFU_put_values in Hstep
      as [[-> Hz]|[(Hnz & Hin & Hval)|(Hnz & Hout & s1 & Hs1 & Hval)]].
    + split; [done|]. intros k v. rewrite LFU_values_lookup, (Hzero Hz), lookup_empty.
      done.
    + split; [by rewrite Hcap|]. intros k v. rewrite LFU_last_put_snoc, Hval.
      destruct (decide (key = k)) as [->|Hne].
      * rewrite lookup_insert_eq. congruence.
      * rewrite lookup_insert_ne by done. apply Hfresh.
    + split; [by rewrite Hcap|]. intros k v. rewrite LFU_last_put_snoc, Hval.
      destruct (decide (key = k)) as [->|Hne].
      * rewrite lookup_insert_eq. congruence.
      * rewrite lookup_insert_ne by done. intros Hk. apply Hfresh.
        destruct (LFU.isFull s); [|by injection Hs1 as <-].
        apply LFU_kickOut_values in Hs1 as [victim Hmap].
        rewrite LFU_values_lookup, Hmap in Hk. rewrite LFU_values_lookup.
        destruct (decide (victim = k)) as [->|Hvk].
        -- by rewrite lookup_delete_eq in Hk.
        -- by rewrite lookup_delete_ne in Hk.
  - destruct (LFU.get s key) as [[s2 r]|] eqn:Hget; [|done].
    simpl in Hstep. injection Hstep as <-.
    apply LFU_get_values in Hget as [Hval _].
    split.
    + rewrite Hcap. intros Hz. apply (fmap_empty_inv LFU.value).
      fold (LFU_values s2). rewrite Hval. unfold LFU_values. by rewrite (Hzero Hz), fmap_empty.
    + intros k v. rewrite LFU_last_put_snoc, Hval. apply Hfresh.
  - injection Hstep as <-. split; [done|].
    intros k v. unfold LFU_values. simpl. by rewrite fmap_empty, lookup_empty.
Qed.

Lemma LFU_run_fresh_values ops : forall pre s,
  LFU_listed s -> int_range (LFU._capacity s) -> LFU_fresh_values pre s ->
  exists s', run s ops = Some s' /\ LFU_fresh_values (pre ++ ops) s'.
Proof.
  induction ops as [|o ops IH]; intros pre s Hl Hint Hfresh.
  { exists s. by rewrite app_nil_r. }
  destruct (LFU_step_fresh_values pre s o Hl Hint Hfresh)
    as (s1 & Hstep & Hl1 & [Hcap _] & Hfresh1).
  destruct (IH (pre ++ [o]) s1 Hl1) as (s' & Hrun & Hfresh'); [by rewrite Hcap | done |].
  exists s'. simpl. rewrite Hstep. simpl. split; [done|].
  by rewrite <- app_assoc in Hfresh'.
Qed.

(** X18: an [LFUCache] returns no stale value.  A cache built with an
    [int] capacity serves every run of [put], [get] and [purge], and when
    [get(key)] then hits, the value it returns is the one of the latest
    [put] of that key in the run, and no [purge] has followed that
    [put]. *)
Theorem LFU_get_returns_last_put (capacity maxAverageNum : Z) ops key :
  int_range capacity ->
  exists s s' r,
    run (LFU.new capacity maxAverageNum) ops = Some s
    /\ LFU.get s key = Some (s', r)
    /\ forall v, r = Some v -> LFU_last_put key ops = Some v.
Proof.
  intros Hint.
  destruct (LFU_run_listed Key_default (LFU.new capacity maxAverageNum) ops)
    as (s & Hrun & Hl & _); [apply LFU_new_listed | done |].
  destruct (LFU_run_fresh_values ops [] (LFU.new capacity maxAverageNum))
    as (s_ & Hrun' & _ & Hfresh); [apply LFU_new_listed | done | |].
  { split; [done|]. intros k v. unfold LFU_values. simpl. by rewrite fmap_empty, lookup_empty. }
  assert (s_ = s) as -> by congruence. simpl in Hfresh.
  destruct (LFU_get_listed s key Hl) as (s' & r & Hget & _).
  exists s, s', r. split; [done|]. split; [done|].
  apply LFU_get_values in Hget as [_ ->]. apply Hfresh.
Qed.


(** *** The entry [kickOut] evicts, and the size of the cache *)

(** With index and lists in step and [_minFreq] the least frequency in
    use, [kickOut] evicts the first node of the list of [_minFreq]: a
    resident entry of the least frequency. *)
Lemma LFU_kickOut_victim s :
  LFU_sync s -> LFU.smallestNonEmpty s (LFU._minFreq s) ->
  exists victim rest node s',
    LFU._freqToFreqList s !! LFU._minFreq s = Some (victim :: rest)
    /\ LFU._nodeMap s !! victim = Some node
    /\ LFU.freq node = LFU._minFreq s
    /\ kickOut s = Some s'
    /\ LFU._nodeMap s' = delete victim (LFU._nodeMap s)
    /\ forall k n, LFU._nodeMap s !! k = Some n -> LFU.freq node <= LFU.freq n.
Proof.
  intros (S1 & S2 & S3) [(l & Hl & Hlne) Hleast].
  destruct l as [|victim rest]; [done|].
  destruct (S2 _ _ victim Hl) as (node & Hnode & Hfreq); [by left|].
  exists victim, rest, node.
  unfold LFU.kickOut. rewrite Hl. simpl.
  rewrite (LFU_removeFromFreqList_Some _ _ _ (victim :: rest)) by done.
  eexists. split; [done|]. split; [done|]. split; [done|]. split; [done|].
  split; [done|]. intros k n Hn. rewrite Hfreq. apply Hleast.
  destruct (S1 k n Hn) as (lk & Hlk & Hk). exists lk. split; [done|].
  intros ->. by apply elem_of_nil in Hk.
Qed.

Lemma LFU_step_size bound s o :
  LFU_inv bound s -> int_range (LFU._capacity s) ->
  -1 <= LFU._maxAverageNum s -> 0 <= bound -> bound + 1 < LFU.INT_MAX ->
  0 <= LFU._capacity s -> LFU.nodeMap_size s <= LFU._capacity s ->
  exists s', step s o = Some s' /\ LFU_inv (bound + 1) s' /\ LFU_same_config s s'
    /\ LFU.nodeMap_size s' <= LFU._capacity s'.
Proof.
  intros Hinv Hint Hm Hpos Hbound Hcap Hsize.
  destruct (LFU_step_inv Key_default bound s o Hinv Hint Hm Hpos Hbound)
    as (s' & Hstep & Hinv' & Hc').
  exists s'. split; [done|]. split; [done|]. split; [done|].
  pose proof Hc' as [-> _]. rewrite <- LFU_values_size in *.
  destruct o as [key value|key|]; simpl in Hstep.
  - apply LFU_put_values in Hstep
      as [[-> Hz]|[(Hnz & Hin & ->)|(Hnz & Hout & s1 & Hs1 & ->)]]; [done| |].
    + rewrite map_size_insert_Some; [done|].
      rewrite LFU_values_lookup. by apply fmap_is_Some.
    + destruct (LFU.isFull s) eqn:Hfull.
      * destruct Hinv as (Hsync & Hmin & _).
        destruct (LFU_kickOut_victim s Hsync) as (victim & rest & node & s1' & _ & Hv & _ & Hk & Hmap & _).
        { apply Hmin. by apply LFU_isFull_nonempty. }
        assert (s1' = s1) as -> by congruence.
        assert (LFU_values s1 = delete victim (LFU_values s)) as Hvals.
        { unfold LFU_values. by rewrite Hmap, fmap_delete. }
        rewrite map_size_insert_None.
        -- rewrite Hvals, map_size_delete_Some.
           ++ assert (size (LFU_values s) <> 0%nat); [|lia].
              apply map_size_non_empty_iff. intros Hemp.
              assert (LFU_values s !! victim = Some (LFU.value node)) as Hvv
                by (by rewrite LFU_values_lookup, Hv).
              by rewrite Hemp, lookup_empty in Hvv.
           ++ rewrite LFU_values_lookup, Hv. by eexists.
        -- rewrite Hvals. apply lookup_delete_None. right.
           by rewrite LFU_values_lookup, Hout.
      * injection Hs1 as <-. rewrite map_size_insert_None
          by (by rewrite LFU_values_lookup, Hout).
        unfold LFU.isFull in Hfull. apply Z.eqb_neq in Hfull.
        rewrite to_size_t_int_pos in Hfull by done.
        rewrite <- LFU_values_size in Hfull. lia.
  - destruct (LFU.get s key) as [[s2 r]|] eqn:Hget; [|done].
    simpl in Hstep. injection Hstep as <-.
    apply LFU_get_values in Hget as [-> _]. done.
  - injection Hstep as <-. unfold LFU_values. simpl.
    rewrite fmap_empty, map_size_empty. lia.
Qed.

Lemma LFU_run_size ops : forall bound s,
  LFU_inv bound s -> int_range (LFU._capacity s) ->
  -1 <= LFU._maxAverageNum s -> 0 <= bound ->
  bound + Z.of_nat (length ops) < LFU.INT_MAX ->
  0 <= LFU._capacity s -> LFU.nodeMap_size s <= LFU._capacity s ->
  exists s', run s ops = Some s' /\ LFU_inv (bound + Z.of_nat (length ops)) s'
    /\ LFU_same_config s s' /\ LFU.nodeMap_size s' <= LFU._capacity s'.
Proof.
  induction ops as [|o ops IH]; intros bound s Hinv Hint Hm Hpos Hbound Hcap Hsize; simpl.
  - exists s. split; [done|]. split; [|done]. eapply LFU_inv_mono; [|done]. lia.
  - simpl in Hbound.
    destruct (LFU_step_size bound s o Hinv Hint Hm Hpos) as (s1 & -> & Hinv1 & Hc1 & Hsize1);
      [lia|done|done|].
    simpl. pose proof Hc1 as [Hcap1 Hmax1].
    destruct (IH (bound + 1) s1 Hinv1) as (s' & -> & Hinv' & Hc' & Hsize');
      [congruence|lia|lia|lia|lia|done|].
    exists s'. split; [done|]. split; [|split; [|done]].
    + eapply LFU_inv_mono; [|done]. lia.
    + by eapply LFU_same_config_trans.
Qed.

(** X19: an [LFUCache] never holds more entries than its capacity.
    For a capacity from 0 to [INT_MAX] and an ageing threshold of at least
    -1, every run of fewer than [INT_MAX] operations from a fresh cache is
    served, and in the state it reaches the index holds at most [capacity]
    entries. *)
Theorem LFU_run_within_capacity (capacity maxAverageNum : Z) ops :
  int_range capacity -> 0 <= capacity -> -1 <= maxAverageNum ->
  Z.of_nat (length ops) < LFU.INT_MAX ->
  exists s,
    run (LFU.new capacity maxAverageNum) ops = Some s
    /\ LFU.nodeMap_size s <= capacity.
Proof.
  intros Hint Hcap Hm Hlen.
  destruct (LFU_run_size ops 0 (LFU.new capacity maxAverageNum))
    as (s & Hrun & _ & [Hc _] & Hsize);
    [by apply LFU_empty_inv | done | done | done | lia | done | |].
  { unfold LFU.nodeMap_size. simpl. rewrite map_size_empty. simpl. lia. }
  exists s. split; [done|]. by rewrite Hc in Hsize.
Qed.

(** X20: the entry an [LFUCache] evicts.  For an [int] capacity and an
    ageing threshold of at least -1, after every run of fewer than
    [INT_MAX] operations from a fresh cache, whenever [put] is about to
    call [kickOut], [kickOut] removes from the index exactly one resident
    entry, the first node of the list of [_minFreq] (the one linked there
    the longest), and no resident entry has a lower frequency than it. *)
Theorem LFU_kickOut_evicts_least_frequent (capacity maxAverageNum : Z) ops key :
  int_range capacity -> -1 <= maxAverageNum ->
  Z.of_nat (length ops) < LFU.INT_MAX ->
  exists s,
    run (LFU.new capacity maxAverageNum) ops = Some s
    /\ (LFU_reaches_kickOut s key ->
        exists victim rest node s1,
          LFU._freqToFreqList s !! LFU._minFreq s = Some (victim :: rest)
          /\ LFU._nodeMap s !! victim = Some node
          /\ kickOut s = Some s1
          /\ LFU._nodeMap s1 = delete victim (LFU._nodeMap s)
          /\ forall k n, LFU._nodeMap s !! k = Some n -> LFU.freq node <= LFU.freq n).
Proof.
  intros Hint Hm Hlen.
  destruct (LFU_run_inv Key_default ops 0 (LFU.new capacity maxAverageNum))
    as (s & Hrun & (Hs & Hmin & _) & [Hcap _]); [by apply LFU_empty_inv|done|done|done|lia|].
  exists s. split; [done|]. intros (Hnz & _ & Hfull).
  destruct (LFU_kickOut_victim s Hs) as (victim & rest & node & s1 & ? & ? & ? & ? & ? & ?).
  { apply Hmin, LFU_isFull_nonempty; [|done|done]. by rewrite Hcap. }
  by exists victim, rest, node, s1.
Qed.

End LFU_contents.

Lemma LFU_get_returns_last_put_witness :
  exists s s' r,
    LFU.run 0 (LFU.new 2 10) [LFU.Put 1 10; LFU.Put 2 20; LFU.Put 1 11; LFU.Purge; LFU.Put 1 12]
    = Some s
    /\ LFU.get s 1 = Some (s', r)
    /\ forall v, r = Some v ->
         LFU_last_put 1 [LFU.Put 1 10; LFU.Put 2 20; LFU.Put 1 11; LFU.Purge; LFU.Put 1 12]
         = Some v.
Proof. apply (LFU_get_returns_last_put 0 2 10). unfold int_range. lia. Defined.

Lemma LFU_run_within_capacity_witness :
  exists s,
    LFU.run 0 (LFU.new 2 10) [LFU.Put 1 10; LFU.Put 2 20; LFU.Get 1; LFU.Put 3 30] = Some s
    /\ LFU.nodeMap_size s <= 2.
Proof.
  apply (LFU_run_within_capacity 0 2 10);
    [unfold int_range; lia | lia | lia | vm_compute; reflexivity].
Defined.

Lemma LFU_kickOut_evicts_least_frequent_witness :
  exists s,
    LFU.run 0 (LFU.new 2 10) [LFU.Put 1 10; LFU.Put 2 20; LFU.Get 1] = Some s
    /\ (LFU_reaches_kickOut s 3 ->
        exists victim rest node s1,
          LFU._freqToFreqList s !! LFU._minFreq s = Some (victim :: rest)
          /\ LFU._nodeMap s !! victim = Some node
          /\ LFU.kickOut 0 s = Some s1
          /\ LFU._nodeMap s1 = delete victim (LFU._nodeMap s)
          /\ forall k n, LFU._nodeMap s !! k = Some n -> LFU.freq node <= LFU.freq n).
Proof.
  apply (LFU_kickOut_evicts_least_frequent 0 2 10);
    [unfold int_range; lia | lia | vm_compute; reflexivity].
Defined.

Section ARC_residents.
Context {Key : Type} `{Countable Key} {Value : Type}.
Implicit Types (c : Arc.ArcCache Key Value) (key k : Key) (value v : Value).
Implicit Types (p : Arc.ArcLruPart Key Value) (q : Arc.ArcLfuPart Key Value).
Implicit Types (n : Arc.ArcNode Key Value) (l : list (Arc.ArcNode Key Value)).
Implicit Types (P : Key -> Value -> Prop).

(** *** T1: the list *)

Lemma ARC_has_key_true key n : Arc.has_key key n = true <-> Arc._key n = key.
Proof. unfold Arc.has_key. apply bool_decide_eq_true. Qed.

Lemma ARC_find_Some l key n :
  List.find (Arc.has_key key) l = Some n -> Arc._key n = key /\ n ∈ l.
Proof.
  intros Hf. apply find_some in Hf as [Hin Hk].
  split; [by apply ARC_has_key_true | by apply list_elem_of_In].
Qed.

Lemma ARC_removeFromMain_sublist key l : sublist (Arc.removeFromMain key l) l.
Proof.
  induction l as [|n l IH]; simpl; [done|].
  destruct (Arc.has_key key n); [by apply sublist_cons | by apply sublist_skip].
Qed.

Lemma ARC_removeFromMain_length l key n :
  List.find (Arc.has_key key) l = Some n ->
  length l = S (length (Arc.removeFromMain key l)).
Proof.
  induction l as [|m l IH]; simpl; [done|].
  destruct (Arc.has_key key m); [done|]. intros Hf. simpl. by rewrite <- IH.
Qed.

(** Under [NoDup], unlinking leaves no node of the key. *)
Lemma ARC_removeFromMain_gone l key n :
  NoDup (Arc._key <$> l) -> n ∈ Arc.removeFromMain key l -> Arc._key n <> key.
Proof.
  induction l as [|m l IH]; simpl; [by intros _ ?%elem_of_nil|].
  intros [Hm Hnd]%NoDup_cons. destruct (Arc.has_key key m) eqn:Hk.
  - apply ARC_has_key_true in Hk. intros Hin Heq. apply Hm. rewrite Hk, <- Heq.
    by apply list_elem_of_fmap_2.
  - intros [->|Hin]%elem_of_cons; [|by apply IH].
    intros Heq. apply ARC_has_key_true in Heq. congruence.
Qed.

Lemma ARC_removelast_sublist {A} (l : list A) : sublist (removelast l) l.
Proof.
  induction l as [|x l IH]; simpl; [done|].
  destruct l; [by apply sublist_cons | by apply sublist_skip].
Qed.

Lemma ARC_removelast_length {A} (l : list A) x :
  last l = Some x -> length l = S (length (removelast l)).
Proof.
  induction l as [|y l IH]; [done|]. destruct l as [|z l]; [done|].
  intros Hl. change (length (y :: z :: l)) with (S (length (z :: l))).
  rewrite (IH Hl). done.
Qed.

Lemma ARC_sublist_wf l l' :
  sublist l' l -> NoDup (Arc._key <$> l) -> NoDup (Arc._key <$> l').
Proof. intros Hsub Hnd. eapply sublist_NoDup; [exact Hnd|]. by apply fmap_sublist. Qed.

(** [evictLeastRecent]: one node less, unless the list is empty. *)
Lemma ARC_lru_evict p :
  NoDup (Arc._key <$> Arc.lru_mainList p) ->
  let p' := Arc.lru_evictLeastRecent p in
  NoDup (Arc._key <$> Arc.lru_mainList p')
  /\ sublist (Arc.lru_mainList p') (Arc.lru_mainList p)
  /\ (Arc.lru_mainList p <> [] ->
      length (Arc.lru_mainList p) = S (length (Arc.lru_mainList p'))).
Proof.
  intros Hnd. unfold Arc.lru_evictLeastRecent.
  destruct (last (Arc.lru_mainList p)) as [x|] eqn:Hlast; simpl.
  - split; [|split].
    + eapply ARC_sublist_wf; [apply ARC_removelast_sublist | done].
    + apply ARC_removelast_sublist.
    + intros _. by eapply ARC_removelast_length.
  - split; [done|]. split; [done|]. intros Hne.
    apply last_None in Hlast. done.
Qed.

Lemma ARC_lru_put_wf p key value :
  ARC_lru_wf p ->
  let p' := (Arc.lru_put p key value).1 in
  ARC_lru_wf p'
  /\ forall n, n ∈ Arc.lru_mainList p' ->
       (Arc._key n = key /\ Arc._value n = value)
       \/ (Arc._key n <> key /\ n ∈ Arc.lru_mainList p).
Proof.
  intros [Hnd Hlen]. unfold Arc.lru_put.
  destruct (Z.eqb_spec (Arc.lru_capacity p) 0) as [Hz|Hnz]; simpl.
  { split; [done|]. intros n Hn. right. split; [|done].
    destruct (Arc.lru_mainList p); [by apply elem_of_nil in Hn|].
    unfold zlength in Hlen. simpl in Hlen. lia. }
  destruct (Arc.lru_find p key) as [m|] eqn:Hf; simpl.
  - pose proof (ARC_find_Some _ _ _ Hf) as [Hk Hm].
    unfold Arc.lru_updateExistingNode, Arc.lru_set_mainList, Arc.moveToFront. simpl.
    rewrite Hk. split; [split; simpl|].
    + apply NoDup_cons. split.
      * intros (x & Hx & Hin)%list_elem_of_fmap.
        by apply (ARC_removeFromMain_gone _ _ _ Hnd Hin).
      * eapply ARC_sublist_wf; [apply ARC_removeFromMain_sublist | done].
    + unfold zlength in *. simpl. rewrite (ARC_removeFromMain_length _ _ _ Hf) in Hlen. lia.
    + intros n [->|Hin]%elem_of_cons; [by left|]. right. split.
      * by apply (ARC_removeFromMain_gone _ _ _ Hnd Hin).
      * eapply elem_of_sublist; [done | apply ARC_removeFromMain_sublist].
  - assert (key ∉ Arc._key <$> Arc.lru_mainList p) as Hfresh.
    { intros (x & Hx & Hin)%list_elem_of_fmap.
      apply list_elem_of_In in Hin.
      eapply find_none in Hf; [|done]. apply bool_decide_eq_false in Hf. done. }
    unfold Arc.lru_addNewNode.
    destruct (Z.leb_spec (Arc.lru_capacity p) (zlength (Arc.lru_mainList p))) as [Hfull|Hroom];
      simpl.
    + destruct (ARC_lru_evict p Hnd) as (Hnd' & Hsub & Hlen').
      destruct (lru_evict_caps p) as [Hcap _].
      unfold Arc.lru_set_mainList. simpl. split; [split; simpl|].
      * apply NoDup_cons. split; [|done].
        intros Hin. apply Hfresh. eapply elem_of_sublist; [done | by apply fmap_sublist].
      * rewrite Hcap. unfold zlength in *. simpl.
        rewrite <- Hlen'; [lia|].
        intros Hemp. rewrite Hemp in Hfull. simpl in Hfull. lia.
      * intros n [->|Hin]%elem_of_cons; [by left|]. right. split.
        -- intros Hk. apply Hfresh. rewrite <- Hk. apply list_elem_of_fmap_2.
           by eapply elem_of_sublist.
        -- by eapply elem_of_sublist.
    + unfold Arc.lru_set_mainList. simpl. split; [split; simpl|].
      * by apply NoDup_cons.
      * unfold zlength in *. simpl. lia.
      * intros n [->|Hin]%elem_of_cons; [by left|]. right. split; [|done].
        intros Hk. apply Hfresh. rewrite <- Hk. by apply list_elem_of_fmap_2.
Qed.

Lemma ARC_lru_get_wf p key :
  ARC_lru_wf p ->
  let p' := (Arc.lru_get p key).1 in
  ARC_lru_wf p'
  /\ (forall n, n ∈ Arc.lru_mainList p' ->
        exists m, m ∈ Arc.lru_mainList p /\ Arc._key m = Arc._key n
                  /\ Arc._value m = Arc._value n)
  /\ (forall v st, (Arc.lru_get p key).2 = Some (v, st) ->
        exists m, m ∈ Arc.lru_mainList p /\ Arc._key m = key /\ Arc._value m = v).
Proof.
  intros [Hnd Hlen]. unfold Arc.lru_get.
  destruct (Arc.lru_find p key) as [m|] eqn:Hf; simpl.
  - pose proof (ARC_find_Some _ _ _ Hf) as [Hk Hm].
    unfold Arc.lru_set_mainList, Arc.moveToFront. simpl.
    rewrite Hk. split; [split; simpl|split].
    + apply NoDup_cons. split.
      * intros (x & Hx & Hin)%list_elem_of_fmap.
        by apply (ARC_removeFromMain_gone _ _ _ Hnd Hin).
      * eapply ARC_sublist_wf; [apply ARC_removeFromMain_sublist | done].
    + unfold zlength in *. simpl. rewrite (ARC_removeFromMain_length _ _ _ Hf) in Hlen. lia.
    + intros n [->|Hin]%elem_of_cons; [by exists m|]. exists n. split; [|done].
      eapply elem_of_sublist; [done | apply ARC_removeFromMain_sublist].
    + intros v st [= <- _]. by exists m.
  - split; [done|]. split; [|done]. intros n Hn. by exists n.
Qed.

Lemma ARC_lru_decrease_wf p :
  ARC_lru_wf p ->
  let p' := (Arc.lru_decreaseCapacity p).1 in
  ARC_lru_wf p' /\ sublist (Arc.lru_mainList p') (Arc.lru_mainList p).
Proof.
  intros [Hnd Hlen]. unfold Arc.lru_decreaseCapacity.
  destruct (Z.leb_spec (Arc.lru_capacity p) 0) as [Hz|Hpos]; simpl.
  { split; [|done]. split; [done|]. simpl. lia. }
  destruct (Z.eqb_spec (zlength (Arc.lru_mainList p)) (Arc.lru_capacity p)) as [Hfull|Hroom];
    simpl.
  - destruct (ARC_lru_evict p Hnd) as (Hnd' & Hsub & Hlen').
    destruct (lru_evict_caps p) as [Hcap _].
    split; [|done]. split; [done|]. simpl. rewrite Hcap.
    assert (Arc.lru_mainList p <> []) as Hne.
    { intros Hemp. rewrite Hemp in Hfull. unfold zlength in Hfull. simpl in Hfull. lia. }
    specialize (Hlen' Hne). unfold zlength in *. lia.
  - split; [|done]. split; [done|]. simpl. lia.
Qed.


(** *** T2: the index and the frequency lists *)

Implicit Types (fm : gmap Z (list Key)).

Lemma ARC_freqMap_begin fm :
  fm <> ∅ -> exists f, Arc.freqMap_begin fm = Some f /\ is_Some (fm !! f).
Proof.
  unfold Arc.freqMap_begin. intros Hne.
  assert (fm = ∅ /\ map_fold (fun f (_ : list Key) acc =>
                      Some (from_option (Z.min f) f acc)) None fm = None
          \/ exists f, map_fold (fun f (_ : list Key) acc =>
                         Some (from_option (Z.min f) f acc)) None fm = Some f
                       /\ is_Some (fm !! f)) as [[? _]|?]; [|done|done].
  clear Hne.
  apply (map_fold_weak_ind (fun acc fm =>
    fm = ∅ /\ acc = None \/ exists f, acc = Some f /\ is_Some (fm !! f))).
  - by left.
  - intros i x m r Hi [[-> ->]|(f & -> & Hf)]; right; simpl.
    + exists i. split; [done|]. rewrite lookup_insert_eq. by eexists.
    + exists (Z.min i f). split; [done|].
      destruct (Z.min_spec i f) as [[_ ->]|[_ ->]].
      * rewrite lookup_insert_eq. by eexists.
      * rewrite lookup_insert_ne; [done|]. intros ->. rewrite Hi in Hf. by destruct Hf.
Qed.


Lemma ARC_filter_ne (l : list Key) key :
  List.filter (fun k => negb (bool_decide (k = key))) l = filter (fun k => k <> key) l.
Proof.
  induction l as [|k l IH]; simpl; [done|].
  rewrite filter_cons. case_bool_decide as Hk; simpl.
  - by rewrite decide_False by (by intros ?).
  - rewrite decide_True by done. by rewrite IH.
Qed.

Lemma ARC_count_next (x : Z) : to_size_t (x + 1) <> x.
Proof.
  unfold to_size_t. intros Heq.
  pose proof (Z.mod_pos_bound (x + 1) (2 ^ 64)) as Hb.
  destruct (Z.eq_dec x (2 ^ 64 - 1)) as [->|Hne].
  - by vm_compute in Heq.
  - rewrite Z.mod_small in Heq by lia. lia.
Qed.

(** [updateNodeFrequency] on the resident node of [key]: the node moves
    from the list of its count to the end of the list of the next count. *)
Lemma ARC_lfu_update_sync q key n0 n :
  ARC_lfu_sync q -> Arc.lfu_mainCache q !! key = Some n0 ->
  Arc._accessCount n = Arc._accessCount n0 ->
  let q' := Arc.lfu_updateNodeFrequency q key n in
  ARC_lfu_sync q'
  /\ Arc.lfu_mainCache q'
     = <[key := Arc.mkNode (Arc._key n) (Arc._value n)
                  (to_size_t (Arc._accessCount n + 1))]> (Arc.lfu_mainCache q)
  /\ Arc.lfu_capacity q' = Arc.lfu_capacity q.
Proof.
  intros (S1 & S2 & S3 & S4) Hn0 Hcount.
  destruct (S1 key n0 Hn0) as (l0 & Hl0 & Hkey0). rewrite <- Hcount in Hl0.
  pose proof (ARC_count_next (Arc._accessCount n)) as Hnext.
  unfold Arc.lfu_updateNodeFrequency. rewrite Hl0. simpl. rewrite ARC_filter_ne.
  set (old := Arc._accessCount n) in *. set (new := to_size_t (old + 1)) in *.
  set (oldList := filter (fun k => k <> key) l0).
  set (fm1 := if bool_decide (oldList = []) then delete old (Arc.lfu_freqMap q)
              else <[old := oldList]> (Arc.lfu_freqMap q)).
  assert (forall k, k ∈ oldList <-> k <> key /\ k ∈ l0) as Hold.
  { intros k. unfold oldList. by rewrite list_elem_of_filter. }
  assert (fm1 !! new = Arc.lfu_freqMap q !! new) as Hfm1new.
  { unfold fm1. case_bool_decide.
    - by rewrite lookup_delete_ne.
    - by rewrite lookup_insert_ne. }
  assert (forall f, f <> old -> fm1 !! f = Arc.lfu_freqMap q !! f) as Hfm1other.
  { intros f Hf. unfold fm1. case_bool_decide.
    - by rewrite lookup_delete_ne.
    - by rewrite lookup_insert_ne. }
  assert (fm1 !! old = if bool_decide (oldList = []) then None else Some oldList) as Hfm1old.
  { unfold fm1. case_bool_decide.
    - by rewrite lookup_delete_eq.
    - by rewrite lookup_insert_eq. }
  assert (forall k, k ∈ default [] (Arc.lfu_freqMap q !! new) ->
            k <> key /\ exists m, Arc.lfu_mainCache q !! k = Some m
                                  /\ Arc._accessCount m = new) as Hnewlist.
  { intros k Hk. destruct (Arc.lfu_freqMap q !! new) as [lnew|] eqn:Hlnew; simpl in Hk;
      [|by apply elem_of_nil in Hk].
    destruct (S2 _ _ k Hlnew Hk) as (m & Hm & Hf). split; [|by eauto].
    intros ->. rewrite Hn0 in Hm. injection Hm as <-. congruence. }
  split; [|done].
  unfold ARC_lfu_sync. simpl. rewrite Hfm1new. split; [|split; [|split]].
  - intros k m. destruct (decide (key = k)) as [<-|Hne].
    + rewrite lookup_insert_eq. intros [= <-]. simpl. rewrite lookup_insert_eq.
      eexists. split; [done|]. apply elem_of_app. right. by apply list_elem_of_singleton.
    + rewrite lookup_insert_ne by done. intros Hm.
      destruct (S1 k m Hm) as (lm & Hlm & Hk).
      destruct (decide (Arc._accessCount m = new)) as [Heq|Hneq].
      * rewrite Heq, lookup_insert_eq. eexists. split; [done|].
        apply elem_of_app. left. rewrite Heq in Hlm. by rewrite Hlm.
      * rewrite lookup_insert_ne by done.
        destruct (decide (Arc._accessCount m = old)) as [Heq|Hneq'].
        -- rewrite Heq, Hfm1old. rewrite Heq, Hl0 in Hlm. injection Hlm as <-.
           assert (k ∈ oldList) as Hin by (apply Hold; by split).
           rewrite bool_decide_eq_false_2; [by eauto|].
           intros Hemp. rewrite Hemp in Hin. by apply elem_of_nil in Hin.
        -- rewrite Hfm1other by done. by eauto.
  - intros f l k. destruct (decide (f = new)) as [->|Hneq].
    + rewrite lookup_insert_eq.
      intros [= <-] [Hk|Hk%list_elem_of_singleton]%elem_of_app.
      * destruct (Hnewlist k Hk) as (Hne & m & Hm & Hf). exists m.
        by rewrite lookup_insert_ne.
      * subst k. rewrite lookup_insert_eq. by eexists.
    + rewrite lookup_insert_ne by done.
      destruct (decide (f = old)) as [->|Hneq'].
      * rewrite Hfm1old. case_bool_decide; [done|]. intros [= <-] Hk.
        apply Hold in Hk as [Hne Hk].
        destruct (S2 _ _ k Hl0 Hk) as (m & Hm & Hf). exists m.
        by rewrite lookup_insert_ne.
      * rewrite Hfm1other by done. intros Hl Hk.
        destruct (S2 _ _ k Hl Hk) as (m & Hm & Hf). exists m. split; [|done].
        rewrite lookup_insert_ne; [done|]. intros ->.
        rewrite Hn0 in Hm. injection Hm as <-. congruence.
  - intros f l. destruct (decide (f = new)) as [->|Hneq].
    + rewrite lookup_insert_eq. intros [= <-]. split.
      * apply NoDup_app. split; [|split; [|apply NoDup_singleton]].
        -- destruct (Arc.lfu_freqMap q !! new) as [lnew|] eqn:Hlnew; simpl;
             [by eapply S3 | apply NoDup_nil_2].
        -- intros k Hk ->%list_elem_of_singleton. by destruct (Hnewlist key Hk).
      * intros Hemp. by apply app_eq_nil in Hemp as [_ ?].
    + rewrite lookup_insert_ne by done.
      destruct (decide (f = old)) as [->|Hneq'].
      * rewrite Hfm1old. case_bool_decide; [done|]. intros [= <-]. split; [|done].
        apply NoDup_filter. by eapply S3.
      * rewrite Hfm1other by done. apply S3.
  - intros _. assert (is_Some (Arc.lfu_freqMap q !! Arc.lfu_minFreq q)) as Hmin.
    { apply S4. intros Hemp. by rewrite Hemp, lookup_empty in Hn0. }
    destruct (bool_decide (oldList = [])) eqn:Hemp; simpl.
    + destruct (Z.eqb_spec old (Arc.lfu_minFreq q)) as [Heq|Hneq].
      * rewrite lookup_insert_eq. by eexists.
      * destruct (decide (Arc.lfu_minFreq q = new)) as [->|Hneq'].
        -- rewrite lookup_insert_eq. by eexists.
        -- rewrite lookup_insert_ne by done. rewrite Hfm1other by done. done.
    + destruct (decide (Arc.lfu_minFreq q = new)) as [->|Hneq'].
      * rewrite lookup_insert_eq. by eexists.
      * rewrite lookup_insert_ne by done.
        destruct (decide (Arc.lfu_minFreq q = old)) as [->|Hneq''].
        -- rewrite Hfm1old. by eexists.
        -- by rewrite Hfm1other.
Qed.


(** [evictLeastFrequent] takes exactly one resident node out of T2, the
    first of the list of [_minFreq], unless T2 is empty. *)
Lemma ARC_lfu_evict_sync q :
  ARC_lfu_sync q ->
  let q' := Arc.lfu_evictLeastFrequent q in
  ARC_lfu_sync q'
  /\ Arc.lfu_capacity q' = Arc.lfu_capacity q
  /\ (Arc.lfu_mainCache q = ∅ /\ Arc.lfu_mainCache q' = ∅
      \/ exists victim rest,
           Arc.lfu_freqMap q !! Arc.lfu_minFreq q = Some (victim :: rest)
           /\ is_Some (Arc.lfu_mainCache q !! victim)
           /\ Arc.lfu_mainCache q' = delete victim (Arc.lfu_mainCache q)).
Proof.
  intros Hsync. pose proof Hsync as (S1 & S2 & S3 & S4).
  unfold Arc.lfu_evictLeastFrequent.
  destruct (decide (Arc.lfu_freqMap q = ∅)) as [Hemp|Hne]; simpl.
  { split; [done|]. split; [done|]. left.
    assert (Arc.lfu_mainCache q = ∅) as Hmc; [|done].
    apply map_empty. intros k. destruct (Arc.lfu_mainCache q !! k) as [m|] eqn:Hm; [|done].
    destruct (S1 k m Hm) as (l & Hl & _). by rewrite Hemp, lookup_empty in Hl. }
  assert (Arc.lfu_mainCache q <> ∅) as Hmc.
  { apply map_choose in Hne as (f & l & Hl). destruct (S3 f l Hl) as [_ Hlne].
    destruct l as [|k l]; [done|].
    destruct (S2 f _ k Hl) as (m & Hm & _); [by left|].
    intros Hemp. by rewrite Hemp, lookup_empty in Hm. }
  destruct (S4 Hmc) as [l Hl]. destruct (S3 _ _ Hl) as [Hnd Hlne].
  rewrite Hl. simpl. destruct l as [|victim rest]; [done|].
  apply NoDup_cons in Hnd as [Hvictim Hrest].
  destruct (S2 _ _ victim Hl) as (nv & Hnv & Hcv); [by left|].
  set (fm' := if bool_decide (rest = []) then delete (Arc.lfu_minFreq q) (Arc.lfu_freqMap q)
              else <[Arc.lfu_minFreq q := rest]> (Arc.lfu_freqMap q)).
  assert (forall f, f <> Arc.lfu_minFreq q -> fm' !! f = Arc.lfu_freqMap q !! f) as Hother.
  { intros f Hf. unfold fm'. case_bool_decide.
    - by rewrite lookup_delete_ne.
    - by rewrite lookup_insert_ne. }
  assert (fm' !! Arc.lfu_minFreq q = if bool_decide (rest = []) then None else Some rest)
    as Hat.
  { unfold fm'. case_bool_decide.
    - by rewrite lookup_delete_eq.
    - by rewrite lookup_insert_eq. }
  assert (forall k m, delete victim (Arc.lfu_mainCache q) !! k = Some m ->
            exists ks : list Key, fm' !! Arc._accessCount m = Some ks /\ k ∈ ks) as S1'.
  { intros k m [Hkv Hm]%lookup_delete_Some.
    destruct (S1 k m Hm) as (lm & Hlm & Hk).
    destruct (decide (Arc._accessCount m = Arc.lfu_minFreq q)) as [Heq|Hneq].
    - rewrite Heq, Hat. rewrite Heq, Hl in Hlm. injection Hlm as <-.
      apply elem_of_cons in Hk as [->|Hk]; [done|].
      rewrite bool_decide_eq_false_2; [by eauto|].
      intros Hemp. rewrite Hemp in Hk. by apply elem_of_nil in Hk.
    - rewrite Hother by done. by eauto. }
  split; [|split; [done|]].
  - unfold ARC_lfu_sync. simpl. fold fm'. split; [exact S1'|]. split; [|split].
    + intros f l' k. destruct (decide (f = Arc.lfu_minFreq q)) as [->|Hneq].
      * rewrite Hat. case_bool_decide; [done|]. intros [= <-] Hk.
        destruct (S2 _ _ k Hl) as (m & Hm & Hf); [by right|]. exists m. split; [|done].
        apply lookup_delete_Some. split; [|done]. by intros ->.
      * rewrite Hother by done. intros Hl' Hk.
        destruct (S2 _ _ k Hl' Hk) as (m & Hm & Hf). exists m. split; [|done].
        apply lookup_delete_Some. split; [|done]. intros ->.
        rewrite Hnv in Hm. injection Hm as <-. congruence.
    + intros f l'. destruct (decide (f = Arc.lfu_minFreq q)) as [->|Hneq].
      * rewrite Hat. case_bool_decide; [done|]. by intros [= <-].
      * rewrite Hother by done. apply S3.
    + intros Hmc'. case_bool_decide as Hr; [|rewrite Hat; by eauto].
      apply map_choose in Hmc' as (k & m & Hm).
      destruct (S1' k m Hm) as (l' & Hl' & _).
      destruct (ARC_freqMap_begin fm') as (f & -> & Hf); [|done].
      intros Hemp. by rewrite Hemp, lookup_empty in Hl'.
  - right. exists victim, rest. split; [done|]. split; [by eauto | done].
Qed.


(** A node for a key that is not resident, at the front of the list of
    count 1. *)
Lemma ARC_lfu_insert_sync q key value :
  ARC_lfu_sync q -> Arc.lfu_mainCache q !! key = None ->
  ARC_lfu_sync
    (Arc.lfu_set_main q 1 (<[key := Arc.mkNode key value 1]> (Arc.lfu_mainCache q))
       (<[1 := key :: default [] (Arc.lfu_freqMap q !! 1)]> (Arc.lfu_freqMap q))).
Proof.
  intros (S1 & S2 & S3 & S4) Hfresh. unfold ARC_lfu_sync. simpl.
  assert (forall k, k ∈ default [] (Arc.lfu_freqMap q !! 1) ->
            k <> key /\ exists m, Arc.lfu_mainCache q !! k = Some m
                                  /\ Arc._accessCount m = 1) as Hone.
  { intros k Hk. destruct (Arc.lfu_freqMap q !! 1) as [l1|] eqn:Hl1; simpl in Hk;
      [|by apply elem_of_nil in Hk].
    destruct (S2 _ _ k Hl1 Hk) as (m & Hm & Hf). split; [|by eauto].
    intros ->. congruence. }
  split; [|split; [|split]].
  - intros k m. destruct (decide (key = k)) as [<-|Hne].
    + rewrite lookup_insert_eq. intros [= <-]. simpl. rewrite lookup_insert_eq.
      eexists. split; [done|]. by left.
    + rewrite lookup_insert_ne by done. intros Hm.
      destruct (S1 k m Hm) as (lm & Hlm & Hk).
      destruct (decide (Arc._accessCount m = 1)) as [Heq|Hneq].
      * rewrite Heq, lookup_insert_eq. eexists. split; [done|].
        right. rewrite Heq in Hlm. by rewrite Hlm.
      * rewrite lookup_insert_ne by done. by eauto.
  - intros f ks k. destruct (decide (f = 1)) as [->|Hneq].
    + rewrite lookup_insert_eq. intros [= <-] [->|Hk]%elem_of_cons.
      * rewrite lookup_insert_eq. by eexists.
      * destruct (Hone k Hk) as (Hne & m & Hm & Hf). exists m.
        by rewrite lookup_insert_ne.
    + rewrite lookup_insert_ne by done. intros Hl Hk.
      destruct (S2 _ _ k Hl Hk) as (m & Hm & Hf). exists m. split; [|done].
      rewrite lookup_insert_ne; [done|]. intros ->. congruence.
  - intros f ks. destruct (decide (f = 1)) as [->|Hneq].
    + rewrite lookup_insert_eq. intros [= <-]. split; [|done].
      apply NoDup_cons. split.
      * intros Hk. by destruct (Hone key Hk).
      * destruct (Arc.lfu_freqMap q !! 1) as [l1|] eqn:Hl1; simpl;
          [by eapply S3 | apply NoDup_nil_2].
    + rewrite lookup_insert_ne by done. apply S3.
  - intros _. rewrite lookup_insert_eq. by eexists.
Qed.

Lemma ARC_lfu_size_delete q victim (mc : gmap Key (Arc.ArcNode Key Value)) :
  is_Some (Arc.lfu_mainCache q !! victim) -> mc = delete victim (Arc.lfu_mainCache q) ->
  Z.of_nat (size mc) = Arc.lfu_size q - 1.
Proof.
  intros Hv ->. unfold Arc.lfu_size. rewrite map_size_delete_Some by done.
  assert (size (Arc.lfu_mainCache q) <> 0%nat); [|lia].
  apply map_size_non_empty_iff. intros Hemp. rewrite Hemp, lookup_empty in Hv.
  by destruct Hv.
Qed.

Lemma ARC_lfu_put_wf q key value :
  ARC_lfu_wf q ->
  let q' := (Arc.lfu_put q key value).1 in
  ARC_lfu_wf q'
  /\ forall k m', Arc.lfu_mainCache q' !! k = Some m' ->
       (k = key /\ Arc._value m' = value)
       \/ (k <> key /\ Arc.lfu_mainCache q !! k = Some m').
Proof.
  intros [Hsync Hsize]. unfold Arc.lfu_put.
  destruct (Z.eqb_spec (Arc.lfu_capacity q) 0) as [Hz|Hnz]; simpl.
  { split; [done|]. intros k m' Hm. exfalso.
    assert (size (Arc.lfu_mainCache q) = 0%nat) as Hemp by (unfold Arc.lfu_size in Hsize; lia).
    apply map_size_empty_inv in Hemp. by rewrite Hemp, lookup_empty in Hm. }
  destruct (Arc.lfu_mainCache q !! key) as [n|] eqn:Hn; simpl.
  - unfold Arc.lfu_updateExistingNode.
    destruct (ARC_lfu_update_sync q key n
                (Arc.mkNode (Arc._key n) value (Arc._accessCount n)) Hsync Hn eq_refl)
      as (Hsync' & Hmap & Hcap).
    split; [split; [done|]|].
    + rewrite Hcap. unfold Arc.lfu_size. rewrite Hmap.
      rewrite map_size_insert_Some by (by eexists). done.
    + intros k m'. rewrite ?Hmap. destruct (decide (key = k)) as [<-|Hne].
      * rewrite lookup_insert_eq. intros [= <-]. by left.
      * rewrite lookup_insert_ne by done. intros Hm. by right.
  - unfold Arc.lfu_addNewNode.
    set (q1 := if Arc.lfu_capacity q <=? Arc.lfu_size q
               then Arc.lfu_evictLeastFrequent q else q).
    assert (ARC_lfu_sync q1 /\ Arc.lfu_capacity q1 = Arc.lfu_capacity q
            /\ Arc.lfu_size q1 + 1 <= Arc.lfu_capacity q
            /\ forall k m, Arc.lfu_mainCache q1 !! k = Some m ->
                  Arc.lfu_mainCache q !! k = Some m) as (Hsync1 & Hcap1 & Hsize1 & Hsub).
    { unfold q1. destruct (Z.leb_spec (Arc.lfu_capacity q) (Arc.lfu_size q)) as [Hfull|Hroom].
      - destruct (ARC_lfu_evict_sync q Hsync) as (Hs' & Hc' & Hmc).
        split; [done|]. split; [done|].
        destruct Hmc as [[Hemp _]|(victim & rest & _ & Hv & Hmap)].
        + exfalso. unfold Arc.lfu_size in *. rewrite Hemp, map_size_empty in *. lia.
        + split.
          * unfold Arc.lfu_size at 1. rewrite (ARC_lfu_size_delete q victim _ Hv Hmap). lia.
          * intros k m. rewrite Hmap. by intros [_ ?]%lookup_delete_Some.
      - split; [done|]. split; [done|]. split; [lia|done]. }
    assert (Arc.lfu_mainCache q1 !! key = None) as Hfresh.
    { destruct (Arc.lfu_mainCache q1 !! key) as [m|] eqn:Hm; [|done].
      apply Hsub in Hm. congruence. }
    split; [split|].
    + by apply ARC_lfu_insert_sync.
    + unfold Arc.lfu_size in *. simpl. rewrite map_size_insert_None by done.
      rewrite Hcap1. lia.
    + intros k m'. simpl. destruct (decide (key = k)) as [<-|Hne].
      * rewrite lookup_insert_eq. intros [= <-]. by left.
      * rewrite lookup_insert_ne by done. intros Hm. right. split; [done|]. by apply Hsub.
Qed.

Lemma ARC_lfu_get_wf q key :
  ARC_lfu_wf q ->
  let q' := (Arc.lfu_get q key).1 in
  ARC_lfu_wf q'
  /\ (forall k m', Arc.lfu_mainCache q' !! k = Some m' ->
        exists m, Arc.lfu_mainCache q !! k = Some m /\ Arc._value m = Arc._value m')
  /\ (forall v, (Arc.lfu_get q key).2 = Some v ->
        exists m, Arc.lfu_mainCache q !! key = Some m /\ Arc._value m = v).
Proof.
  intros [Hsync Hsize]. unfold Arc.lfu_get.
  destruct (Arc.lfu_mainCache q !! key) as [n|] eqn:Hn; simpl.
  - destruct (ARC_lfu_update_sync q key n n Hsync Hn eq_refl) as (Hsync' & Hmap & Hcap).
    split; [split; [done|]|split].
    + rewrite Hcap. unfold Arc.lfu_size. rewrite Hmap.
      rewrite map_size_insert_Some by (by eexists). done.
    + intros k m'. rewrite ?Hmap. destruct (decide (key = k)) as [<-|Hne].
      * rewrite lookup_insert_eq. intros [= <-]. by exists n.
      * rewrite lookup_insert_ne by done. intros Hm. by exists m'.
    + intros v [= <-]. by exists n.
  - split; [done|]. split; [|done]. intros k m' Hm. by exists m'.
Qed.

Lemma ARC_lfu_decrease_wf q :
  ARC_lfu_wf q ->
  let q' := (Arc.lfu_decreaseCapacity q).1 in
  ARC_lfu_wf q'
  /\ forall k m, Arc.lfu_mainCache q' !! k = Some m -> Arc.lfu_mainCache q !! k = Some m.
Proof.
  intros [Hsync Hsize]. unfold Arc.lfu_decreaseCapacity.
  destruct (Z.leb_spec (Arc.lfu_capacity q) 0) as [Hz|Hpos]; simpl.
  { split; [|done]. split; [done|]. simpl. unfold Arc.lfu_size in *. simpl. lia. }
  destruct (Z.eqb_spec (Arc.lfu_size q) (Arc.lfu_capacity q)) as [Hfull|Hroom]; simpl.
  - destruct (ARC_lfu_evict_sync q Hsync) as (Hs' & Hc' & Hmc).
    destruct Hmc as [[Hemp _]|(victim & rest & _ & Hv & Hmap)].
    { exfalso. unfold Arc.lfu_size in *. rewrite Hemp, map_size_empty in *. lia. }
    split; [split|].
    + done.
    + unfold Arc.lfu_size at 1. simpl. rewrite (ARC_lfu_size_delete q victim _ Hv Hmap).
      rewrite Hc'. lia.
    + intros k m. simpl. rewrite Hmap. by intros [_ ?]%lookup_delete_Some.
  - split; [|done]. split; [done|]. unfold Arc.lfu_size in *. simpl. lia.
Qed.


(** *** The composite *)

Implicit Types (ops : list (Arc.op Key Value)).

Lemma ARC_last_put_snoc key ops o :
  ARC_last_put key (ops ++ [o])
  = match o with
    | Arc.Put k v => if decide (k = key) then Some v else ARC_last_put key ops
    | Arc.Get _ => ARC_last_put key ops
    end.
Proof. unfold ARC_last_put. by rewrite fold_left_app. Qed.

Lemma ARC_run_snoc c ops o : Arc.run c (ops ++ [o]) = Arc.step (Arc.run c ops) o.
Proof. unfold Arc.run. by rewrite fold_left_app. Qed.

(** The rebalance keeps both parts in good order and admits nothing. *)
Lemma ARC_checkGhostCaches_wf total ghost c key :
  total < 2 ^ 64 -> ARC_caps total ghost c ->
  ARC_lru_wf (Arc._lruPart c) -> ARC_lfu_wf (Arc._lfuPart c) ->
  let c1 := (Arc.checkGhostCaches c key).1 in
  ARC_lru_wf (Arc._lruPart c1) /\ ARC_lfu_wf (Arc._lfuPart c1)
  /\ sublist (Arc.lru_mainList (Arc._lruPart c1)) (Arc.lru_mainList (Arc._lruPart c))
  /\ (forall k m, Arc.lfu_mainCache (Arc._lfuPart c1) !! k = Some m ->
        Arc.lfu_mainCache (Arc._lfuPart c) !! k = Some m).
Proof.
  intros Htot (Hc1 & Hc2 & Hsum & _ & _) Hlru Hlfu. unfold Arc.checkGhostCaches.
  assert (forall p key, Arc.lru_mainList (Arc.lru_checkGhost p key).1 = Arc.lru_mainList p)
    as Hlist.
  { intros p k. unfold Arc.lru_checkGhost. by destruct (Arc.ghost_check _ _). }
  assert (forall q key, Arc.lfu_mainCache (Arc.lfu_checkGhost q key).1 = Arc.lfu_mainCache q
                        /\ Arc.lfu_freqMap (Arc.lfu_checkGhost q key).1 = Arc.lfu_freqMap q
                        /\ Arc.lfu_minFreq (Arc.lfu_checkGhost q key).1 = Arc.lfu_minFreq q)
    as Hmap.
  { intros q k. unfold Arc.lfu_checkGhost. by destruct (Arc.ghost_check _ _). }
  pose proof (lru_checkGhost_caps (Arc._lruPart c) key) as [Hl1 _].
  specialize (Hlist (Arc._lruPart c) key).
  destruct (Arc.lru_checkGhost (Arc._lruPart c) key) as [lru1 hit1]. simpl in *.
  assert (ARC_lru_wf lru1) as Hlru1.
  { destruct Hlru as [Hnd Hlen]. split; [by rewrite Hlist | by rewrite Hlist, Hl1]. }
  destruct hit1.
  - pose proof (lfu_decreaseCapacity_spec (Arc._lfuPart c) Hc2) as [_ Hd].
    destruct (ARC_lfu_decrease_wf (Arc._lfuPart c) Hlfu) as [Hlfu1 Hsub].
    destruct (Arc.lfu_decreaseCapacity (Arc._lfuPart c)) as [lfu1 dec]. simpl in *.
    split; [|split; [done|split; [|done]]].
    + destruct Hd as [(_ & -> & _)|(Hpos & -> & _)]; [done|].
      destruct Hlru1 as [Hnd Hlen]. split; [done|]. simpl.
      rewrite to_size_t_small by lia. lia.
    + destruct dec; simpl; by rewrite Hlist.
  - pose proof (lfu_checkGhost_caps (Arc._lfuPart c) key) as [Hf1 _].
    destruct (Hmap (Arc._lfuPart c) key) as (Hm1 & Hm2 & Hm3).
    destruct (Arc.lfu_checkGhost (Arc._lfuPart c) key) as [lfu1 hit2]. simpl in *.
    assert (ARC_lfu_wf lfu1) as Hlfu1.
    { destruct Hlfu as [(S1 & S2 & S3 & S4) Hsize].
      split; [|unfold Arc.lfu_size in *; by rewrite Hm1, Hf1].
      unfold ARC_lfu_sync. rewrite Hm1, Hm2, Hm3. done. }
    destruct hit2.
    + assert (0 <= Arc.lru_capacity lru1) as Hc1' by lia.
      pose proof (lru_decreaseCapacity_spec lru1 Hc1') as [_ Hd].
      destruct (ARC_lru_decrease_wf lru1 Hlru1) as [Hlru2 Hsub].
      destruct (Arc.lru_decreaseCapacity lru1) as [lru2 dec]. simpl in *.
      split; [done|]. split; [|split; [by rewrite <- Hlist|]].
      * destruct Hd as [(_ & -> & _)|(Hpos & -> & _)]; [done|].
        destruct Hlfu1 as [Hsync Hlen]. split; [done|].
        unfold Arc.lfu_size in *. simpl. rewrite to_size_t_small by lia. lia.
      * intros k m. destruct dec; simpl; by rewrite Hm1.
    + simpl. split; [done|]. split; [done|]. split; [by rewrite Hlist | by rewrite Hm1].
Qed.

Lemma ARC_put_inv total ghost ops c key value :
  total < 2 ^ 64 -> ARC_inv total ghost ops c ->
  ARC_inv total ghost (ops ++ [Arc.Put key value]) (Arc.put c key value).
Proof.
  intros Htot (Hcaps & Hlru & Hlfu & Ht1 & Ht2).
  split; [by apply ARC_put_caps|].
  destruct (ARC_checkGhostCaches_wf total ghost c key Htot Hcaps Hlru Hlfu)
    as (Hlru1 & Hlfu1 & Hsub1 & Hsub2).
  unfold Arc.put. destruct (Arc.checkGhostCaches c key) as [c1 hit]. simpl in *.
  destruct (ARC_lru_put_wf (Arc._lruPart c1) key value Hlru1) as [Hlru' Hin'].
  destruct (ARC_lfu_put_wf (Arc._lfuPart c1) key value Hlfu1) as [Hlfu' Hmap'].
  split; [done|]. split; [by destruct (Arc.lfu_contain _ _)|]. split.
  - intros n Hn. rewrite ARC_last_put_snoc.
    destruct (Hin' n Hn) as [[-> ->]|[Hne Hin]].
    + by rewrite decide_True.
    + rewrite decide_False by done. apply Ht1. by eapply elem_of_sublist.
  - intros k m Hm. rewrite ARC_last_put_snoc.
    unfold Arc.lfu_contain in Hm. case_bool_decide as Hk.
    + destruct (Hmap' k m Hm) as [[-> ->]|[Hne Hin]].
      * by rewrite decide_True.
      * rewrite decide_False by done. by apply Ht2, Hsub2.
    + rewrite decide_False.
      * by apply Ht2, Hsub2.
      * intros ->. apply Hk. by eexists.
Qed.

Lemma ARC_get_inv total ghost ops c key :
  total < 2 ^ 64 -> ARC_inv total ghost ops c ->
  ARC_inv total ghost (ops ++ [Arc.Get key]) (Arc.get c key).1
  /\ forall v, (Arc.get c key).2 = Some v -> ARC_last_put key ops = Some v.
Proof.
  intros Htot (Hcaps & Hlru & Hlfu & Ht1 & Ht2).
  pose proof (ARC_get_caps total ghost c key Htot Hcaps) as Hcaps'.
  destruct (ARC_checkGhostCaches_wf total ghost c key Htot Hcaps Hlru Hlfu)
    as (Hlru1 & Hlfu1 & Hsub1 & Hsub2).
  unfold Arc.get in *. destruct (Arc.checkGhostCaches c key) as [c1 hit]. simpl in *.
  destruct (ARC_lru_get_wf (Arc._lruPart c1) key Hlru1) as (Hlru' & Hin' & Hres).
  destruct (Arc.lru_get (Arc._lruPart c1) key) as [lru1 [[v st]|]]; simpl in *.
  - destruct (Hres v st eq_refl) as (m & Hm & Hkm & Hvm).
    assert (ARC_last_put key ops = Some v) as Hlast.
    { rewrite <- Hkm, <- Hvm. apply Ht1. by eapply elem_of_sublist. }
    destruct (ARC_lfu_put_wf (Arc._lfuPart c1) key v Hlfu1) as [Hlfu' Hmap'].
    split; [|by intros ? [= <-]].
    split; [done|]. split; [done|]. split; [by destruct st|]. split.
    + intros n Hn. rewrite ARC_last_put_snoc.
      destruct (Hin' n Hn) as (m' & Hm' & <- & <-). apply Ht1. by eapply elem_of_sublist.
    + intros k n Hn. rewrite ARC_last_put_snoc. destruct st.
      * destruct (Hmap' k n Hn) as [[-> ->]|[Hne Hin]]; [done|]. by apply Ht2, Hsub2.
      * by apply Ht2, Hsub2.
  - destruct (ARC_lfu_get_wf (Arc._lfuPart c1) key Hlfu1) as (Hlfu' & Hmap' & Hres').
    destruct (Arc.lfu_get (Arc._lfuPart c1) key) as [lfu1 r]. simpl in *.
    split.
    + split; [done|]. split; [done|]. split; [done|]. split.
      * intros n Hn. rewrite ARC_last_put_snoc.
        destruct (Hin' n Hn) as (m' & Hm' & <- & <-). apply Ht1. by eapply elem_of_sublist.
      * intros k n Hn. rewrite ARC_last_put_snoc.
        destruct (Hmap' k n Hn) as (m & Hm & <-). by apply Ht2, Hsub2.
    + intros v Hv. destruct (Hres' v Hv) as (m & Hm & <-). by apply Ht2, Hsub2.
Qed.

Lemma ARC_run_inv capacity transformThreshold ops :
  0 <= capacity -> 2 * capacity < 2 ^ 64 ->
  ARC_inv (2 * capacity) capacity ops (Arc.run (Arc.new capacity transformThreshold) ops).
Proof.
  intros Hpos Hsmall. induction ops as [|o ops IH] using rev_ind.
  - split; [by apply ARC_new_caps|]. split; [|split; [|split]].
    + split; [constructor | unfold zlength; simpl; lia].
    + split; [|unfold Arc.lfu_size; simpl; rewrite map_size_empty; simpl; lia].
      split; [|split; [|split]]; simpl.
      * intros k n. by rewrite lookup_empty.
      * intros f ks k. by rewrite lookup_empty.
      * intros f ks. by rewrite lookup_empty.
      * done.
    + intros n Hn. by apply elem_of_nil in Hn.
    + intros k n. simpl. by rewrite lookup_empty.
  - rewrite ARC_run_snoc. destruct o as [key value|key]; simpl.
    + by apply ARC_put_inv.
    + by apply ARC_get_inv.
Qed.


(** X21: both parts of an [ArcCache] stay within their capacities.  In
    every state a cache built with capacity [C] reaches ([2C] a [size_t]),
    T1 holds no key twice and at most as many nodes as T1's capacity, T2
    holds at most as many as T2's capacity, and so the two together hold
    at most [2C] entries. *)
Theorem ARC_parts_within_capacity (capacity transformThreshold : Z) ops :
  0 <= capacity -> 2 * capacity < 2 ^ 64 ->
  let c := Arc.run (Arc.new capacity transformThreshold) ops in
  NoDup (Arc._key <$> Arc.lru_mainList (Arc._lruPart c))
  /\ zlength (Arc.lru_mainList (Arc._lruPart c)) <= Arc.lru_capacity (Arc._lruPart c)
  /\ Arc.lfu_size (Arc._lfuPart c) <= Arc.lfu_capacity (Arc._lfuPart c)
  /\ zlength (Arc.lru_mainList (Arc._lruPart c)) + Arc.lfu_size (Arc._lfuPart c)
     <= 2 * capacity.
Proof.
  intros Hpos Hsmall c.
  destruct (ARC_run_inv capacity transformThreshold ops Hpos Hsmall)
    as ((_ & _ & Hsum & _) & [Hnd Hlen] & [_ Hsize] & _).
  fold c in Hsum, Hnd, Hlen, Hsize. split; [done|]. split; [done|]. split; [done|]. lia.
Qed.

(** X22: T2's index and its frequency lists never drift apart.  In
    every state such a cache reaches, every node of T2's index is linked in
    the list of its access count, every key linked in a list is in the
    index with that count, no list links a key twice or is empty, and
    while T2 holds a node [_minFreq] is a frequency that has a list:
    [evictLeastFrequent] then always finds a node to evict. *)
Theorem ARC_lfu_index_and_lists_agree (capacity transformThreshold : Z) ops :
  0 <= capacity -> 2 * capacity < 2 ^ 64 ->
  let q := Arc._lfuPart (Arc.run (Arc.new capacity transformThreshold) ops) in
  ARC_lfu_sync q
  /\ (Arc.lfu_mainCache q <> ∅ ->
      exists victim rest,
        Arc.lfu_freqMap q !! Arc.lfu_minFreq q = Some (victim :: rest)
        /\ is_Some (Arc.lfu_mainCache q !! victim)
        /\ Arc.lfu_mainCache (Arc.lfu_evictLeastFrequent q)
           = delete victim (Arc.lfu_mainCache q)).
Proof.
  intros Hpos Hsmall q.
  destruct (ARC_run_inv capacity transformThreshold ops Hpos Hsmall)
    as (_ & _ & [Hsync _] & _).
  fold q in Hsync. split; [done|]. intros Hne.
  destruct (ARC_lfu_evict_sync q Hsync) as (_ & _ & [[Hemp _]|Hv]); done.
Qed.

(** X23: an [ArcCache] returns no stale value.  When [get(key)] hits
    after a run from a fresh cache, in T1 or in T2, the value it returns is
    the one of the latest [put] of that key in the run. *)
Theorem ARC_get_returns_last_put (capacity transformThreshold : Z) ops key v :
  0 <= capacity -> 2 * capacity < 2 ^ 64 ->
  (Arc.get (Arc.run (Arc.new capacity transformThreshold) ops) key).2 = Some v ->
  ARC_last_put key ops = Some v.
Proof.
  intros Hpos Hsmall Hget.
  pose proof (ARC_run_inv capacity transformThreshold ops Hpos Hsmall) as Hinv.
  by destruct (ARC_get_inv _ _ _ _ key ltac:(done) Hinv) as [_ Hv]; apply Hv.
Qed.


(** *** The order of eviction in T2 *)

Lemma ARC_lfu_evict_sub q k m :
  Arc.lfu_mainCache (Arc.lfu_evictLeastFrequent q) !! k = Some m ->
  Arc.lfu_mainCache q !! k = Some m.
Proof.
  unfold Arc.lfu_evictLeastFrequent. destruct (decide _); [done|].
  destruct (default [] _) as [|victim rest]; simpl; [done|].
  by intros [_ ?]%lookup_delete_Some.
Qed.

(** What [put] of a key that is not resident leaves in T2. *)
Lemma ARC_lfu_put_new q key value :
  Arc.lfu_capacity q <> 0 -> Arc.lfu_mainCache q !! key = None ->
  exists q0,
    (Arc.lfu_put q key value).1
    = Arc.lfu_set_main q0 1 (<[key := Arc.mkNode key value 1]> (Arc.lfu_mainCache q0))
        (<[1 := key :: default [] (Arc.lfu_freqMap q0 !! 1)]> (Arc.lfu_freqMap q0))
    /\ Arc.lfu_capacity q0 = Arc.lfu_capacity q
    /\ forall k m, Arc.lfu_mainCache q0 !! k = Some m -> Arc.lfu_mainCache q !! k = Some m.
Proof.
  intros Hcap Hfresh. unfold Arc.lfu_put.
  destruct (Z.eqb_spec (Arc.lfu_capacity q) 0) as [?|_]; [done|].
  rewrite Hfresh. simpl. unfold Arc.lfu_addNewNode.
  destruct (_ <=? _).
  - exists (Arc.lfu_evictLeastFrequent q). split; [done|].
    split; [apply lfu_evict_caps | apply ARC_lfu_evict_sub].
  - by exists q.
Qed.

(** X24: T2 evicts its newest entry of count 1 first.  A key that
    [ArcLfuPart::put] has just inserted is linked at the front of the list
    of count 1, where [evictLeastFrequent] takes its victim: the next
    eviction removes that very key and makes it a ghost, whatever else T2
    holds.  So when T2 is full, the [put] of another new key evicts the
    key inserted just before it. *)
Theorem ARC_lfu_evicts_newest_first q k1 (v1 : Value) :
  Arc.lfu_capacity q <> 0 -> Arc.lfu_mainCache q !! k1 = None ->
  let q1 := (Arc.lfu_put q k1 v1).1 in
  is_Some (Arc.lfu_mainCache q1 !! k1)
  /\ Arc.lfu_mainCache (Arc.lfu_evictLeastFrequent q1) = delete k1 (Arc.lfu_mainCache q1)
  /\ k1 ∈ Arc._ghostCache (Arc.lfu_ghost (Arc.lfu_evictLeastFrequent q1))
  /\ forall k2 (v2 : Value),
       k2 <> k1 -> Arc.lfu_mainCache q !! k2 = None ->
       Arc.lfu_capacity q <= Arc.lfu_size q1 ->
       Arc.lfu_mainCache (Arc.lfu_put q1 k2 v2).1
       = <[k2 := Arc.mkNode k2 v2 1]> (delete k1 (Arc.lfu_mainCache q1)).
Proof.
  intros Hcap Hfresh q1.
  destruct (ARC_lfu_put_new q k1 v1 Hcap Hfresh) as (q0 & Hq1 & Hcap0 & Hsub).
  fold q1 in Hq1.
  assert (Arc.lfu_mainCache q1 !! k1 = Some (Arc.mkNode k1 v1 1)) as Hk1.
  { rewrite Hq1. simpl. by rewrite lookup_insert_eq. }
  assert (Arc.lfu_mainCache (Arc.lfu_evictLeastFrequent q1) = delete k1 (Arc.lfu_mainCache q1)
          /\ k1 ∈ Arc._ghostCache (Arc.lfu_ghost (Arc.lfu_evictLeastFrequent q1)))
    as [Hevict Hghost].
  { unfold Arc.lfu_evictLeastFrequent. rewrite Hq1. simpl.
    destruct (decide _) as [Hemp|_].
    { exfalso. by apply insert_non_empty in Hemp. }
    rewrite lookup_insert_eq. simpl. split; [done|].
    unfold Arc.evictToGhost, Arc.addToGhost. simpl. apply elem_of_union. left.
    by apply elem_of_singleton. }
  split; [by eauto|]. split; [done|]. split; [done|].
  intros k2 v2 Hne Hfresh2 Hfull. unfold Arc.lfu_put.
  assert (Arc.lfu_capacity q1 = Arc.lfu_capacity q) as Hcap1.
  { unfold q1. apply lfu_put_caps. }
  rewrite Hcap1. destruct (Z.eqb_spec (Arc.lfu_capacity q) 0) as [?|_]; [done|].
  assert (Arc.lfu_mainCache q1 !! k2 = None) as Hk2.
  { rewrite Hq1. simpl. rewrite lookup_insert_ne by done.
    destruct (Arc.lfu_mainCache q0 !! k2) as [m|] eqn:Hm; [|done].
    apply Hsub in Hm. congruence. }
  rewrite Hk2. simpl. unfold Arc.lfu_addNewNode. rewrite Hcap1.
  destruct (Z.leb_spec (Arc.lfu_capacity q) (Arc.lfu_size q1)) as [_|?]; [|lia].
  simpl. by rewrite Hevict.
Qed.


(** *** Promotion from T1 to T2 *)

(** X25: promotion copies.  [ArcCache::get] on a key that is resident in
    T1 and in neither ghost list returns its value and counts the access;
    when the count reaches the transform threshold and T2's capacity is
    not 0, the entry is also put into T2 with that value, and it stays in
    T1, as its most recent node: the key is then resident in both parts.
    Below the threshold T2 is left as it is. *)
Theorem ARC_get_promotes_by_copy c key n :
  key ∉ Arc._ghostCache (Arc.lru_ghost (Arc._lruPart c)) ->
  key ∉ Arc._ghostCache (Arc.lfu_ghost (Arc._lfuPart c)) ->
  Arc.lru_find (Arc._lruPart c) key = Some n ->
  let count := to_size_t (Arc._accessCount n + 1) in
  let c' := (Arc.get c key).1 in
  (Arc.get c key).2 = Some (Arc._value n)
  /\ Arc.lru_mainList (Arc._lruPart c')
     = Arc.mkNode key (Arc._value n) count
       :: Arc.removeFromMain key (Arc.lru_mainList (Arc._lruPart c))
  /\ (Arc.lru_transformThreshold (Arc._lruPart c) <= count ->
      Arc.lfu_capacity (Arc._lfuPart c) <> 0 ->
      exists m, Arc.lfu_mainCache (Arc._lfuPart c') !! key = Some m
                /\ Arc._value m = Arc._value n)
  /\ (count < Arc.lru_transformThreshold (Arc._lruPart c) ->
      Arc._lfuPart c' = Arc._lfuPart c).
Proof.
  intros Hg1 Hg2 Hf count c'. subst c'. unfold Arc.get.
  rewrite (ARC_checkGhostCaches_miss c key Hg1 Hg2). simpl.
  unfold Arc.lru_get. rewrite Hf. simpl.
  pose proof (ARC_find_Some _ _ _ Hf) as [Hk _].
  fold count. split; [done|]. split.
  { unfold Arc.moveToFront. simpl. by rewrite Hk. }
  split.
  - intros Hth Hcap. destruct (Z.leb_spec (Arc.lru_transformThreshold (Arc._lruPart c)) count)
      as [_|?]; [|lia].
    simpl. unfold Arc.lfu_put.
    destruct (Z.eqb_spec (Arc.lfu_capacity (Arc._lfuPart c)) 0) as [?|_]; [done|].
    destruct (Arc.lfu_mainCache (Arc._lfuPart c) !! key) as [m|]; simpl.
    + unfold Arc.lfu_updateExistingNode, Arc.lfu_updateNodeFrequency. simpl.
      rewrite lookup_insert_eq. by eexists.
    + unfold Arc.lfu_addNewNode. simpl. rewrite lookup_insert_eq. by eexists.
  - intros Hth. by destruct (Z.leb_spec (Arc.lru_transformThreshold (Arc._lruPart c)) count)
      as [?|_]; [lia|].
Qed.

End ARC_residents.

Lemma ARC_parts_within_capacity_witness :
  let c := Arc.run (Arc.new 2 2) [Arc.Put 1 10; Arc.Get 1; Arc.Put 2 20; Arc.Put 3 30] in
  NoDup (Arc._key <$> Arc.lru_mainList (Arc._lruPart c))
  /\ zlength (Arc.lru_mainList (Arc._lruPart c)) <= Arc.lru_capacity (Arc._lruPart c)
  /\ Arc.lfu_size (Arc._lfuPart c) <= Arc.lfu_capacity (Arc._lfuPart c)
  /\ zlength (Arc.lru_mainList (Arc._lruPart c)) + Arc.lfu_size (Arc._lfuPart c) <= 2 * 2.
Proof. apply (ARC_parts_within_capacity 2 2); lia. Defined.

Lemma ARC_lfu_index_and_lists_agree_witness :
  let q := Arc._lfuPart
             (Arc.run (Arc.new 2 2) [Arc.Put 1 10; Arc.Get 1; Arc.Put 2 20; Arc.Get 1]) in
  ARC_lfu_sync q
  /\ (Arc.lfu_mainCache q <> ∅ ->
      exists victim rest,
        Arc.lfu_freqMap q !! Arc.lfu_minFreq q = Some (victim :: rest)
        /\ is_Some (Arc.lfu_mainCache q !! victim)
        /\ Arc.lfu_mainCache (Arc.lfu_evictLeastFrequent q)
           = delete victim (Arc.lfu_mainCache q)).
Proof. apply (ARC_lfu_index_and_lists_agree 2 2); lia. Defined.

Lemma ARC_get_returns_last_put_witness :
  ARC_last_put 1 [Arc.Put 1 10; Arc.Put 2 20; Arc.Put 1 11; Arc.Get 2] = Some 11.
Proof. apply (ARC_get_returns_last_put 2 2); [lia | lia | vm_compute; reflexivity]. Defined.

Lemma ARC_lfu_evicts_newest_first_witness :
  let q := (Arc.lfu_put (Arc.lfu_new 2 2) 1 10).1 in
  let q1 := (Arc.lfu_put q 2 20).1 in
  is_Some (Arc.lfu_mainCache q1 !! 2)
  /\ Arc.lfu_mainCache (Arc.lfu_evictLeastFrequent q1) = delete 2 (Arc.lfu_mainCache q1)
  /\ 2 ∈ Arc._ghostCache (Arc.lfu_ghost (Arc.lfu_evictLeastFrequent q1))
  /\ forall k2 (v2 : Z),
       k2 <> 2 -> Arc.lfu_mainCache q !! k2 = None ->
       Arc.lfu_capacity q <= Arc.lfu_size q1 ->
       Arc.lfu_mainCache (Arc.lfu_put q1 k2 v2).1
       = <[k2 := Arc.mkNode k2 v2 1]> (delete 2 (Arc.lfu_mainCache q1)).
Proof.
  apply (ARC_lfu_evicts_newest_first (Arc.lfu_put (Arc.lfu_new 2 2) 1 10).1 2 20);
    [vm_compute; lia | vm_compute; reflexivity].
Defined.

Lemma ARC_get_promotes_by_copy_witness :
  let c := Arc.put (Arc.new 2 2) 1 10 in
  let c' := (Arc.get c 1).1 in
  (Arc.get c 1).2 = Some 10
  /\ Arc.lru_mainList (Arc._lruPart c')
     = Arc.mkNode 1 10 (to_size_t (1 + 1))
       :: Arc.removeFromMain 1 (Arc.lru_mainList (Arc._lruPart c))
  /\ (Arc.lru_transformThreshold (Arc._lruPart c) <= to_size_t (1 + 1) ->
      Arc.lfu_capacity (Arc._lfuPart c) <> 0 ->
      exists m, Arc.lfu_mainCache (Arc._lfuPart c') !! 1 = Some m
                /\ Arc._value m = 10)
  /\ (to_size_t (1 + 1) < Arc.lru_transformThreshold (Arc._lruPart c) ->
      Arc._lfuPart c' = Arc._lfuPart c).
Proof.
  apply (ARC_get_promotes_by_copy (Arc.put (Arc.new 2 2) 1 10) 1 (Arc.mkNode 1 10 1));
    [apply (bool_decide_unpack _); vm_compute; exact I
    | apply (bool_decide_unpack _); vm_compute; exact I
    | vm_compute; reflexivity].
Defined.

(** ** The slice size of the sharded caches *)

Lemma Double_pow2_step (d : Z) : 1 <= d -> 2 ^ d = 2 * 2 ^ (d - 1).
Proof. intros Hd. rewrite <- Z.pow_succ_r by lia. f_equal. lia. Qed.

Lemma Double_digits_bounds (p : positive) :
  2 ^ (Z.pos (digits2_pos p) - 1) <= Z.pos p < 2 ^ Z.pos (digits2_pos p).
Proof.
  induction p as [p IH|p IH|]; simpl digits2_pos; [| |simpl; lia].
  - rewrite Pos2Z.inj_succ. change (Z.pos p~1) with (2 * Z.pos p + 1).
    set (d := Z.pos (digits2_pos p)) in *.
    replace (Z.succ d - 1) with d by lia.
    rewrite (Double_pow2_step (Z.succ d)) by lia.
    replace (Z.succ d - 1) with d by lia.
    rewrite (Double_pow2_step d) in * by lia. lia.
  - rewrite Pos2Z.inj_succ. change (Z.pos p~0) with (2 * Z.pos p).
    set (d := Z.pos (digits2_pos p)) in *.
    replace (Z.succ d - 1) with d by lia.
    rewrite (Double_pow2_step (Z.succ d)) by lia.
    replace (Z.succ d - 1) with d by lia.
    rewrite (Double_pow2_step d) in * by lia. lia.
Qed.

Lemma Double_digits_unique (n k : Z) :
  2 ^ (k - 1) <= n < 2 ^ k -> 0 < n -> Zdigits2 n = k.
Proof.
  intros Hb Hn. destruct n as [|p|p]; try lia. simpl.
  pose proof (Double_digits_bounds p) as Hd.
  set (d := Z.pos (digits2_pos p)) in *.
  assert (0 < k) as Hk.
  { destruct (Z.lt_trichotomy k 0) as [?|[->|?]]; [|simpl in Hb; lia|done].
    rewrite (Z.pow_neg_r 2 k) in Hb by lia. lia. }
  destruct (Z.lt_trichotomy d k) as [Hlt|[Heq|Hgt]]; [|done|].
  - assert (2 ^ d <= 2 ^ (k - 1)) by (apply Z.pow_le_mono_r; lia). lia.
  - assert (2 ^ k <= 2 ^ (d - 1)) by (apply Z.pow_le_mono_r; lia). lia.
Qed.

Lemma Double_iter_xO (m d : positive) :
  Z.pos (Pos.iter xO m d) = Z.pos m * 2 ^ Z.pos d.
Proof.
  induction d as [|d IH] using Pos.peano_ind.
  - simpl. lia.
  - rewrite Pos.iter_succ, Pos2Z.inj_succ, Z.pow_succ_r by lia.
    change (Z.pos (Pos.iter xO m d)~0) with (2 * Z.pos (Pos.iter xO m d)). rewrite IH. lia.
Qed.

Lemma Double_fexp_normal (e : Z) : -1021 <= e -> fexp 53 1024 e = e - 53.
Proof. intros He. unfold fexp, emin. lia. Qed.

Lemma Double_shr_record_m (m : Z) (l : location) : shr_m (shr_record_of_loc m l) = m.
Proof. by destruct l as [|[]]. Qed.

Lemma Double_shr_record_loc (m : Z) (l : location) :
  loc_of_shr_record (shr_record_of_loc m l) = l.
Proof. by destruct l as [|[]]. Qed.

Lemma Double_round_nearest_even_range (m : Z) (l : location) :
  round_nearest_even m l = m \/ round_nearest_even m l = m + 1.
Proof. destruct l as [|[]]; simpl; auto. destruct (Z.even m); auto. Qed.

(** Rounding a mantissa of 53 digits: no shift, then at most one carry. *)
Lemma Double_round_53 (q e : Z) (l : location) :
  2 ^ 52 <= q < 2 ^ 53 -> -1074 <= e -> e < 971 ->
  binary_round_aux 53 1024 false q e l
  = (let m := round_nearest_even q l in
     if m =? 2 ^ 53 then S754_finite false (Z.to_pos (2 ^ 52)) (e + 1)
     else S754_finite false (Z.to_pos m) e).
Proof.
  intros Hq He1 He2. unfold binary_round_aux, shr_fexp.
  change (2 ^ 52) with 4503599627370496 in *. change (2 ^ 53) with 9007199254740992 in *.
  rewrite (Double_digits_unique q 53) by (simpl; lia).
  rewrite Double_fexp_normal by lia.
  replace (53 + e - 53 - e) with 0 by lia. unfold shr at 1.
  rewrite Double_shr_record_m, Double_shr_record_loc.
  cbv zeta.
  destruct (Double_round_nearest_even_range q l) as [Hm|Hm]; rewrite Hm.
  - rewrite (Double_digits_unique q 53) by (simpl; lia).
    rewrite Double_fexp_normal by lia.
    replace (53 + e - 53 - e) with 0 by lia. unfold shr. simpl shr_m.
    destruct (Z.eqb_spec q 9007199254740992) as [?|_]; [lia|].
    destruct q as [|p|p]; try lia. simpl Z.to_pos.
    by destruct (Z.leb_spec e (1024 - 53)) as [_|?]; [|lia].
  - destruct (Z.eqb_spec (q + 1) 9007199254740992) as [Heq|Hne].
    + rewrite Heq. rewrite Double_fexp_normal by (simpl; lia).
      replace (Zdigits2 9007199254740992 + e - 53 - e) with 1 by (simpl; lia).
      simpl. by destruct (Z.leb_spec (e + 1) (1024 - 53)) as [_|?]; [|lia].
    + rewrite (Double_digits_unique (q + 1) 53) by (simpl; lia).
      rewrite Double_fexp_normal by lia.
      replace (53 + e - 53 - e) with 0 by lia. unfold shr. simpl shr_m.
      destruct (q + 1) as [|p|p] eqn:Hq1; try lia. simpl Z.to_pos.
      by destruct (Z.leb_spec e (1024 - 53)) as [_|?]; [|lia].
Qed.

Lemma Double_shr_1_m (q : Z) (l : location) :
  0 <= q -> shr_m (shr_1 (shr_record_of_loc q l)) = q / 2.
Proof.
  intros Hq. destruct q as [|p|p]; [by destruct l as [|[]]| |lia].
  assert (shr_m (shr_1 (shr_record_of_loc (Z.pos p) l))
          = match p with xH => 0 | xO p' | xI p' => Z.pos p' end) as ->
    by (by destruct l as [|[]], p).
  destruct p as [p|p|]; [| |done].
  - change (Z.pos p~1) with (2 * Z.pos p + 1).
    apply (Z.div_unique _ _ _ 1); lia.
  - change (Z.pos p~0) with (2 * Z.pos p).
    apply (Z.div_unique _ _ _ 0); lia.
Qed.

Lemma Double_shr_1_exact (q : Z) :
  Z.even q = true ->
  loc_of_shr_record (shr_1 (shr_record_of_loc q loc_Exact)) = loc_Exact.
Proof. by destruct q as [|[]|[]]. Qed.

Lemma Double_shr_1_up (q : Z) (c : comparison) :
  Z.odd q = true ->
  loc_of_shr_record (shr_1 (shr_record_of_loc q (loc_Inexact c))) = loc_Inexact Gt.
Proof. by destruct q as [|[]|[]], c. Qed.

(** Rounding a mantissa of 54 digits: one shift, then as for 53 digits. *)
Lemma Double_round_54 (q e : Z) (l : location) :
  2 ^ 53 <= q < 2 ^ 54 -> -1075 <= e ->
  binary_round_aux 53 1024 false q e l
  = binary_round_aux 53 1024 false (q / 2) (e + 1)
      (loc_of_shr_record (shr_1 (shr_record_of_loc q l))).
Proof.
  intros Hq He.
  change (2 ^ 53) with 9007199254740992 in *. change (2 ^ 54) with 18014398509481984 in *.
  assert (4503599627370496 <= q / 2 < 9007199254740992) as Hh.
  { split; [apply Z.div_le_lower_bound; lia | apply Z.div_lt_upper_bound; lia]. }
  unfold binary_round_aux at 1 2. unfold shr_fexp at 1 3.
  rewrite (Double_digits_unique q 54) by (simpl; lia).
  rewrite (Double_digits_unique (q / 2) 53) by (simpl; lia).
  rewrite !Double_fexp_normal by lia.
  replace (54 + e - 53 - e) with 1 by lia.
  replace (53 + (e + 1) - 53 - (e + 1)) with 0 by lia.
  unfold shr at 1 2. unfold iter_pos.
  rewrite Double_shr_record_m, Double_shr_record_loc, Double_shr_1_m by lia.
  done.
Qed.

(** An integer below [2^53] is converted exactly: the mantissa is the
    integer shifted to 53 digits. *)
Lemma Double_of_Z_normal (a : Z) :
  0 < a < 2 ^ 53 ->
  let d := Zdigits2 a in
  1 <= d <= 53
  /\ 2 ^ (d - 1) <= a < 2 ^ d
  /\ 2 ^ 52 <= a * 2 ^ (53 - d) < 2 ^ 53
  /\ Double.of_Z a = S754_finite false (Z.to_pos (a * 2 ^ (53 - d))) (d - 53).
Proof.
  intros Ha d. destruct a as [|p|p]; try lia.
  pose proof (Double_digits_bounds p) as Hd. simpl in d. fold d in Hd.
  assert (1 <= d) as Hd1 by (unfold d; lia).
  assert (d <= 53) as Hd53.
  { destruct (Z.le_gt_cases d 53) as [?|Hgt]; [done|].
    assert (2 ^ 53 <= 2 ^ (d - 1)) by (apply Z.pow_le_mono_r; lia). lia. }
  assert (2 ^ 52 <= Z.pos p * 2 ^ (53 - d) < 2 ^ 53) as HM.
  { assert (2 ^ 52 = 2 ^ (d - 1) * 2 ^ (53 - d)) as ->
      by (rewrite <- Z.pow_add_r by lia; f_equal; lia).
    assert (2 ^ 53 = 2 ^ d * 2 ^ (53 - d)) as ->
      by (rewrite <- Z.pow_add_r by lia; f_equal; lia).
    assert (0 < 2 ^ (53 - d)) by (apply Z.pow_pos_nonneg; lia). nia. }
  split; [done|]. split; [done|]. split; [done|].
  unfold Double.of_Z, binary_normalize, binary_round.
  fold d. rewrite Z.add_0_r, Double_fexp_normal by lia.
  assert (shl_align p 0 (d - 53) = (Z.to_pos (Z.pos p * 2 ^ (53 - d)), d - 53)) as ->.
  { unfold shl_align. destruct (d - 53 - 0) as [|k|k] eqn:Hk; [|lia|].
    - replace (53 - d) with 0 by lia. rewrite Z.mul_1_r. simpl. f_equal. lia.
    - f_equal. apply Pos2Z.inj. rewrite Double_iter_xO, Z2Pos.id by lia.
      f_equal. f_equal. lia. }
  rewrite Z2Pos.id by lia.
  rewrite Double_round_53 by (unfold Double.prec, Double.emax; lia).
  simpl round_nearest_even. cbv zeta.
  by destruct (Z.eqb_spec (Z.pos p * 2 ^ (53 - d)) (2 ^ 53)) as [?|_]; [lia|].
Qed.

Lemma Double_div_eucl (a b : Z) : Z.div_eucl a b = (a / b, a mod b).
Proof. unfold Z.div, Z.modulo. by destruct (Z.div_eucl a b). Qed.

(** The quotient of two mantissas of 53 digits, before rounding. *)
Lemma Double_div_core (m1 e1 m2 e2 : Z) :
  2 ^ 52 <= m1 < 2 ^ 53 -> 2 ^ 52 <= m2 < 2 ^ 53 -> -1021 <= e1 - e2 ->
  SFdiv_core_binary 53 1024 m1 e1 m2 e2
  = ((m1 * 2 ^ 53) / m2, e1 - e2 - 53, new_location m2 ((m1 * 2 ^ 53) mod m2)).
Proof.
  intros H1 H2 He. unfold SFdiv_core_binary.
  rewrite (Double_digits_unique m1 53), (Double_digits_unique m2 53) by (simpl; lia).
  rewrite Double_fexp_normal by lia.
  replace (Z.min (53 + e1 - (53 + e2) - 53) (e1 - e2)) with (e1 - e2 - 53) by lia.
  replace (e1 - e2 - (e1 - e2 - 53)) with 53 by lia.
  cbv zeta. cbv iota. rewrite Z.shiftl_mul_pow2 by lia.
  by rewrite Double_div_eucl.
Qed.

Lemma Double_new_location_exact (m r : Z) : r = 0 -> new_location m r = loc_Exact.
Proof.
  intros ->. unfold new_location, new_location_even, new_location_odd.
  by destruct (Z.even m).
Qed.

Lemma Double_new_location_inexact (m r : Z) :
  r <> 0 -> exists c, new_location m r = loc_Inexact c.
Proof.
  intros Hr. unfold new_location, new_location_even, new_location_odd.
  destruct (Z.even m); destruct (Z.eqb_spec r 0) as [?|_]; try done; eauto.
Qed.

(** [std::ceil] of a positive [double] with a non-positive exponent. *)
Lemma Double_ceil_finite (m e c : Z) :
  0 < m -> e <= 0 -> (c - 1) * 2 ^ (- e) < m <= c * 2 ^ (- e) ->
  Double.ceil (S754_finite false (Z.to_pos m) e) = Some c.
Proof.
  intros Hm He Hc. unfold Double.ceil, cond_Zopp. rewrite Z2Pos.id by lia. f_equal.
  destruct (Z.leb_spec 0 e) as [?|Hneg].
  - replace e with 0 in * by lia. simpl in *. lia.
  - assert (0 < 2 ^ (- e)) as HK by (apply Z.pow_pos_nonneg; lia).
    rewrite <- (Z.div_unique (- m) (2 ^ (- e)) (- c) (c * 2 ^ (- e) - m)); lia.
Qed.

(** [std::ceil] of a rounded mantissa of 53 digits. *)
Lemma Double_ceil_round_53 (q e c : Z) (l : location) :
  2 ^ 52 <= q < 2 ^ 53 -> -1074 <= e -> e <= 0 -> c < 2 ^ 53 ->
  (c - 1) * 2 ^ (- e) < round_nearest_even q l <= c * 2 ^ (- e) ->
  Double.ceil (binary_round_aux 53 1024 false q e l) = Some c.
Proof.
  intros Hq He1 He2 Hc Hv. rewrite Double_round_53 by lia. cbv zeta.
  set (v := round_nearest_even q l) in *.
  assert (0 < v) as Hpos.
  { unfold v. destruct (Double_round_nearest_even_range q l) as [->| ->]; lia. }
  destruct (Z.eqb_spec v (2 ^ 53)) as [Heq|_]; [|by apply Double_ceil_finite].
  assert (e <= -1) as He3.
  { destruct (Z.eq_dec e 0) as [->|?]; [|lia]. simpl in Hv. lia. }
  apply Double_ceil_finite; [done|lia|].
  rewrite (Double_pow2_step (- e)) in Hv by lia.
  replace (- (e + 1)) with (- e - 1) by lia.
  rewrite Heq in Hv. change (2 ^ 53) with (2 * 2 ^ 52) in Hv. lia.
Qed.

(** The quotient [a * T / b] for a power [T] of 2 above [b], against the
    ceiling [c] of [a / b]. *)
Lemma Double_quotient_bounds (a b T c : Z) :
  0 < b < T -> (c - 1) * b < a <= c * b ->
  let q := (a * T) / b in
  let r := (a * T) mod b in
  (c - 1) * T + 1 <= q <= c * T
  /\ (q = c * T -> r = 0)
  /\ (q = (c - 1) * T + 1 -> r <> 0).
Proof.
  intros Hb Hc q r.
  pose proof (Z.div_mod (a * T) b ltac:(lia)) as Hdm. fold q r in Hdm.
  pose proof (Z.mod_pos_bound (a * T) b ltac:(lia)) as Hr. fold r in Hr.
  assert (a * T <= c * b * T) as Hup by nia.
  assert ((c - 1) * b * T + T <= a * T) as Hlow by nia.
  assert (q <= c * T) as H1 by nia.
  assert ((c - 1) * T + 1 <= q) as H2 by nia.
  split; [done|]. split; intros Hq; nia.
Qed.

Lemma Double_ceil_div_spec (a b : Z) :
  0 < b -> 0 <= a ->
  let c := (a + b - 1) / b in
  (c - 1) * b < a <= c * b /\ 0 <= c <= a.
Proof.
  intros Hb Ha c.
  pose proof (Z.div_mod (a + b - 1) b ltac:(lia)) as Hdm. fold c in Hdm.
  pose proof (Z.mod_pos_bound (a + b - 1) b ltac:(lia)) as Hr.
  assert (0 <= c) by (apply Z.div_pos; lia).
  split; [nia|]. split; [done|]. nia.
Qed.

(** What the constructors of the sharded caches compute in [double]: for
    a capacity below [2^53] and an [int] number of slices, the rounded
    quotient has the ceiling of the exact one. *)
Lemma Double_sliceSize_exact (a b : Z) :
  0 <= a < 2 ^ 53 -> 0 < b < 2 ^ 31 ->
  Double.sliceSize a b = Some ((a + b - 1) / b).
Proof.
  intros Ha Hb.
  destruct (Double_ceil_div_spec a b ltac:(lia) ltac:(lia)) as [Hc Hca].
  set (c := (a + b - 1) / b) in *.
  assert (Double.to_size_t c = Some c) as Hsize.
  { unfold Double.to_size_t.
    destruct (Z.leb_spec 0 c) as [_|?]; [|lia].
    destruct (Z.ltb_spec c (2 ^ 64)) as [_|?]; [done|]. 
    assert (2 ^ 53 < 2 ^ 64) by done. lia. }
  destruct (Double_of_Z_normal b ltac:(change (2 ^ 53) with 9007199254740992;
      change (2 ^ 31) with 2147483648 in Hb; lia)) as (Hdb & Hbb & HM2 & Hofb).
  set (db := Zdigits2 b) in *. set (M2 := b * 2 ^ (53 - db)) in *.
  unfold Double.sliceSize. rewrite Hofb.
  destruct (Z.eq_dec a 0) as [->|Hne].
  { simpl. assert (c = 0) as -> by lia. done. }
  destruct (Double_of_Z_normal a ltac:(lia)) as (Hda & Hab & HM1 & Hofa).
  set (da := Zdigits2 a) in *. set (M1 := a * 2 ^ (53 - da)) in *.
  rewrite Hofa. unfold Double.div, SFdiv, Double.prec, Double.emax.
  rewrite !Z2Pos.id by lia.
  assert (db <= 31) as Hdb31.
  { destruct (Z.le_gt_cases db 31) as [?|Hgt]; [done|].
    assert (2 ^ 31 <= 2 ^ (db - 1)) by (apply Z.pow_le_mono_r; lia). lia. }
  rewrite Double_div_core by lia.
  set (t := 53 + db - da).
  replace (da - 53 - (db - 53) - 53) with (- t) by (unfold t; lia).
  assert (M1 * 2 ^ 53 = (a * 2 ^ t) * 2 ^ (53 - db)) as HN.
  { unfold M1, t. rewrite <- !Z.mul_assoc, <- !Z.pow_add_r by lia. do 2 f_equal. lia. }
  assert (0 < 2 ^ (53 - db)) as Hpow by (apply Z.pow_pos_nonneg; lia).
  assert ((M1 * 2 ^ 53) / M2 = (a * 2 ^ t) / b) as Hq.
  { rewrite HN. unfold M2. apply Z.div_mul_cancel_r; lia. }
  assert ((M1 * 2 ^ 53) mod M2 = ((a * 2 ^ t) mod b) * 2 ^ (53 - db)) as Hr.
  { rewrite HN. unfold M2. apply Z.mul_mod_distr_r; lia. }
  assert (b < 2 ^ t) as HbT.
  { assert (2 ^ db <= 2 ^ t) by (apply Z.pow_le_mono_r; unfold t; lia). lia. }
  destruct (Double_quotient_bounds a b (2 ^ t) c ltac:(lia) Hc) as (Hqb & Hexact & Hinexact).
  assert (2 ^ 52 <= (M1 * 2 ^ 53) / M2 < 2 ^ 54) as Hq54.
  { change (2 ^ 52) with 4503599627370496 in *. change (2 ^ 53) with 9007199254740992 in *.
    change (2 ^ 54) with 18014398509481984.
    split; [apply Z.div_le_lower_bound; lia | apply Z.div_lt_upper_bound; lia]. }
  set (q := (M1 * 2 ^ 53) / M2) in *. set (r := (M1 * 2 ^ 53) mod M2) in *.
  set (l := new_location M2 r).
  assert (a * 2 ^ t / b = c * 2 ^ t -> l = loc_Exact) as Hl0.
  { intros Heq. apply Double_new_location_exact. rewrite Hr, (Hexact Heq). lia. }
  assert (a * 2 ^ t / b = (c - 1) * 2 ^ t + 1 -> exists x, l = loc_Inexact x) as Hl1.
  { intros Heq. apply Double_new_location_inexact. rewrite Hr.
    specialize (Hinexact Heq). lia. }
  rewrite <- Hq in Hqb, Hl0, Hl1. clearbody l. clear Hexact Hinexact.
  assert (1 <= t <= 83) as Ht by (unfold t; lia).
  cbn [xorb]. 
  enough (Double.ceil (binary_round_aux 53 1024 false q (- t) l) = Some c) as ->
    by (simpl; exact Hsize).
  assert (c < 2 ^ 53) as Hc53 by lia.
  destruct (Z.lt_ge_cases q (2 ^ 53)) as [H53|H54].
  - apply Double_ceil_round_53; [lia|lia|lia|done|].
    rewrite Z.opp_involutive.
    destruct (Z.eq_dec q (c * 2 ^ t)) as [Heq|Hneq].
    + rewrite (Hl0 Heq). simpl. lia.
    + destruct (Double_round_nearest_even_range q l) as [-> | ->]; lia.
  - rewrite Double_round_54 by lia.
    assert (2 ^ t = 2 * 2 ^ (t - 1)) as HT by (apply Double_pow2_step; lia).
    assert (0 < 2 ^ (t - 1)) as HT' by (apply Z.pow_pos_nonneg; lia).
    pose proof (Z.div_mod q 2 ltac:(lia)) as Hdm.
    pose proof (Z.mod_pos_bound q 2 ltac:(lia)) as Hm2.
    assert (2 ^ 52 <= q / 2 < 2 ^ 53) as Hh.
    { change (2 ^ 52) with 4503599627370496 in *. change (2 ^ 53) with 9007199254740992 in *.
      change (2 ^ 54) with 18014398509481984 in *.
      split; [apply Z.div_le_lower_bound; lia | apply Z.div_lt_upper_bound; lia]. }
    apply Double_ceil_round_53; [done|lia|lia|done|].
    replace (- (- t + 1)) with (t - 1) by lia.
    rewrite HT in Hqb, Hl0, Hl1.
    destruct (Z.eq_dec (q / 2) ((c - 1) * 2 ^ (t - 1))) as [Hlow|Hnlow].
    + assert (q mod 2 = 1) as Hodd by lia.
      destruct Hl1 as [x ->]; [lia|].
      rewrite Double_shr_1_up by (rewrite Zmod_odd in Hodd; by destruct (Z.odd q)).
      simpl. lia.
    + destruct (Z.eq_dec (q / 2) (c * 2 ^ (t - 1))) as [Hhigh|Hnhigh].
      * assert (q mod 2 = 0) as Heven by lia.
        rewrite Hl0 by lia.
        rewrite Double_shr_1_exact by (rewrite Zmod_even in Heven; by destruct (Z.even q)).
        simpl. lia.
      * destruct (Double_round_nearest_even_range (q / 2)
                    (loc_of_shr_record (shr_1 (shr_record_of_loc q l)))) as [-> | ->]; lia.
Qed.

Section Hash_capacity.
Context {Key : Type} `{Countable Key} {Value : Type}.
Variable Hash : Key -> Z.
Variable hardware_concurrency : Z.
Variable Key_default : Key.

Lemma HashLRU_sliceNum_range (sliceNum : Z) :
  int_range sliceNum ->
  int_range (HashLRU.sliceNum_or_default hardware_concurrency sliceNum).
Proof.
  intros Hint. unfold HashLRU.sliceNum_or_default.
  destruct (0 <? sliceNum); [done | apply to_int_range].
Qed.

Lemma Hash_slice_size_bounds (capacity n : Z) :
  0 <= capacity -> 0 < n ->
  let size := (capacity + n - 1) / n in
  capacity <= n * size < capacity + n /\ (size < 2 ^ 31 -> to_int size = size).
Proof.
  intros Hc Hn size.
  destruct (Double_ceil_div_spec capacity n Hn Hc) as [Hb Hs]. fold size in Hb, Hs.
  split; [lia|]. intros Hsmall. unfold to_int.
  rewrite Z.mod_small; [lia|]. change (2 ^ 32) with (2 * 2 ^ 31). lia.
Qed.

(** X27: the slices the constructor of [HashLRUCache] builds.  For a
    capacity below [2^53] and a positive number [n] of slices (the
    argument, or [hardware_concurrency()] when the argument is not
    positive), the slice size computed in [double] is exactly the ceiling
    of [capacity / n]: the constructor builds [n] slices, each an
    [LRUCache] of that size narrowed to [int] (the size itself when it is
    below [2^31]), and [n] times the size is at least [capacity] and less
    than [capacity + n]. *)
Theorem HashLRU_new_slice_capacity (capacity sliceNum : Z) :
  0 <= capacity < 2 ^ 53 -> int_range sliceNum ->
  let n := HashLRU.sliceNum_or_default hardware_concurrency sliceNum in
  let size := (capacity + n - 1) / n in
  0 < n ->
  HashLRU.new (Key:=Key) (Value:=Value) hardware_concurrency capacity sliceNum
  = Some (HashLRU.mkCache capacity n (replicate (Z.to_nat n) (LRU.new (to_int size))))
  /\ capacity <= n * size < capacity + n
  /\ (size < 2 ^ 31 -> to_int size = size).
Proof.
  intros Hc Hint n size Hn.
  pose proof (HashLRU_sliceNum_range sliceNum Hint) as Hr. fold n in Hr.
  split; [|by apply Hash_slice_size_bounds; lia].
  unfold HashLRU.new. fold n.
  rewrite Double_sliceSize_exact by (unfold int_range in Hr; lia). done.
Qed.

(** X28: the slices the constructor of [HashLFUCache] builds: under
    the same conditions, [n] slices, each an [LFUCache] of the ceiling of
    [capacity / n] narrowed to [int], with the given ageing threshold. *)
Theorem HashLFU_new_slice_capacity (capacity sliceNum maxAverageNum : Z) :
  0 <= capacity < 2 ^ 53 -> int_range sliceNum ->
  let n := HashLFU.sliceNum_or_default hardware_concurrency sliceNum in
  let size := (capacity + n - 1) / n in
  0 < n ->
  HashLFU.new (Key:=Key) (Value:=Value) hardware_concurrency capacity sliceNum maxAverageNum
  = Some (HashLFU.mkCache capacity n
            (replicate (Z.to_nat n) (LFU.new (to_int size) maxAverageNum)))
  /\ capacity <= n * size < capacity + n
  /\ (size < 2 ^ 31 -> to_int size = size).
Proof.
  intros Hc Hint n size Hn.
  pose proof (HashLRU_sliceNum_range sliceNum Hint) as Hr.
  change (HashLRU.sliceNum_or_default hardware_concurrency sliceNum) with n in Hr.
  split; [|by apply Hash_slice_size_bounds; lia].
  unfold HashLFU.new. fold n.
  rewrite Double_sliceSize_exact by (unfold int_range in Hr; lia). done.
Qed.

Lemma Hash_sum_bound {A} (f : A -> nat) (l : list A) (bound : Z) :
  (forall x, x ∈ l -> Z.of_nat (f x) <= bound) ->
  Z.of_nat (sum_list_with f l) <= Z.of_nat (length l) * bound.
Proof.
  induction l as [|x l IH]; intros Hall; simpl; [lia|].
  assert (Z.of_nat (f x) <= bound) by (apply Hall; left).
  assert (Z.of_nat (sum_list_with f l) <= Z.of_nat (length l) * bound)
    by (apply IH; intros y Hy; apply Hall; by right).
  lia.
Qed.

(** X29: what a [HashLRUCache] can hold.  Built with a capacity below
    [2^53] and a positive number [n] of slices, the cache serves every run
    of [put] and [get], and afterwards every slice holds no key twice and at
    most the slice size (the ceiling of [capacity / n]) narrowed to [int]
    (nothing at all when that is not positive), so the whole cache holds
    at most [n] times that: when the slice size is below [2^31], fewer
    than [capacity + n] entries, which can be more than [capacity]. *)
Theorem HashLRU_run_within_capacity (capacity sliceNum : Z)
    (ops : list (HashLRU.op Key Value)) :
  0 <= capacity < 2 ^ 53 -> int_range sliceNum ->
  let n := HashLRU.sliceNum_or_default hardware_concurrency sliceNum in
  let size := (capacity + n - 1) / n in
  0 < n ->
  exists c0 c,
    HashLRU.new hardware_concurrency capacity sliceNum = Some c0
    /\ HashLRU.run Hash c0 ops = Some c
    /\ length (HashLRU._LRUSliceCaches c) = Z.to_nat n
    /\ (forall slice, slice ∈ HashLRU._LRUSliceCaches c ->
          NoDup (LRU.keys slice)
          /\ zlength (LRU._list slice) <= Z.max 0 (to_int size))
    /\ Z.of_nat (sum_list_with (fun slice => length (LRU._list slice))
                   (HashLRU._LRUSliceCaches c))
       <= n * Z.max 0 (to_int size)
    /\ (size < 2 ^ 31 -> n * Z.max 0 (to_int size) < capacity + n).
Proof.
  intros Hc Hint n size Hn.
  destruct (HashLRU_new_slice_capacity capacity sliceNum Hc Hint Hn) as (Hnew & Hb & Hs).
  fold n size in Hnew, Hb, Hs.
  set (c0 := HashLRU.mkCache capacity n (replicate (Z.to_nat n) (LRU.new (to_int size)))) in *.
  destruct (HashLRU_new_wf hardware_concurrency capacity sliceNum c0 Hint Hnew Hn) as [Hwf _].
  destruct (HashLRU_run_slices Hash ops c0 Hwf) as (c & Hrun & Hwf' & Hnum & Hslices).
  destruct Hwf' as (_ & _ & Hlen).
  exists c0, c. split; [done|]. split; [done|].
  assert (length (HashLRU._LRUSliceCaches c) = Z.to_nat n) as Hlen' by (by rewrite Hlen, Hnum).
  split; [done|].
  assert (forall slice, slice ∈ HashLRU._LRUSliceCaches c ->
            NoDup (LRU.keys slice)
            /\ zlength (LRU._list slice) <= Z.max 0 (to_int size)) as Hall.
  { intros slice (i & Hi)%list_elem_of_lookup_1.
    assert (HashLRU._LRUSliceCaches c0 !! i = Some (LRU.new (to_int size))) as H0.
    { simpl. apply lookup_replicate_2. apply lookup_lt_Some in Hi. lia. }
    rewrite (Hslices i _ H0) in Hi. injection Hi as <-.
    destruct (LRU_run_inv (to_int size) (HashLRU_routed Hash c0 i ops) (to_int_range size))
      as (Hnd & _ & Hsz & _).
    done. }
  split; [done|]. split.
  - rewrite <- (Z2Nat.id n) at 1 by lia. rewrite <- Hlen'.
    apply Hash_sum_bound. intros slice Hin. by apply Hall.
  - intros Hsmall. rewrite (Hs Hsmall). 
    destruct (Double_ceil_div_spec capacity n Hn ltac:(lia)) as [_ Hsz]. fold size in Hsz.
    rewrite Z.max_r by lia. lia.
Qed.

End Hash_capacity.

Lemma HashLRU_new_slice_capacity_witness :
  let size := (10 + 3 - 1) / 3 in
  HashLRU.new (Key:=Z) (Value:=Z) 8 10 3
  = Some (HashLRU.mkCache 10 3 (replicate (Z.to_nat 3) (LRU.new (to_int size))))
  /\ 10 <= 3 * size < 10 + 3
  /\ (size < 2 ^ 31 -> to_int size = size).
Proof.
  apply (HashLRU_new_slice_capacity 8 10 3); [lia | unfold int_range; lia | reflexivity].
Defined.

Lemma HashLFU_new_slice_capacity_witness :
  let size := (10 + 8 - 1) / 8 in
  HashLFU.new (Key:=Z) (Value:=Z) 8 10 0 10
  = Some (HashLFU.mkCache 10 8 (replicate (Z.to_nat 8) (LFU.new (to_int size) 10)))
  /\ 10 <= 8 * size < 10 + 8
  /\ (size < 2 ^ 31 -> to_int size = size).
Proof.
  apply (HashLFU_new_slice_capacity 8 10 0 10); [lia | unfold int_range; lia | reflexivity].
Defined.

Lemma HashLRU_run_within_capacity_witness :
  let Hash := fun k : Z => k in
  let ops := [HashLRU.Put 1 10; HashLRU.Put 4 40; HashLRU.Put 7 70; HashLRU.Get 1] in
  let size := (2 + 3 - 1) / 3 in
  exists c0 c,
    HashLRU.new 8 2 3 = Some c0
    /\ HashLRU.run Hash c0 ops = Some c
    /\ length (HashLRU._LRUSliceCaches c) = Z.to_nat 3
    /\ (forall slice, slice ∈ HashLRU._LRUSliceCaches c ->
          NoDup (LRU.keys slice)
          /\ zlength (LRU._list slice) <= Z.max 0 (to_int size))
    /\ Z.of_nat (sum_list_with (fun slice => length (LRU._list slice))
                   (HashLRU._LRUSliceCaches c))
       <= 3 * Z.max 0 (to_int size)
    /\ (size < 2 ^ 31 -> 3 * Z.max 0 (to_int size) < 2 + 3).
Proof.
  apply (HashLRU_run_within_capacity (fun k : Z => k) 8 2 3);
    [lia | unfold int_range; lia | reflexivity].
Defined.
